(** * SUPERSTONK-TRADER: the DD library autopilot (dd_library_autopilot.py)

    A shallow embedding of the crawl frontier and ingestion engine:
    the URL helpers, the SQLite tables with their insert-if-absent
    operations, the three pipeline phases and [main].

    Modelling conventions.
    - A Python [str] is a Rocq [string], one [ascii] per code point, so
      the model covers the code points below 256.
    - A Python [int] is a [Z]; the floats of [time.time()] and of
      [--max-minutes] are read as whole numbers of seconds.
    - The tables are lists of rows in rowid order; a PRIMARY KEY is
      enforced by the inserting operation, as SQLite does.
    - The clock, the uuid generator, Python's [urlparse] and the remote
      content source are the environment [Env]; every interaction with
      it is numbered by the [tick] of the world.
    - Logging and [time.sleep] leave the modelled state untouched and
      are omitted; the operations of the store do not fail on their own
      (no I/O error), so an exception is either raised by the remote
      source or by a constraint of the schema. *)

From Stdlib Require Import Bool Arith ZArith Lia List Ascii String.
From Stdlib Require Import Relation_Operators Wellfounded Lexicographic_Product.
From Stdlib Require Import Permutation.
Import ListNotations.

Local Open Scope Z_scope.
Local Open Scope list_scope.
Local Open Scope string_scope.

(* ================================================================== *)
(** ** Python string operations *)
(* ================================================================== *)

(** [str.isspace] on one code point below 256: TAB..CR, FS..US, space,
    NEL and NBSP.  This is also the regex class [\s] of a str pattern. *)
Definition is_space (c : ascii) : bool :=
  let n := nat_of_ascii c in
  ((9 <=? n) && (n <=? 13) || (28 <=? n) && (n <=? 32)
   || (n =? 133) || (n =? 160))%nat.

(** [s.startswith(p)]. *)
Fixpoint startswith (p s : string) : bool :=
  match p with
  | EmptyString => true
  | String a p' =>
      match s with
      | EmptyString => false
      | String b s' => Ascii.eqb a b && startswith p' s'
      end
  end.

(** [p in s]. *)
Fixpoint contains (p s : string) : bool :=
  startswith p s ||
  match s with
  | EmptyString => false
  | String _ t => contains p t
  end.

(** [s[n:]]. *)
Fixpoint drop (n : nat) (s : string) : string :=
  match n with
  | O => s
  | S k => match s with EmptyString => EmptyString | String _ t => drop k t end
  end.

(** [s[:n]]. *)
Fixpoint take (n : nat) (s : string) : string :=
  match n with
  | O => EmptyString
  | S k => match s with
           | EmptyString => EmptyString
           | String c t => String c (take k t)
           end
  end.

(** [s.lstrip()], [s.rstrip()] and [s.strip()]. *)
Fixpoint lstrip (s : string) : string :=
  match s with
  | EmptyString => EmptyString
  | String c t => if is_space c then lstrip t else s
  end.

Fixpoint rstrip (s : string) : string :=
  match s with
  | EmptyString => EmptyString
  | String c t =>
      match rstrip t with
      | EmptyString => if is_space c then EmptyString else String c EmptyString
      | t' => String c t'
      end
  end.

Definition strip (s : string) : string := rstrip (lstrip s).

(** [s.rstrip(chars)] for a set of characters given as a predicate. *)
Fixpoint rstrip_chars (drop_it : ascii -> bool) (s : string) : string :=
  match s with
  | EmptyString => EmptyString
  | String c t =>
      match rstrip_chars drop_it t with
      | EmptyString => if drop_it c then EmptyString else String c EmptyString
      | t' => String c t'
      end
  end.

(** [s.replace(old, new)] for a non-empty [old]: the occurrences of
    [old] are found from left to right without overlap.  [skip] counts
    the characters of a found occurrence that are still to be passed. *)
Fixpoint replace_from (skip : nat) (old new s : string) : string :=
  match s with
  | EmptyString => EmptyString
  | String c t =>
      match skip with
      | S k => replace_from k old new t
      | O =>
          if startswith old s
          then new ++ replace_from (String.length old - 1) old new t
          else String c (replace_from 0 old new t)
      end
  end.

Definition replace (old new s : string) : string := replace_from 0 old new s.

(** ASCII lower case, and prefix test under [re.IGNORECASE] for a prefix
    of ASCII characters: among the code points below 256 a letter of the
    prefix matches its two cases only. *)
Definition ascii_lower (c : ascii) : ascii :=
  let n := nat_of_ascii c in
  if ((65 <=? n) && (n <=? 90))%nat then ascii_of_nat (n + 32) else c.

Fixpoint startswith_ci (p s : string) : bool :=
  match p with
  | EmptyString => true
  | String a p' =>
      match s with
      | EmptyString => false
      | String b s' =>
          Ascii.eqb (ascii_lower a) (ascii_lower b) && startswith_ci p' s'
      end
  end.

(** The longest prefix of [s] made of characters satisfying [ok], at most
    [n] characters long: a greedy bounded repetition of a character class. *)
Fixpoint take_while (ok : ascii -> bool) (n : nat) (s : string) : string :=
  match n with
  | O => EmptyString
  | S k =>
      match s with
      | EmptyString => EmptyString
      | String c t => if ok c then String c (take_while ok k t) else EmptyString
      end
  end.

(** [sorted(set(l))] on strings: insertion into a strictly increasing list. *)
Fixpoint insert_sorted (x : string) (l : list string) : list string :=
  match l with
  | [] => [x]
  | y :: l' =>
      match String.compare x y with
      | Lt => x :: l
      | Eq => l
      | Gt => y :: insert_sorted x l'
      end
  end.

Definition sorted_set (l : list string) : list string :=
  fold_right insert_sorted [] l.

(* ================================================================== *)
(** ** URL helpers *)
(* ================================================================== *)

Definition MAX_CRAWL_DEPTH : Z := 3.
Definition MAX_QUEUE_BATCH : nat := 50.
Definition STOP_DUP_STREAK : Z := 2500.
Definition HEARTBEAT_EVERY_SECONDS : Z := 30.
Definition HUB_TOP_LEVEL_COMMENTS : nat := 75.
Definition HUB_REPLY_DEPTH : Z := 1.
Definition HUB_MAX_REPLIES_PER_TOP : nat := 20.

(** The class [[^\s)>\]]] of URL_RE. *)
Definition url_char (c : ascii) : bool :=
  negb (is_space c || Ascii.eqb c ")" || Ascii.eqb c ">" || Ascii.eqb c "]").

(** One attempt of URL_RE at the start of [s]: [https?://] without regard
    to case, then one or more [url_char]s, as many as there are. *)
Definition match_url (s : string) : option string :=
  let scheme_len :=
    if startswith_ci "https://" s then Some 8%nat
    else if startswith_ci "http://" s then Some 7%nat
    else None in
  match scheme_len with
  | None => None
  | Some n =>
      let tok := take_while url_char (String.length s) (drop n s) in
      match tok with
      | EmptyString => None
      | _ => Some (take n s ++ tok)
      end
  end.

(** [URL_RE.finditer(text)]: the matches from left to right, the search
    resuming where the previous match ended. *)
Fixpoint finditer_urls (skip : nat) (s : string) : list string :=
  match s with
  | EmptyString => []
  | String _ t =>
      match skip with
      | S k => finditer_urls k t
      | O =>
          match match_url s with
          | Some m => m :: finditer_urls (String.length m - 1) t
          | None => finditer_urls 0 t
          end
      end
  end.

Definition trailing_punct (c : ascii) : bool :=
  Ascii.eqb c "." || Ascii.eqb c "," || Ascii.eqb c ";" || Ascii.eqb c "!".

(** [extract_urls]: the set of matches, each without its trailing
    punctuation.  The order in which Python lists a set is unspecified;
    both callers sort the links, and the model lists them in increasing
    order. *)
Definition extract_urls (text : string) : list string :=
  match text with
  | EmptyString => []
  | _ => sorted_set (map (rstrip_chars trailing_punct) (finditer_urls 0 text))
  end.

(** What [urlparse] gives, as far as the program reads it. *)
Record ParseResult : Type := mkParseResult {
  netloc : string;
  path : string
}.

(** [is_reddit_submission_url].  Python's [urlparse] is a parameter:
    [None] stands for an exception raised by the parser, which the
    function catches. *)
Definition is_reddit_submission_url
    (urlparse : string -> option ParseResult) (u : string) : bool :=
  match urlparse u with
  | Some p =>
      let host_ok := contains "reddit.com" (netloc p) || contains "redd.it" (netloc p) in
      let path_ok := contains "/comments/" (path p) || contains "redd.it/" (path p) in
      host_ok && path_ok
  | None => false
  end.

Definition normalize_reddit_url (u : string) : string :=
  let u := strip u in
  let u := if startswith "http://" u
           then "https://" ++ drop (String.length "http://") u else u in
  let u := if contains "old.reddit.com" u
           then replace "old.reddit.com" "www.reddit.com" u else u in
  let u := if contains "reddit.com" u && negb (startswith "https://" u)
           then "https://" ++ u else u in
  u.

(** [[a-z0-9]] under [re.IGNORECASE], and without it, on the code points
    of the model: below 256 the class holds the ASCII letters and digits
    and nothing else.  (Beyond them [re.IGNORECASE] lets it hold U+0130,
    U+0131, U+017F and U+212A as well, which no string of the model
    contains.) *)
Definition is_alnum_ci (c : ascii) : bool :=
  let n := nat_of_ascii c in
  ((48 <=? n) && (n <=? 57) || (65 <=? n) && (n <=? 90)
   || (97 <=? n) && (n <=? 122))%nat.

Definition is_lower_alnum (c : ascii) : bool :=
  let n := nat_of_ascii c in
  ((48 <=? n) && (n <=? 57) || (97 <=? n) && (n <=? 122))%nat.

(** [re.search(marker + "([a-z0-9]{5,8})", u, re.IGNORECASE)]: the first
    position where the marker is followed by at least five such
    characters; the group holds up to eight of them. *)
Fixpoint search_id (marker : string) (u : string) : option string :=
  let here :=
    if startswith_ci marker u then
      let g := take_while is_alnum_ci 8 (drop (String.length marker) u) in
      if (5 <=? String.length g)%nat then Some g else None
    else None in
  match here with
  | Some g => Some g
  | None =>
      match u with
      | EmptyString => None
      | String _ t => search_id marker t
      end
  end.

Definition submission_id_from_url (u : string) : option string :=
  match search_id "/comments/" u with
  | Some g => Some g
  | None => search_id "redd.it/" u
  end.

(** [re.fullmatch(r"[a-z0-9]{5,8}", key)]. *)
Definition fullmatch_id (key : string) : bool :=
  let n := String.length key in
  ((5 <=? n) && (n <=? 8))%nat
  && String.eqb (take_while is_lower_alnum 8 key) key.

(* ================================================================== *)
(** ** The persistent store: rows and tables *)
(* ================================================================== *)

Local Open Scope list_scope.

Record PostRow : Type := mkPostRow {
  p_id : string;
  p_subreddit : string;
  p_created_utc : Z;
  p_created_iso : string;
  p_title : option string;
  p_selftext : option string;
  p_score : Z;
  p_num_comments : Z;
  p_permalink : string;
  p_url : option string;
  p_link_flair_text : option string;
  p_author : option string;
  p_retrieved_at_utc : string
}.

Record LinkRow : Type := mkLinkRow {
  l_post_id : string;
  l_url : string;
  l_first_seen_utc : string
}.

(** The three values the program writes to [crawl_queue.status]. *)
Inductive Status : Type := queued | done | error.

Definition status_eqb (a b : Status) : bool :=
  match a, b with
  | queued, queued | done, done | error, error => true
  | _, _ => false
  end.

Record QueueRow : Type := mkQueueRow {
  q_key : string;
  q_url : string;
  q_depth : Z;
  q_status : Status;
  q_last_error : option string;
  q_is_hub : Z;
  q_max_comment_depth : Z;
  q_added_at_utc : string;
  q_updated_at_utc : string
}.

Record RunRow : Type := mkRunRow {
  r_run_id : string;
  r_started_at_utc : string;
  r_ended_at_utc : option string;
  r_notes : option string;
  r_posts_inserted : Z;
  r_hubs_queued : Z;
  r_queue_done : Z;
  r_errors : Z
}.

Record DB : Type := mkDB {
  db_posts : list PostRow;
  db_links : list LinkRow;
  db_crawl_queue : list QueueRow;
  db_runs : list RunRow
}.

(** The database right after [apply_schema] on a new file. *)
Definition empty_db : DB := mkDB [] [] [] [].

(* ================================================================== *)
(** ** The remote content source and the rest of the environment *)
(* ================================================================== *)

(** The result of a remote call: a value, or an exception with [str(e)]. *)
Inductive fetched (A : Type) : Type :=
| Got (a : A)
| Failed (msg : string).
Arguments Got {A} a.
Arguments Failed {A} msg.

(** A comment: its body, and the bodies of its replies ([Failed] when
    expanding the replies raises). *)
Record Comment : Type := mkComment {
  c_body : string;
  c_replies : fetched (list string)
}.

(** A fetched submission.  [s_comments] is [Failed] when reading the
    comment forest raises. *)
Record Submission : Type := mkSubmission {
  s_id : string;
  s_subreddit : string;
  s_created_utc : Z;
  s_title : option string;
  s_selftext : option string;
  s_score : Z;
  s_num_comments : Z;
  s_permalink : string;
  s_url : option string;
  s_link_flair_text : option string;
  s_author : option string;
  s_comments : fetched (list Comment)
}.

(** What iterating over [sub.search(...)] yields: submissions, until the
    listing ends or the remote call behind it raises. *)
Inductive listing : Type :=
| LNil
| LCons (s : Submission) (rest : listing)
| LFail (msg : string).

(** [limit=n] of a search. *)
Fixpoint listing_limit (n : nat) (l : listing) : listing :=
  match n with
  | O => LNil
  | S k =>
      match l with
      | LCons s rest => LCons s (listing_limit k rest)
      | other => other
      end
  end.

Record Env : Type := mkEnv {
  urlparse : string -> option ParseResult;
  time_time : nat -> Z;
  now_utc_iso : nat -> string;
  ts_to_iso : Z -> string;
  uuid4 : nat -> string;
  (** [sub.search(query, sort=...)] *)
  search : nat -> string -> string -> listing;
  (** [reddit.submission(id=sid)] when [sid] is given, else
      [reddit.submission(url=url)], with the fetch of its fields *)
  reddit_submission : nat -> option string -> string -> fetched Submission
}.

(** The world: the database, and the number of interactions with the
    environment so far. *)
Record World : Type := mkWorld {
  db : DB;
  tick : nat
}.

(* ================================================================== *)
(** ** A state and exception monad *)
(* ================================================================== *)

Inductive outcome (A : Type) : Type :=
| Ok (a : A)
| Raise (msg : string)
| OutOfFuel.
Arguments Ok {A} a.
Arguments Raise {A} msg.
Arguments OutOfFuel {A}.

Definition M (S A : Type) : Type := S -> outcome A * S.

Definition ret {S A : Type} (a : A) : M S A := fun s => (Ok a, s).

Definition bind {S A B : Type} (m : M S A) (k : A -> M S B) : M S B :=
  fun s =>
    match m s with
    | (Ok a, s') => k a s'
    | (Raise msg, s') => (Raise msg, s')
    | (OutOfFuel, s') => (OutOfFuel, s')
    end.

Definition raise {S A : Type} (msg : string) : M S A := fun s => (Raise msg, s).

Definition out_of_fuel {S A : Type} : M S A := fun s => (OutOfFuel, s).

(** [try: body except Exception as e: handler(str(e))].  What the body
    did to the state before it raised stays done. *)
Definition try_except {S A : Type} (body : M S A) (handler : string -> M S A)
  : M S A :=
  fun s =>
    match body s with
    | (Raise msg, s') => handler msg s'
    | other => other
    end.

Definition get {S : Type} : M S S := fun s => (Ok s, s).
Definition modify {S : Type} (f : S -> S) : M S unit := fun s => (Ok tt, f s).

Notation "x <- m ;; k" := (bind m (fun x => k))
  (at level 61, m at next level, right associativity).
Notation "m ;; k" := (bind m (fun _ => k))
  (at level 61, right associativity).

(** A computation on the world, run below a frame of local variables. *)
Definition lift {L S A : Type} (m : M S A) : M (L * S) A :=
  fun ls =>
    match m (snd ls) with
    | (r, s') => (r, (fst ls, s'))
    end.

Definition set_db (f : DB -> DB) (w : World) : World :=
  mkWorld (f (db w)) (tick w).

(** One interaction with the environment. *)
Definition ask {A : Type} (oracle : nat -> A) : M World A :=
  fun w => (Ok (oracle (tick w)), mkWorld (db w) (S (tick w))).

Definition of_fetched {A : Type} (r : fetched A) : M World A :=
  match r with
  | Got a => ret a
  | Failed msg => raise msg
  end.

(* ================================================================== *)
(** ** Store operations *)
(* ================================================================== *)

Definition has_post (id : string) (ps : list PostRow) : bool :=
  existsb (fun r => String.eqb (p_id r) id) ps.

Definition has_link (post_id url : string) (ls : list LinkRow) : bool :=
  existsb (fun r => String.eqb (l_post_id r) post_id && String.eqb (l_url r) url) ls.

Definition has_key (key : string) (q : list QueueRow) : bool :=
  existsb (fun r => String.eqb (q_key r) key) q.

Definition has_run (run_id : string) (rs : list RunRow) : bool :=
  existsb (fun r => String.eqb (r_run_id r) run_id) rs.

(** [INSERT OR IGNORE INTO posts]: a row whose id is there already is
    left out; [cur.rowcount == 1] tells whether the row went in. *)
Definition insert_post (row : PostRow) : M World bool :=
  fun w =>
    if has_post (p_id row) (db_posts (db w)) then (Ok false, w)
    else
      (Ok true,
       set_db (fun d => mkDB (db_posts d ++ [row]) (db_links d)
                             (db_crawl_queue d) (db_runs d)) w).

(** [INSERT OR IGNORE INTO links]: ignored on the composite key; the
    foreign key on [posts(id)] is not a conflict that OR IGNORE covers. *)
Definition upsert_link (E : Env) (post_id url : string) : M World unit :=
  first_seen <- ask (now_utc_iso E) ;;
  fun w =>
    if has_link post_id url (db_links (db w)) then (Ok tt, w)
    else if has_post post_id (db_posts (db w)) then
      (Ok tt,
       set_db (fun d => mkDB (db_posts d)
                             (db_links d ++ [mkLinkRow post_id url first_seen])
                             (db_crawl_queue d) (db_runs d)) w)
    else (Raise "FOREIGN KEY constraint failed", w).

Definition insert_queue_row (row : QueueRow) (q : list QueueRow) : list QueueRow :=
  if has_key (q_key row) q then q else q ++ [row].

Definition set_queue (f : list QueueRow -> list QueueRow) (w : World) : World :=
  set_db (fun d => mkDB (db_posts d) (db_links d) (f (db_crawl_queue d)) (db_runs d)) w.

Definition set_runs (f : list RunRow -> list RunRow) (w : World) : World :=
  set_db (fun d => mkDB (db_posts d) (db_links d) (db_crawl_queue d) (f (db_runs d))) w.

(** [INSERT OR IGNORE INTO crawl_queue]. *)
Definition queue_add (E : Env) (key url : string) (depth is_hub max_comment_depth : Z)
  : M World unit :=
  added_at <- ask (now_utc_iso E) ;;
  updated_at <- ask (now_utc_iso E) ;;
  modify (set_queue (insert_queue_row
    (mkQueueRow key url depth queued None is_hub max_comment_depth
                added_at updated_at))).

Definition mark_row (key : string) (status : Status) (err : option string)
    (now : string) (r : QueueRow) : QueueRow :=
  if String.eqb (q_key r) key then
    mkQueueRow (q_key r) (q_url r) (q_depth r) status err (q_is_hub r)
               (q_max_comment_depth r) (q_added_at_utc r) now
  else r.

(** [UPDATE crawl_queue SET status=?, last_error=?, updated_at_utc=? WHERE key=?]. *)
Definition queue_mark (E : Env) (key : string) (status : Status) (err : option string)
  : M World unit :=
  now <- ask (now_utc_iso E) ;;
  modify (set_queue (map (mark_row key status err now))).

(** The columns [queue_pop_batch] selects. *)
Record QItem : Type := mkQItem {
  i_key : string;
  i_url : string;
  i_depth : Z;
  i_is_hub : Z;
  i_max_comment_depth : Z
}.

Definition item_of_row (r : QueueRow) : QItem :=
  mkQItem (q_key r) (q_url r) (q_depth r) (q_is_hub r) (q_max_comment_depth r).

(** [ORDER BY added_at_utc ASC]: a stable insertion sort on the text of
    the timestamp (rows added at the same instant stay in rowid order,
    which SQLite leaves unspecified). *)
Fixpoint insert_by_added (r : QueueRow) (l : list QueueRow) : list QueueRow :=
  match l with
  | [] => [r]
  | x :: l' =>
      if String.leb (q_added_at_utc r) (q_added_at_utc x) then r :: l
      else x :: insert_by_added r l'
  end.

Definition order_by_added (l : list QueueRow) : list QueueRow :=
  fold_right insert_by_added [] l.

Definition is_queued (r : QueueRow) : bool := status_eqb (q_status r) queued.

Definition pop_rows (batch_size : nat) (q : list QueueRow) : list QueueRow :=
  firstn batch_size (order_by_added (filter is_queued q)).

Definition queue_pop_batch (batch_size : nat) : M World (list QItem) :=
  fun w => (Ok (map item_of_row (pop_rows batch_size (db_crawl_queue (db w)))), w).

Definition requeue_hub (now : string) (r : QueueRow) : QueueRow :=
  if (q_is_hub r =? 1)%Z then
    mkQueueRow (q_key r) (q_url r) (q_depth r) queued (q_last_error r) (q_is_hub r)
               (q_max_comment_depth r) (q_added_at_utc r) now
  else r.

(** [UPDATE crawl_queue SET status='queued', updated_at_utc=? WHERE is_hub=1]. *)
Definition queue_reset_hubs (E : Env) : M World unit :=
  now <- ask (now_utc_iso E) ;;
  modify (set_queue (map (requeue_hub now))).

(** [INSERT INTO runs]: a plain insert, which raises on a run id that is
    taken.  The columns not named get their defaults. *)
Definition begin_run (E : Env) (notes : string) : M World string :=
  run_id <- ask (uuid4 E) ;;
  started_at <- ask (now_utc_iso E) ;;
  fun w =>
    if has_run run_id (db_runs (db w)) then
      (Raise "UNIQUE constraint failed: runs.run_id", w)
    else
      (Ok run_id,
       set_runs (fun rs => rs ++ [mkRunRow run_id started_at None (Some notes) 0 0 0 0]) w).

Definition stats_row (run_id : string) (posts_inserted hubs_queued queue_done errors : Z)
    (r : RunRow) : RunRow :=
  if String.eqb (r_run_id r) run_id then
    mkRunRow (r_run_id r) (r_started_at_utc r) (r_ended_at_utc r) (r_notes r)
             posts_inserted hubs_queued queue_done errors
  else r.

Definition update_run_stats (run_id : string)
    (posts_inserted hubs_queued queue_done errors : Z) : M World unit :=
  modify (set_runs (map (stats_row run_id posts_inserted hubs_queued queue_done errors))).

Definition end_row (run_id : string) (now : string) (r : RunRow) : RunRow :=
  if String.eqb (r_run_id r) run_id then
    mkRunRow (r_run_id r) (r_started_at_utc r) (Some now) (r_notes r)
             (r_posts_inserted r) (r_hubs_queued r) (r_queue_done r) (r_errors r)
  else r.

Definition end_run (E : Env) (run_id : string) : M World unit :=
  now <- ask (now_utc_iso E) ;;
  modify (set_runs (map (end_row run_id now))).

(** [deadline_reached]: the clock is read only when a deadline is set. *)
Definition deadline_reached (E : Env) (deadline_ts : option Z) : M World bool :=
  match deadline_ts with
  | None => ret false
  | Some d => now <- ask (time_time E) ;; ret (d <=? now)%Z
  end.

(* ================================================================== *)
(** ** Link discovery *)
(* ================================================================== *)

Definition or_empty (s : option string) : string :=
  match s with Some t => t | None => EmptyString end.

(** The platform links of a comment body, normalised. *)
Definition reddit_links_in (E : Env) (body : string) : list string :=
  map normalize_reddit_url
      (filter (is_reddit_submission_url (urlparse E)) (extract_urls body)).

Definition comment_links (E : Env) (reply_depth : Z) (max_replies_per_top : nat)
    (top : Comment) : list string :=
  reddit_links_in E (c_body top) ++
  (if (1 <=? reply_depth)%Z then
     match c_replies top with
     | Got replies => flat_map (reddit_links_in E) (firstn max_replies_per_top replies)
     | Failed _ => []
     end
   else []).

Definition extract_reddit_links_from_best_comments (E : Env) (submission : Submission)
    (top_n : nat) (reply_depth : Z) (max_replies_per_top : nat)
  : M World (list string) :=
  comments <- of_fetched (s_comments submission) ;;
  let top_level := firstn top_n comments in
  ret (sorted_set (flat_map (comment_links E reply_depth max_replies_per_top) top_level)).

(** The key of a frontier item: the submission id when the URL shows
    one, else the URL itself. *)
Definition queue_key (nu : string) : string :=
  match submission_id_from_url nu with
  | Some sid => sid
  | None => nu
  end.

(** The loop [for u in urls] of [store_submission_and_discover]. *)
Fixpoint discover_links (E : Env) (post_id : string) (depth : Z) (urls : list string)
  : M World unit :=
  match urls with
  | [] => ret tt
  | u :: rest =>
      upsert_link E post_id u ;;
      (if (depth <? MAX_CRAWL_DEPTH)%Z && is_reddit_submission_url (urlparse E) u then
         let nu := normalize_reddit_url u in
         queue_add E (queue_key nu) nu (depth + 1) 0 0
       else ret tt) ;;
      discover_links E post_id depth rest
  end.

Definition submission_urls (submission : Submission) : list string :=
  sorted_set (extract_urls (or_empty (s_title submission))
              ++ extract_urls (or_empty (s_selftext submission))
              ++ extract_urls (or_empty (s_url submission))).

Definition store_submission_and_discover (E : Env) (submission : Submission) (depth : Z)
  : M World bool :=
  let post_id := s_id submission in
  let created_utc := s_created_utc submission in
  let permalink := ("https://www.reddit.com" ++ s_permalink submission)%string in
  retrieved_at <- ask (now_utc_iso E) ;;
  let row := mkPostRow post_id (s_subreddit submission) created_utc
               (ts_to_iso E created_utc) (s_title submission) (s_selftext submission)
               (s_score submission) (s_num_comments submission) permalink
               (s_url submission) (s_link_flair_text submission)
               (s_author submission) retrieved_at in
  inserted <- insert_post row ;;
  discover_links E post_id depth (submission_urls submission) ;;
  ret inserted.

(* ================================================================== *)
(** ** The three phases *)
(* ================================================================== *)

Definition dq : string := String "034"%char EmptyString.
Definition quoted (s : string) : string := (dq ++ s ++ dq)%string.

(** The book emoji of the flair names, as its four UTF-8 bytes. *)
Definition books : string :=
  String "240"%char (String "159"%char (String "147"%char (String "154"%char EmptyString))).

Definition SUBREDDIT : string := "Superstonk".

Definition DD_FLAIRS : list string :=
  [(books ++ " Due Diligence")%string; (books ++ " Possible DD")%string].

Definition HUB_QUERIES : list string :=
  [ ("(" ++ quoted "DD" ++ " AND (" ++ quoted "library" ++ " OR "
     ++ quoted "compilation" ++ " OR " ++ quoted "directory" ++ " OR "
     ++ quoted "index" ++ "))")%string;
    quoted "A Comprehensive Compilation of All Due Diligence";
    (quoted "Daily Directory" ++ " (" ++ quoted "DD Library" ++ " OR "
     ++ quoted "Library of Due Diligence" ++ ")")%string;
    (quoted "Due Diligence" ++ " " ++ quoted "LIBRARY")%string;
    quoted "library of DD";
    quoted "gme.fyi";
    (quoted "fliphtml5" ++ " " ++ quoted "bookcase")%string ].

(** How a [for] loop over a listing was left. *)
Inductive loop_exit : Type :=
| Exhausted   (* the listing ended *)
| Broke       (* [break] *)
| Returned.   (* [return] from the enclosing function *)

(** The progress line every HEARTBEAT_EVERY_SECONDS: only its clock
    readings are modelled. *)
Definition heartbeat (E : Env) (heartbeat_at : Z) : M World Z :=
  now <- ask (time_time E) ;;
  if (HEARTBEAT_EVERY_SECONDS <=? now - heartbeat_at)%Z
  then ask (time_time E)
  else ret heartbeat_at.

Record FlairLocals : Type := mkFlairLocals {
  inserted_count : Z;
  seen : Z;
  heartbeat_at : Z;
  dup_streak : Z
}.

(** The loop [for submission in sub.search(query, sort="new", ...)]. *)
Fixpoint flair_scan (E : Env) (deadline_ts : option Z) (results : listing)
    (st : FlairLocals) : M World (loop_exit * FlairLocals) :=
  match results with
  | LNil => ret (Exhausted, st)
  | LFail msg => raise msg
  | LCons submission rest =>
      late <- deadline_reached E deadline_ts ;;
      if late then ret (Returned, st)
      else
        let seen' := (seen st + 1)%Z in
        inserted <- store_submission_and_discover E submission 0 ;;
        let inserted_count' :=
          if inserted then (inserted_count st + 1)%Z else inserted_count st in
        let dup_streak' :=
          if inserted then 0%Z else (dup_streak st + 1)%Z in
        heartbeat_at' <- heartbeat E (heartbeat_at st) ;;
        let st' := mkFlairLocals inserted_count' seen' heartbeat_at' dup_streak' in
        if (STOP_DUP_STREAK <=? dup_streak')%Z then ret (Broke, st')
        else flair_scan E deadline_ts rest st'
  end.

(** The loop [for flair in DD_FLAIRS]. *)
Fixpoint flair_labels (E : Env) (deadline_ts : option Z) (flairs : list string)
    (st : FlairLocals) : M World Z :=
  match flairs with
  | [] => ret (inserted_count st)
  | flair :: more =>
      late <- deadline_reached E deadline_ts ;;
      if late then ret (inserted_count st)
      else
        let query := ("flair:" ++ quoted flair)%string in
        results <- ask (fun t => search E t query "new") ;;
        r <- flair_scan E deadline_ts results
               (mkFlairLocals (inserted_count st) (seen st) (heartbeat_at st) 0) ;;
        match fst r with
        | Returned => ret (inserted_count (snd r))
        | _ => flair_labels E deadline_ts more (snd r)
        end
  end.

Definition ingest_dd_flair_posts (E : Env) (deadline_ts : option Z) : M World Z :=
  started <- ask (time_time E) ;;
  flair_labels E deadline_ts DD_FLAIRS (mkFlairLocals 0 0 started 0).

(** The loop [for submission in sub.search(q, sort="relevance", limit=200)]. *)
Fixpoint hub_scan (E : Env) (deadline_ts : option Z) (results : listing) (added : Z)
  : M World (loop_exit * Z) :=
  match results with
  | LNil => ret (Exhausted, added)
  | LFail msg => raise msg
  | LCons submission rest =>
      late <- deadline_reached E deadline_ts ;;
      if late then ret (Returned, added)
      else
        let permalink := ("https://www.reddit.com" ++ s_permalink submission)%string in
        queue_add E (s_id submission) permalink 0 1 HUB_REPLY_DEPTH ;;
        hub_scan E deadline_ts rest (added + 1)%Z
  end.

(** The loop [for q in HUB_QUERIES]. *)
Fixpoint hub_queries (E : Env) (deadline_ts : option Z) (queries : list string)
    (added : Z) : M World Z :=
  match queries with
  | [] => ret added
  | q :: more =>
      late <- deadline_reached E deadline_ts ;;
      if late then ret added
      else
        results <- ask (fun t => listing_limit 200 (search E t q "relevance")) ;;
        r <- hub_scan E deadline_ts results added ;;
        match fst r with
        | Returned => ret (snd r)
        | _ => hub_queries E deadline_ts more (snd r)
        end
  end.

Definition discover_hub_posts (E : Env) (deadline_ts : option Z) : M World Z :=
  hub_queries E deadline_ts HUB_QUERIES 0.

(** The loop [for nu in best_links] of the hub branch. *)
Fixpoint enqueue_best_links (E : Env) (depth : Z) (best_links : list string)
  : M World unit :=
  match best_links with
  | [] => ret tt
  | nu :: rest =>
      queue_add E (queue_key nu) nu (depth + 1) 0 0 ;;
      enqueue_best_links E depth rest
  end.

(** The id the item is fetched by. *)
Definition item_sid (it : QItem) : option string :=
  match submission_id_from_url (i_url it) with
  | Some sid => Some sid
  | None => if fullmatch_id (i_key it) then Some (i_key it) else None
  end.

(** The statements under [try] for one item of the batch, up to
    [queue_mark(con, key, "done")]. *)
Definition crawl_item_try (E : Env) (it : QItem) : M World unit :=
  submission <- bind (ask (fun t => reddit_submission E t (item_sid it) (i_url it)))
                     of_fetched ;;
  store_submission_and_discover E submission (i_depth it) ;;
  (if (i_is_hub it =? 1)%Z && (i_depth it <=? MAX_CRAWL_DEPTH)%Z then
     best_links <- extract_reddit_links_from_best_comments E submission
                     HUB_TOP_LEVEL_COMMENTS (i_max_comment_depth it)
                     HUB_MAX_REPLIES_PER_TOP ;;
     enqueue_best_links E (i_depth it) best_links
   else ret tt) ;;
  queue_mark E (i_key it) done None.

Record CrawlLocals : Type := mkCrawlLocals {
  cl_done : Z;
  cl_errors : Z;
  cl_heartbeat_at : Z
}.

(** One item: the [try]/[except] of the batch loop with its counters. *)
Definition crawl_item (E : Env) (it : QItem) (st : CrawlLocals) : M World CrawlLocals :=
  try_except
    (crawl_item_try E it ;;
     ret (mkCrawlLocals (cl_done st + 1) (cl_errors st) (cl_heartbeat_at st)))
    (fun msg =>
       queue_mark E (i_key it) error (Some (take 500 msg)) ;;
       ret (mkCrawlLocals (cl_done st) (cl_errors st + 1) (cl_heartbeat_at st))).

(** The loop [for key, url, depth, is_hub, max_comment_depth in batch]. *)
Fixpoint crawl_batch (E : Env) (deadline_ts : option Z) (batch : list QItem)
    (st : CrawlLocals) : M World (loop_exit * CrawlLocals) :=
  match batch with
  | [] => ret (Exhausted, st)
  | it :: rest =>
      late <- deadline_reached E deadline_ts ;;
      if late then ret (Returned, st)
      else
        st1 <- crawl_item E it st ;;
        hb <- heartbeat E (cl_heartbeat_at st1) ;;
        crawl_batch E deadline_ts rest (mkCrawlLocals (cl_done st1) (cl_errors st1) hb)
  end.

(** The loop [while True] of [crawl_queue]; [fuel] bounds the number of
    batches the model follows. *)
Fixpoint crawl_loop (fuel : nat) (E : Env) (deadline_ts : option Z) (st : CrawlLocals)
  : M World (Z * Z) :=
  match fuel with
  | O => out_of_fuel
  | S fuel' =>
      late <- deadline_reached E deadline_ts ;;
      if late then ret (cl_done st, cl_errors st)
      else
        batch <- queue_pop_batch MAX_QUEUE_BATCH ;;
        match batch with
        | [] => ret (cl_done st, cl_errors st)
        | _ =>
            r <- crawl_batch E deadline_ts batch st ;;
            match fst r with
            | Returned => ret (cl_done (snd r), cl_errors (snd r))
            | _ => crawl_loop fuel' E deadline_ts (snd r)
            end
        end
  end.

Definition crawl_queue (fuel : nat) (E : Env) (deadline_ts : option Z) : M World (Z * Z) :=
  started <- ask (time_time E) ;;
  crawl_loop fuel E deadline_ts (mkCrawlLocals 0 0 started).

(* ================================================================== *)
(** ** main *)
(* ================================================================== *)

Record Args : Type := mkArgs {
  verbose : bool;
  sleep : Z;
  recrawl_hubs : bool;
  max_minutes : option Z
}.

(** The counters [main] holds in local variables. *)
Record Counters : Type := mkCounters {
  posts_inserted : Z;
  hubs_queued : Z;
  queue_done : Z;
  errors : Z
}.

Definition Frame : Type := (Counters * World)%type.

Definition locals : M Frame Counters := fun f => (Ok (fst f), f).

Definition assign (g : Counters -> Counters) : M Frame unit :=
  fun f => (Ok tt, (g (fst f), snd f)).

Definition flush_stats (run_id : string) : M Frame unit :=
  c <- locals ;;
  lift (update_run_stats run_id (posts_inserted c) (hubs_queued c)
                         (queue_done c) (errors c)).

(** The statements under [try] in [main]. *)
Definition main_try (fuel : nat) (E : Env) (args : Args) (deadline_ts : option Z)
    (run_id : string) : M Frame Z :=
  (if recrawl_hubs args then lift (queue_reset_hubs E) else ret tt) ;;
  n <- lift (ingest_dd_flair_posts E deadline_ts) ;;
  assign (fun c => mkCounters n (hubs_queued c) (queue_done c) (errors c)) ;;
  flush_stats run_id ;;
  late <- lift (deadline_reached E deadline_ts) ;;
  (if negb late then
     h <- lift (discover_hub_posts E deadline_ts) ;;
     assign (fun c => mkCounters (posts_inserted c) h (queue_done c) (errors c)) ;;
     flush_stats run_id
   else ret tt) ;;
  late <- lift (deadline_reached E deadline_ts) ;;
  (if negb late then
     r <- lift (crawl_queue fuel E deadline_ts) ;;
     assign (fun c => mkCounters (posts_inserted c) (hubs_queued c) (fst r) (errors c)) ;;
     assign (fun c => mkCounters (posts_inserted c) (hubs_queued c) (queue_done c)
                                 (errors c + snd r)) ;;
     flush_stats run_id
   else ret tt) ;;
  lift (end_run E run_id) ;;
  ret 0%Z.

(** The [except Exception] branch of [main]. *)
Definition main_except (E : Env) (run_id : string) (msg : string) : M Frame Z :=
  c <- locals ;;
  lift (update_run_stats run_id (posts_inserted c) (hubs_queued c)
                         (queue_done c) (errors c + 1)) ;;
  lift (end_run E run_id) ;;
  ret 1%Z.

(** [main], from the parsed arguments on.  The result is the exit status
    given to [SystemExit]. *)
Definition main (fuel : nat) (E : Env) (args : Args) : M World Z :=
  deadline_ts <-
    match max_minutes args with
    | None => ret None
    | Some m => now <- ask (time_time E) ;; ret (Some (now + m * 60)%Z)
    end ;;
  run_id <- begin_run E "DD Library Autopilot (BEST hub comments, time budget)" ;;
  fun w =>
    match try_except (main_try fuel E args deadline_ts run_id)
                     (main_except E run_id) (mkCounters 0 0 0 0, w) with
    | (r, (_, w')) => (r, w')
    end.

(* ================================================================== *)
(** ** Predicates used in the statements *)
(* ================================================================== *)

(** The string is empty or begins with a character that is no space. *)
Definition head_ok (s : string) : bool :=
  match s with
  | EmptyString => true
  | String c _ => negb (is_space c)
  end.

(** The string is empty or ends with a character that is no space. *)
Fixpoint ends_ok (s : string) : bool :=
  match s with
  | EmptyString => true
  | String c t =>
      match t with
      | EmptyString => negb (is_space c)
      | _ => ends_ok t
      end
  end.

(** The character [a] does not occur in [p]. *)
Fixpoint avoids (a : ascii) (p : string) : bool :=
  match p with
  | EmptyString => true
  | String c t => negb (Ascii.eqb c a) && avoids a t
  end.

(** A URI scheme at the start of [s]: a letter, then letters, digits,
    [+], [-] or [.], then a colon. *)
Definition is_alpha (c : ascii) : bool :=
  let n := nat_of_ascii c in
  ((65 <=? n) && (n <=? 90) || (97 <=? n) && (n <=? 122))%nat.

Definition scheme_char (c : ascii) : bool :=
  is_alnum_ci c || Ascii.eqb c "+" || Ascii.eqb c "-" || Ascii.eqb c ".".

Fixpoint scheme_tail (s : string) : bool :=
  match s with
  | EmptyString => false
  | String c t => Ascii.eqb c ":" || (scheme_char c && scheme_tail t)
  end.

Definition has_scheme (s : string) : bool :=
  match s with
  | EmptyString => false
  | String c t => is_alpha c && scheme_tail t
  end.

(** The two hosts of the replacement in [normalize_reddit_url]. *)
Definition OLD_HOST : string := "old.reddit.com".
Definition NEW_HOST : string := "www.reddit.com".

(** The three rewriting steps of [normalize_reddit_url], in order. *)
Definition upgrade_scheme (u : string) : string :=
  if startswith "http://" u then "https://" ++ drop (String.length "http://") u else u.

Definition rewrite_host (u : string) : string :=
  if contains "old.reddit.com" u then replace "old.reddit.com" "www.reddit.com" u else u.

Definition ensure_scheme (u : string) : string :=
  if contains "reddit.com" u && negb (startswith "https://" u) then "https://" ++ u else u.


(* ================================================================== *)
(** ** Readings of the world, invariants and measures *)
(* ================================================================== *)

Definition queue_of (w : World) : list QueueRow := db_crawl_queue (db w).
Definition posts_of (w : World) : list PostRow := db_posts (db w).
Definition runs_of (w : World) : list RunRow := db_runs (db w).

(** The rows of a table under one primary key. *)
Definition rows_with_key (key : string) (q : list QueueRow) : list QueueRow :=
  filter (fun r => String.eqb (q_key r) key) q.

Definition posts_with_id (id : string) (ps : list PostRow) : list PostRow :=
  filter (fun r => String.eqb (p_id r) id) ps.

Definition row_of (key : string) (q : list QueueRow) : option QueueRow :=
  find (fun r => String.eqb (q_key r) key) q.

Definition status_of (key : string) (q : list QueueRow) : option Status :=
  option_map q_status (row_of key q).


Definition run_counters (r : RunRow) : Counters :=
  mkCounters (r_posts_inserted r) (r_hubs_queued r) (r_queue_done r) (r_errors r).

(** No string occurs twice: the PRIMARY KEY constraint on a column. *)
Fixpoint distinct (l : list string) : bool :=
  match l with
  | [] => true
  | x :: l' => negb (existsb (String.eqb x) l') && distinct l'
  end.

Definition keys_unique (q : list QueueRow) : bool := distinct (map q_key q).
Definition ids_unique (ps : list PostRow) : bool := distinct (map p_id ps).

(** The depth of a row is within the bound, and a hub row is at depth 0. *)
Definition row_ok (r : QueueRow) : bool :=
  (0 <=? q_depth r)%Z && (q_depth r <=? MAX_CRAWL_DEPTH)%Z
  && implb (q_is_hub r =? 1)%Z (q_depth r =? 0)%Z.

Definition queue_ok (q : list QueueRow) : bool := forallb row_ok q.

Definition item_ok (it : QItem) : bool :=
  (0 <=? i_depth it)%Z && (i_depth it <=? MAX_CRAWL_DEPTH)%Z
  && implb (i_is_hub it =? 1)%Z (i_depth it =? 0)%Z.

(** The two invariants of [crawl_queue]: every depth within the bound
    with hubs at depth 0, and one row per key. *)
Definition queue_inv (q : list QueueRow) : Prop :=
  queue_ok q = true /\ keys_unique q = true.

(** [q'] is [q] followed by rows that [queue_add] put in at depth [d],
    none of them a hub, each under a key that was not there. *)
Inductive enqueued (d : Z) : list QueueRow -> list QueueRow -> Prop :=
| enqueued_none (q : list QueueRow) : enqueued d q q
| enqueued_more (q q' : list QueueRow) (r : QueueRow) :
    enqueued d q q' ->
    has_key (q_key r) q' = false ->
    q_depth r = d -> q_is_hub r = 0%Z -> q_status r = queued ->
    enqueued d q (q' ++ [r]).

(** The states of the store the pipeline can reach from a new database,
    one unit of work at a time: a result of the flair scan stored at
    depth 0, a hub seeded by hub discovery, an item of the queue crawled,
    the hubs re-queued; what leaves [crawl_queue] as it is (the clock,
    the run records) may change freely. *)
Inductive reachable (E : Env) : World -> Prop :=
| reach_new (t : nat) : reachable E (mkWorld empty_db t)
| reach_store (s : Submission) (w : World) :
    reachable E w ->
    reachable E (snd (store_submission_and_discover E s 0 w))
| reach_seed (s : Submission) (w : World) :
    reachable E w ->
    reachable E (snd (queue_add E (s_id s)
                        ("https://www.reddit.com" ++ s_permalink s)%string
                        0 1 HUB_REPLY_DEPTH w))
| reach_crawl (it : QItem) (st : CrawlLocals) (w : World) :
    reachable E w ->
    In it (map item_of_row (queue_of w)) ->
    reachable E (snd (crawl_item E it st w))
| reach_requeue (w : World) :
    reachable E w ->
    reachable E (snd (queue_reset_hubs E w))
| reach_frame (w w' : World) :
    reachable E w ->
    queue_of w' = queue_of w ->
    reachable E w'.

(** The listing that yields [items] and then goes on as [rest]. *)
Fixpoint listing_app (items : list Submission) (rest : listing) : listing :=
  match items with
  | [] => rest
  | s :: more => LCons s (listing_app more rest)
  end.

(** How far a queued row is from the end of its expansion: a hub is
    expanded into rows of depth 1, a row of depth [d] into rows of depth
    [d + 1], a row at the bound into none. *)
Definition level (r : QueueRow) : nat :=
  if (q_is_hub r =? 1)%Z then 4%nat else Z.to_nat (MAX_CRAWL_DEPTH - q_depth r).

Definition queued_at (n : nat) (q : list QueueRow) : nat :=
  List.length (filter (fun r => is_queued r && (level r =? n)%nat) q).

(** The queued rows counted by level, the highest level first. *)
Definition measure (q : list QueueRow) : nat * (nat * (nat * (nat * nat))) :=
  (queued_at 4 q, (queued_at 3 q, (queued_at 2 q, (queued_at 1 q, queued_at 0 q)))).

Definition lex2 : nat * nat -> nat * nat -> Prop := slexprod nat nat lt lt.
Definition lex3 : nat * (nat * nat) -> nat * (nat * nat) -> Prop :=
  slexprod nat (nat * nat) lt lex2.
Definition lex4 : nat * (nat * (nat * nat)) -> nat * (nat * (nat * nat)) -> Prop :=
  slexprod nat (nat * (nat * nat)) lt lex3.
Definition lex5 : nat * (nat * (nat * (nat * nat))) ->
                  nat * (nat * (nat * (nat * nat))) -> Prop :=
  slexprod nat (nat * (nat * (nat * nat))) lt lex4.

(** A computation that never exhausts a loop budget. *)
Definition finishes {S A : Type} (m : M S A) : Prop :=
  forall s, fst (m s) <> OutOfFuel.

(** Relations between the world before and after a computation. *)
Definition same_queue (w w' : World) : Prop := queue_of w' = queue_of w.
Definition same_posts (w w' : World) : Prop := posts_of w' = posts_of w.
Definition grows (d : Z) (w w' : World) : Prop :=
  enqueued d (queue_of w) (queue_of w').

(** The statements under [try] for one item before it is marked [done]:
    the fetch, the storage with its link discovery, the hub branch. *)
Definition crawl_item_work (E : Env) (it : QItem) : M World unit :=
  submission <- bind (ask (fun t => reddit_submission E t (item_sid it) (i_url it)))
                     of_fetched ;;
  store_submission_and_discover E submission (i_depth it) ;;
  (if (i_is_hub it =? 1)%Z && (i_depth it <=? MAX_CRAWL_DEPTH)%Z then
     best_links <- extract_reddit_links_from_best_comments E submission
                     HUB_TOP_LEVEL_COMMENTS (i_max_comment_depth it)
                     HUB_MAX_REPLIES_PER_TOP ;;
     enqueue_best_links E (i_depth it) best_links
   else ret tt).

(** Whether the code lets a source item of these columns enqueue: link
    discovery below the bound, or the hub branch up to the bound. *)
Definition may_enqueue (it : QItem) : bool :=
  (i_depth it <? MAX_CRAWL_DEPTH)%Z
  || (i_is_hub it =? 1)%Z && (i_depth it <=? MAX_CRAWL_DEPTH)%Z.

(** The items of a batch that the queue shows in a given status. *)
Definition has_status (s : Status) (q : list QueueRow) (it : QItem) : bool :=
  match status_of (i_key it) q with
  | Some s' => status_eqb s' s
  | None => false
  end.

Definition count_status (s : Status) (q : list QueueRow) (batch : list QItem) : Z :=
  Z.of_nat (List.length (filter (has_status s q) batch)).

Definition last_error_of (key : string) (q : list QueueRow) : option string :=
  match row_of key q with
  | Some r => q_last_error r
  | None => None
  end.

(** The comment forest of the submission can be read. *)
Definition comments_ok (s : Submission) : bool :=
  match s_comments s with
  | Got _ => true
  | Failed _ => false
  end.

(** A property of the world that every unit of work of the pipeline
    keeps: a reading of the clock, a result of the flair scan stored at
    depth 0, a hub seeded, an item of the queue crawled, the hubs
    re-queued. *)
Definition unit_stable (E : Env) (P : World -> Prop) : Prop :=
  (forall w t, P w -> P (mkWorld (db w) t))
  /\ (forall s w, P w -> P (snd (store_submission_and_discover E s 0 w)))
  /\ (forall s w, P w ->
        P (snd (queue_add E (s_id s)
                  ("https://www.reddit.com" ++ s_permalink s)%string
                  0 1 HUB_REPLY_DEPTH w)))
  /\ (forall it st w, P w -> In it (map item_of_row (queue_of w)) ->
        P (snd (crawl_item E it st w)))
  /\ (forall w, P w -> P (snd (queue_reset_hubs E w))).

(** The result of a computation keeps [P] and is no exhausted budget. *)
Definition keeps {A : Type} (P : World -> Prop) (x : outcome A * World) : Prop :=
  P (snd x) /\ fst x <> OutOfFuel.

(** The result of the loop over a batch: [P] is kept and the loop ended,
    by going through the batch or by [return]. *)
Definition batch_ends (P : World -> Prop)
    (x : outcome (loop_exit * CrawlLocals) * World) : Prop :=
  P (snd x) /\ exists ex st', fst x = Ok (ex, st') /\ ex <> Broke.

(** The order in which the measure of the queue goes down from batch
    to batch. *)
Definition smaller : nat * (nat * (nat * (nat * nat))) ->
                     nat * (nat * (nat * (nat * nat))) -> Prop :=
  clos_trans _ lex5.

(** The item is a queued row of the queue. *)
Definition queued_item (q : list QueueRow) (it : QItem) : Prop :=
  exists r, row_of (i_key it) q = Some r /\ is_queued r = true /\ item_of_row r = it.


(** Total correctness of a computation that may depend on a loop
    budget: from a state in [Pre] there is a budget from which on the
    result is one and the same, an answer in [Post] or an exception in
    a state in [Exc]. *)
Definition total {S A : Type} (Pre : S -> Prop) (m : nat -> M S A)
    (Post : A -> S -> Prop) (Exc : S -> Prop) : Prop :=
  forall s, Pre s ->
    exists fuel0 r s',
      (forall fuel, (fuel0 <= fuel)%nat -> m fuel s = (r, s'))
      /\ match r with
         | Ok a => Post a s'
         | Raise _ => Exc s'
         | OutOfFuel => False
         end.

(** How [main] starts: the deadline, the tick at which the run id is
    drawn, the run id, and the world once [begin_run] has inserted the
    row of the run. *)
Definition main_deadline (E : Env) (args : Args) (w : World) : option Z :=
  match max_minutes args with
  | None => None
  | Some m => Some (time_time E (tick w) + m * 60)%Z
  end.

Definition main_run_tick (args : Args) (w : World) : nat :=
  match max_minutes args with
  | None => tick w
  | Some _ => S (tick w)
  end.

Definition main_run_id (E : Env) (args : Args) (w : World) : string :=
  uuid4 E (main_run_tick args w).

Definition main_begun (E : Env) (args : Args) (w : World) : World :=
  mkWorld
    (mkDB (posts_of w) (db_links (db w)) (queue_of w)
       (runs_of w ++
        [mkRunRow (main_run_id E args w)
           (now_utc_iso E (S (main_run_tick args w))) None
           (Some "DD Library Autopilot (BEST hub comments, time budget)") 0 0 0 0]))
    (S (S (main_run_tick args w))).




(** A computation of [main] keeps [P] on the world under its frame. *)
Definition frame_keeps (P : World -> Prop) {A : Type} (m : M Frame A) : Prop :=
  forall f, P (snd f) -> P (snd (snd (m f))).

(* ================================================================== *)
(** ** A sample environment *)
(* ================================================================== *)

(** The example worlds below run against this environment: a clock that
    advances by one second per reading, a parser for plain
    [scheme://host/path] URLs, and a small remote forum. *)

Definition digit (n : nat) : ascii := ascii_of_nat (48 + Nat.modulo n 10).

(** Six decimal digits, so that the text orders as the number does. *)
Definition stamp (n : nat) : string :=
  let n1 := Nat.div n 10 in
  let n2 := Nat.div n1 10 in
  let n3 := Nat.div n2 10 in
  let n4 := Nat.div n3 10 in
  let n5 := Nat.div n4 10 in
  String (digit n5) (String (digit n4) (String (digit n3) (String (digit n2)
    (String (digit n1) (String (digit n) EmptyString))))).

(** The part of [s] after the first occurrence of [marker]. *)
Fixpoint after (marker s : string) : option string :=
  if startswith marker s then Some (drop (String.length marker) s)
  else match s with
       | EmptyString => None
       | String _ t => after marker t
       end.

Definition host_char (c : ascii) : bool :=
  negb (Ascii.eqb c "/" || Ascii.eqb c "?" || Ascii.eqb c "#").

Definition path_char (c : ascii) : bool :=
  negb (Ascii.eqb c "?" || Ascii.eqb c "#" || Ascii.eqb c ";").

(** A stand-in for [urlparse] on plain URLs; it rejects a bracket in
    the host, as the IPv6 check of the real parser may. *)
Definition sample_urlparse (u : string) : option ParseResult :=
  match after "://" u with
  | Some rest =>
      let host := take_while host_char (String.length rest) rest in
      let tail := drop (String.length host) rest in
      if contains "[" host then None
      else Some (mkParseResult host (take_while path_char (String.length tail) tail))
  | None => Some (mkParseResult EmptyString (take_while path_char (String.length u) u))
  end.

Definition sample_submission (id : string) (body : string)
    (comments : fetched (list Comment)) : Submission :=
  mkSubmission id "Superstonk" 1700000000 (Some ("Post " ++ id)%string) (Some body)
    10 2 ("/r/Superstonk/comments/" ++ id ++ "/post/")%string None
    (Some "Due Diligence") (Some "author") comments.

Definition flair_post : Submission :=
  sample_submission "fla01"
    "See https://www.reddit.com/r/Superstonk/comments/lnk01/one and (http://old.reddit.com/r/Superstonk/comments/lnk02/two)."
    (Got []).

Definition hub_post : Submission :=
  sample_submission "hub01" "The library of DD."
    (Got [mkComment "Start at https://www.reddit.com/r/Superstonk/comments/cmt01/a"
            (Got ["then https://www.reddit.com/r/Superstonk/comments/cmt02/b !"]);
          mkComment "nothing here" (Failed "replies unavailable")]).

Definition plain_post (id : string) : Submission :=
  sample_submission id "No links." (Got []).

Definition sample_fetch (sid : option string) (url : string) : fetched Submission :=
  match sid with
  | Some id =>
      if String.eqb id "hub01" then Got hub_post
      else if String.eqb id "lnk02" then Failed "received 404 HTTP response"
      else Got (plain_post id)
  | None => Failed "Invalid URL"
  end.

Definition sampleE : Env :=
  mkEnv sample_urlparse
        (fun t => Z.of_nat t)
        stamp
        (fun _ => "2023-11-14T22:13:20+00:00")
        (fun t => ("run-" ++ stamp t)%string)
        (fun _ _ sort =>
           if String.eqb sort "new" then LCons flair_post LNil
           else LCons hub_post LNil)
        (fun _ => sample_fetch).

Definition sample_args : Args := mkArgs false 1 false None.

Definition new_world : World := mkWorld empty_db 0.

(** The store after one whole run on the sample environment. *)
Definition world_after_run : World := snd (main 10 sampleE sample_args new_world).

(** A queue of three items, the second of which cannot be fetched. *)
Definition row_of_id (id : string) (added : nat) : QueueRow :=
  mkQueueRow id ("https://www.reddit.com/r/Superstonk/comments/" ++ id ++ "/post/")%string
    1 queued None 0 0 (stamp added) (stamp added).

Definition three_rows : list QueueRow :=
  [row_of_id "itm01" 1; row_of_id "lnk02" 2; row_of_id "itm03" 3].

Definition three_world : World :=
  mkWorld (mkDB [] [] three_rows []) 10.

(** A listing of 2500 results, all of one post that is stored already. *)
Definition stored_post : PostRow :=
  mkPostRow "fla01" "Superstonk" 1700000000 "2023-11-14T22:13:20+00:00"
    (Some "Post fla01") (Some "No links.") 10 2
    "https://www.reddit.com/r/Superstonk/comments/fla01/post/" None
    (Some "Due Diligence") (Some "author") (stamp 0).

Definition seen_world : World := mkWorld (mkDB [stored_post] [] [] []) 5.

Definition duplicates : list Submission :=
  repeat (plain_post "fla01") (Z.to_nat STOP_DUP_STREAK).

(** The same forum with a flair search that breaks off after its first
    result: the flair scan raises, and the run ends in the handler. *)
Definition failingE : Env :=
  mkEnv sample_urlparse
        (fun t => Z.of_nat t)
        stamp
        (fun _ => "2023-11-14T22:13:20+00:00")
        (fun t => ("run-" ++ stamp t)%string)
        (fun _ _ sort =>
           if String.eqb sort "new" then LCons flair_post (LFail "received 429 HTTP response")
           else LCons hub_post LNil)
        (fun _ => sample_fetch).

(* ================================================================== *)
(** ** Further predicates: shapes of strings, rows and tables *)
(* ================================================================== *)

(** Every character of [s] satisfies [ok]. *)
Fixpoint all_chars (ok : ascii -> bool) (s : string) : bool :=
  match s with
  | EmptyString => true
  | String c t => ok c && all_chars ok t
  end.

Fixpoint last_char (s : string) : option ascii :=
  match s with
  | EmptyString => None
  | String c t =>
      match t with
      | EmptyString => Some c
      | _ => last_char t
      end
  end.

(** A check of all 256 characters. *)
Definition forall_bool (f : bool -> bool) : bool := f true && f false.

Definition forall_ascii (f : ascii -> bool) : bool :=
  forall_bool (fun b0 => forall_bool (fun b1 => forall_bool (fun b2 =>
  forall_bool (fun b3 => forall_bool (fun b4 => forall_bool (fun b5 =>
  forall_bool (fun b6 => forall_bool (fun b7 =>
    f (Ascii b0 b1 b2 b3 b4 b5 b6 b7))))))))).

(** The text of a URL as [extract_urls] returns it: the scheme first, no
    character that ends a token of URL_RE, no trailing punctuation. *)
Definition url_shaped (u : string) : Prop :=
  (startswith_ci "http://" u = true \/ startswith_ci "https://" u = true)
  /\ all_chars url_char u = true
  /\ (forall c, last_char u = Some c -> trailing_punct c = false).

(** Strictly increasing order of strings, by code points. *)
Definition str_lt (a b : string) : Prop := String.compare a b = Lt.

(** [u] occurs in [text]. *)
Definition occurs_in (u text : string) : Prop :=
  exists pre post, text = (pre ++ u ++ post)%string.

(** The last character of [p] is matched, without regard to case, only by
    characters that [drop_it] keeps. *)
Definition end_kept (drop_it : ascii -> bool) (p : string) : bool :=
  match last_char p with
  | Some a =>
      forall_ascii (fun b =>
        implb (Ascii.eqb (ascii_lower a) (ascii_lower b)) (negb (drop_it b)))
  | None => true
  end.

(** A list of strings in strictly increasing order. *)
Fixpoint increasing (l : list string) : Prop :=
  match l with
  | [] => True
  | x :: l' => (forall y, In y l' -> str_lt x y) /\ increasing l'
  end.

(** The comment bodies [extract_reddit_links_from_best_comments] reads:
    the first [top_n] comments and, from reply depth 1 on, the first
    [max_replies_per_top] replies of each whose replies can be read. *)
Definition bodies_read (top_n : nat) (reply_depth : Z) (max_replies_per_top : nat)
    (comments : list Comment) : list string :=
  flat_map
    (fun top =>
       c_body top ::
       (if (1 <=? reply_depth)%Z then
          match c_replies top with
          | Got replies => firstn max_replies_per_top replies
          | Failed _ => []
          end
        else []))
    (firstn top_n comments).

(** Rows in the order of [ORDER BY added_at_utc ASC]. *)
Fixpoint by_added (l : list QueueRow) : Prop :=
  match l with
  | [] => True
  | x :: l' =>
      (forall y, In y l' ->
         String.leb (q_added_at_utc x) (q_added_at_utc y) = true)
      /\ by_added l'
  end.

(** [w'] has the queue of [w] followed by rows that satisfy [R]. *)
Definition adds (R : QueueRow -> Prop) (w w' : World) : Prop :=
  exists added, queue_of w' = queue_of w ++ added /\ Forall R added.

(** A row as link discovery and the hub branch write it from a source at
    depth [d]: a queued row that is no hub, one level deeper, under the
    key of its URL, the URL normalised. *)
Definition link_row (d : Z) (r : QueueRow) : Prop :=
  q_depth r = (d + 1)%Z /\ q_is_hub r = 0%Z /\ q_max_comment_depth r = 0%Z
  /\ q_status r = queued /\ q_last_error r = None
  /\ q_key r = queue_key (q_url r)
  /\ normalize_reddit_url (q_url r) = q_url r.

(** The two kinds of rows of the queue: a hub as hub discovery seeds it,
    and a link found in a stored submission or in the comments of a hub. *)
Definition row_shape (r : QueueRow) : Prop :=
  (q_is_hub r = 1%Z /\ q_depth r = 0%Z
   /\ q_max_comment_depth r = HUB_REPLY_DEPTH
   /\ startswith "https://www.reddit.com" (q_url r) = true)
  \/ (q_is_hub r = 0%Z /\ (1 <= q_depth r)%Z
      /\ q_max_comment_depth r = 0%Z
      /\ q_key r = queue_key (q_url r)
      /\ normalize_reddit_url (q_url r) = q_url r).

(** Status and error text of a row go together: [done] has no error text,
    [error] has one of at most 500 characters, and a queued row with an
    error text is a hub that was put back. *)
Definition row_state (r : QueueRow) : Prop :=
  match q_status r with
  | queued => q_last_error r = None \/ q_is_hub r = 1%Z
  | done => q_last_error r = None
  | error => q_last_error r <> None
  end
  /\ forall e, q_last_error r = Some e -> (String.length e <= 500)%nat.

(** [w'] has the tables [posts], [links] and [crawl_queue] of [w] with
    rows added at their ends; of the rows of the queue only status, error
    text and update time may differ. *)
Definition extends (w w' : World) : Prop :=
  (exists l, posts_of w' = posts_of w ++ l)
  /\ (exists l, db_links (db w') = db_links (db w) ++ l)
  /\ (exists l, map item_of_row (queue_of w') = map item_of_row (queue_of w) ++ l).

(** The number of submissions a listing yields. *)
Fixpoint listing_size (l : listing) : nat :=
  match l with
  | LCons _ rest => S (listing_size rest)
  | _ => O
  end.

(** A row as hub discovery writes it. *)
Definition hub_row (r : QueueRow) : Prop :=
  q_is_hub r = 1%Z /\ q_depth r = 0%Z /\ q_max_comment_depth r = HUB_REPLY_DEPTH
  /\ q_status r = queued /\ q_last_error r = None
  /\ startswith "https://www.reddit.com" (q_url r) = true.

(** [w'] is [w] with at most [k] hub rows added to the queue. *)
Definition seeds (k : Z) (w w' : World) : Prop :=
  posts_of w' = posts_of w
  /\ db_links (db w') = db_links (db w)
  /\ exists added,
       queue_of w' = queue_of w ++ added
       /\ Forall hub_row added
       /\ (Z.of_nat (List.length added) <= k)%Z.

(** The sample store once hub discovery has run on it, and the item of
    its hub. *)
Definition hub_world : World := snd (discover_hub_posts sampleE None new_world).

Definition hub_item : QItem :=
  mkQItem "hub01" "https://www.reddit.com/r/Superstonk/comments/hub01/post/" 0 1 1.

(** A queue with a row that was crawled before, ahead of three queued
    rows. *)
Definition done_row : QueueRow :=
  mkQueueRow "old01" "https://www.reddit.com/r/Superstonk/comments/old01/post/"
    1 done None 0 0 (stamp 0) (stamp 0).

Definition mixed_world : World :=
  mkWorld (mkDB [] [] (done_row :: three_rows) []) 10.

(** Arguments with a time budget of zero, and re-crawling of hubs. *)
Definition budget_args : Args := mkArgs false 1 true (Some 0%Z).

(* ================================================================== *)
(** ** The counters of a run, phase by phase *)
(* ================================================================== *)

(** How the statements under [try] in [main] end: at their end, by an
    exception, or with the loop budget of the model used up.  [c] holds
    the counters of [main] at that point and [w] is the world then. *)
Inductive report : Type :=
| Completed (c : Counters) (w : World)
| Fatal (msg : string) (c : Counters) (w : World)
| Unfinished (c : Counters) (w : World).

(** One step of a run: what comes after it when it returns, and the
    report with the counters as they stand when it does not. *)
Definition step {A : Type} (c : Counters) (r : outcome A * World)
    (k : A -> World -> report) : report :=
  match r with
  | (Ok a, w) => k a w
  | (Raise msg, w) => Fatal msg c w
  | (OutOfFuel, w) => Unfinished c w
  end.








(* ================================================================== *)
(** ** Strings: prefixes, stripping, replacement *)
(* ================================================================== *)

Lemma startswith_split (p s : string) :
  startswith p s = true -> s = (p ++ drop (String.length p) s)%string.
Proof.
  revert s; induction p as [|a p IH]; intros s H; simpl in *.
  - reflexivity.
  - destruct s as [|b s]; [discriminate|].
    apply andb_prop in H as [Hab Hp].
    apply Ascii.eqb_eq in Hab; subst b.
    simpl. f_equal. now apply IH.
Qed.

Lemma lstrip_head_ok (s : string) : head_ok (lstrip s) = true.
Proof.
  induction s as [|c t IH]; simpl; [reflexivity|].
  destruct (is_space c) eqn:Hc; [exact IH|]. simpl. now rewrite Hc.
Qed.

Lemma lstrip_fixed (s : string) : head_ok s = true -> lstrip s = s.
Proof.
  destruct s as [|c t]; simpl; [reflexivity|].
  intros H. apply negb_true_iff in H. now rewrite H.
Qed.

Lemma rstrip_ends_ok (s : string) : ends_ok (rstrip s) = true.
Proof.
  induction s as [|c t IH]; simpl; [reflexivity|].
  destruct (rstrip t) as [|c' t'] eqn:Ht.
  - destruct (is_space c) eqn:Hc; simpl; [reflexivity|now rewrite Hc].
  - exact IH.
Qed.

Lemma rstrip_fixed (s : string) : ends_ok s = true -> rstrip s = s.
Proof.
  induction s as [|c t IH]; simpl; [reflexivity|].
  destruct t as [|c' t'].
  - intros H. apply negb_true_iff in H. simpl. now rewrite H.
  - intros H. rewrite (IH H). reflexivity.
Qed.

Lemma rstrip_head_ok (s : string) : head_ok s = true -> head_ok (rstrip s) = true.
Proof.
  destruct s as [|c t]; simpl; [reflexivity|].
  intros H. destruct (rstrip t); [|exact H].
  apply negb_true_iff in H. rewrite H. simpl. now rewrite H.
Qed.

Lemma strip_clean (s : string) :
  head_ok (strip s) = true /\ ends_ok (strip s) = true.
Proof.
  unfold strip. split.
  - apply rstrip_head_ok, lstrip_head_ok.
  - apply rstrip_ends_ok.
Qed.

Lemma strip_fixed (s : string) :
  head_ok s = true -> ends_ok s = true -> strip s = s.
Proof.
  intros Hh He. unfold strip. rewrite (lstrip_fixed s Hh). now apply rstrip_fixed.
Qed.

Lemma ends_ok_cons (c : ascii) (t : string) :
  ends_ok (String c t) =
  match t with EmptyString => negb (is_space c) | _ => ends_ok t end.
Proof. reflexivity. Qed.

(** *** [replace] of the legacy host *)

Lemma replace_from_skip (old new : string) (k : nat) (s : string) :
  replace_from k old new s = replace_from 0 old new (drop k s).
Proof.
  revert k; induction s as [|c t IH]; intros k.
  - destruct k; reflexivity.
  - destruct k as [|k]; [reflexivity|]. simpl. apply IH.
Qed.

Lemma replace_nil (old new : string) : replace old new EmptyString = EmptyString.
Proof. reflexivity. Qed.

Lemma replace_cons (c : ascii) (t : string) :
  replace OLD_HOST NEW_HOST (String c t) =
  if startswith OLD_HOST (String c t)
  then (NEW_HOST ++ replace OLD_HOST NEW_HOST (drop 13 t))%string
  else String c (replace OLD_HOST NEW_HOST t).
Proof.
  unfold replace at 1. cbn [replace_from].
  destruct (startswith OLD_HOST (String c t)); [|reflexivity].
  f_equal. apply (replace_from_skip OLD_HOST NEW_HOST 13 t).
Qed.

Lemma drop_length_le (k : nat) (s : string) :
  (String.length (drop k s) <= String.length s)%nat.
Proof.
  revert s; induction k as [|k IH]; intros s; simpl; [lia|].
  destruct s as [|c t]; simpl; [lia|]. specialize (IH t). lia.
Qed.

(** Induction on the length of a string, for functions that resume
    after a matched occurrence. *)
Lemma string_length_ind (P : string -> Prop) :
  (forall s, (forall t, (String.length t < String.length s)%nat -> P t) -> P s) ->
  forall s, P s.
Proof.
  intros step s.
  assert (H : forall n t, (String.length t < n)%nat -> P t).
  { induction n as [|n IH]; intros t Ht; [lia|].
    apply step. intros t' Ht'. apply IH. lia. }
  apply (H (S (String.length s))). lia.
Qed.

Lemma old_prefix_split (c : ascii) (t : string) :
  startswith OLD_HOST (String c t) = true ->
  exists rest, drop 13 t = rest /\ String c t = (OLD_HOST ++ rest)%string.
Proof.
  intros H. exists (drop 13 t). split; [reflexivity|].
  apply startswith_split in H. exact H.
Qed.

(** A prefix without the letter [w] is not made by the replacement. *)
Lemma replace_prefix_back (p s : string) :
  avoids "w" p = true ->
  startswith p (replace OLD_HOST NEW_HOST s) = true ->
  startswith p s = true.
Proof.
  revert s; induction p as [|a p IH]; intros s Hw H; [reflexivity|].
  simpl in Hw. apply andb_prop in Hw as [Ha Hp].
  destruct s as [|c t]; [discriminate H|].
  rewrite replace_cons in H.
  destruct (startswith OLD_HOST (String c t)) eqn:Hold.
  - simpl in H. apply andb_prop in H as [H _].
    rewrite H in Ha. discriminate.
  - simpl in H |- *. apply andb_prop in H as [Hac H].
    rewrite Hac. simpl. now apply IH.
Qed.

Lemma replace_no_old (s : string) :
  contains OLD_HOST (replace OLD_HOST NEW_HOST s) = false.
Proof.
  induction s as [s IH] using string_length_ind.
  destruct s as [|c t]; [reflexivity|].
  rewrite replace_cons.
  destruct (startswith OLD_HOST (String c t)) eqn:Hold.
  - assert (Hr : contains OLD_HOST (replace OLD_HOST NEW_HOST (drop 13 t)) = false).
    { apply IH. pose proof (drop_length_le 13 t). cbn [String.length]. lia. }
    revert Hr. generalize (replace OLD_HOST NEW_HOST (drop 13 t)). intros r Hr.
    simpl. exact Hr.
  - cbn [contains]. rewrite (IH t) by (simpl; lia).
    rewrite orb_false_r.
    destruct (startswith OLD_HOST (String c (replace OLD_HOST NEW_HOST t))) eqn:H;
      [|reflexivity].
    exfalso. simpl in H, Hold.
    apply andb_prop in H as [Hc H].
    rewrite Hc in Hold. simpl in Hold.
    apply (replace_prefix_back "ld.reddit.com") in H; [|reflexivity].
    simpl in H. rewrite H in Hold. discriminate.
Qed.

Lemma replace_absent (s : string) :
  contains OLD_HOST s = false -> replace OLD_HOST NEW_HOST s = s.
Proof.
  induction s as [|c t IH]; intros H; [reflexivity|].
  cbn [contains] in H. apply orb_false_elim in H as [H1 H2].
  rewrite replace_cons, H1. f_equal. now apply IH.
Qed.

Lemma replace_empty_inv (s : string) :
  replace OLD_HOST NEW_HOST s = EmptyString -> s = EmptyString.
Proof.
  destruct s as [|c t]; [reflexivity|].
  rewrite replace_cons.
  destruct (startswith OLD_HOST (String c t)); simpl; discriminate.
Qed.

Lemma replace_head_ok (s : string) :
  head_ok s = true -> head_ok (replace OLD_HOST NEW_HOST s) = true.
Proof.
  destruct s as [|c t]; [reflexivity|].
  rewrite replace_cons.
  destruct (startswith OLD_HOST (String c t)); [reflexivity|]. trivial.
Qed.

Lemma replace_ends_ok (s : string) :
  ends_ok (replace OLD_HOST NEW_HOST s) = ends_ok s.
Proof.
  induction s as [s IH] using string_length_ind.
  destruct s as [|c t]; [reflexivity|].
  rewrite replace_cons.
  destruct (startswith OLD_HOST (String c t)) eqn:Hold.
  - destruct (old_prefix_split _ _ Hold) as [rest [Hd Hs]].
    assert (Hlen : (String.length rest < String.length (String c t))%nat).
    { subst rest. cbn [String.length]. pose proof (drop_length_le 13 t). lia. }
    specialize (IH _ Hlen).
    rewrite Hd, Hs. simpl.
    destruct rest as [|d r]; [reflexivity|].
    destruct (replace OLD_HOST NEW_HOST (String d r)) eqn:Hr.
    + apply replace_empty_inv in Hr. discriminate.
    + exact IH.
  - rewrite !ends_ok_cons.
    destruct t as [|d r]; [reflexivity|].
    destruct (replace OLD_HOST NEW_HOST (String d r)) eqn:Hr.
    + apply replace_empty_inv in Hr. discriminate.
    + rewrite <- Hr. apply IH. simpl. lia.
Qed.

(** An occurrence of [reddit.com] survives the replacement. *)
Lemma replace_keeps_reddit (s : string) :
  contains "reddit.com" s = true ->
  contains "reddit.com" (replace OLD_HOST NEW_HOST s) = true.
Proof.
  induction s as [s IH] using string_length_ind.
  destruct s as [|c t]; [discriminate|].
  intros H. rewrite replace_cons.
  destruct (startswith OLD_HOST (String c t)) eqn:Hold; [reflexivity|].
  cbn [contains] in H |- *. apply orb_prop in H as [H|H].
  - apply startswith_split in H.
    change (drop (String.length "reddit.com") (String c t)) with (drop 9 t) in H.
    remember (drop 9 t) as rest eqn:Hrest. clear Hrest.
    simpl in H. injection H as Hc Ht. subst c t.
    rewrite !replace_cons. simpl. reflexivity.
  - rewrite (IH t) by (simpl; lia || exact H). apply orb_true_r.
Qed.

(** *** [normalize_reddit_url] *)

Lemma normalize_steps (u : string) :
  normalize_reddit_url u = ensure_scheme (rewrite_host (upgrade_scheme (strip u))).
Proof. reflexivity. Qed.

Lemma rewrite_host_replace (s : string) :
  rewrite_host s = replace OLD_HOST NEW_HOST s.
Proof.
  unfold rewrite_host. fold OLD_HOST NEW_HOST.
  destruct (contains OLD_HOST s) eqn:H; [reflexivity|].
  symmetry. now apply replace_absent.
Qed.

Lemma replace_after_https (r : string) :
  replace OLD_HOST NEW_HOST ("https://" ++ r) =
  ("https://" ++ replace OLD_HOST NEW_HOST r)%string.
Proof. simpl. rewrite !replace_cons. simpl. reflexivity. Qed.

Lemma upgrade_scheme_no_http (s : string) :
  startswith "http://" (upgrade_scheme s) = false.
Proof.
  unfold upgrade_scheme. destruct (startswith "http://" s) eqn:H; [reflexivity|exact H].
Qed.

Lemma rewrite_host_no_http (s : string) :
  startswith "http://" s = false -> startswith "http://" (rewrite_host s) = false.
Proof.
  intros H. rewrite rewrite_host_replace.
  destruct (startswith "http://" (replace OLD_HOST NEW_HOST s)) eqn:Hr; [|reflexivity].
  apply replace_prefix_back in Hr; [congruence|reflexivity].
Qed.

Lemma ensure_scheme_no_http (s : string) :
  startswith "http://" s = false -> startswith "http://" (ensure_scheme s) = false.
Proof.
  intros H. unfold ensure_scheme.
  destruct (contains "reddit.com" s && negb (startswith "https://" s));
    [reflexivity|exact H].
Qed.

Lemma rewrite_host_no_old (s : string) :
  contains OLD_HOST (rewrite_host s) = false.
Proof. rewrite rewrite_host_replace. apply replace_no_old. Qed.

Lemma ensure_scheme_no_old (s : string) :
  contains OLD_HOST s = false -> contains OLD_HOST (ensure_scheme s) = false.
Proof.
  intros H. unfold ensure_scheme.
  destruct (contains "reddit.com" s && negb (startswith "https://" s)); [|exact H].
  simpl. exact H.
Qed.

Lemma ensure_scheme_https (s : string) :
  contains "reddit.com" s = true -> startswith "https://" (ensure_scheme s) = true.
Proof.
  intros H. unfold ensure_scheme. rewrite H.
  destruct (startswith "https://" s) eqn:Hs; simpl; [exact Hs|reflexivity].
Qed.

Lemma ensure_scheme_reddit (s : string) :
  contains "reddit.com" (ensure_scheme s) = true ->
  startswith "https://" (ensure_scheme s) = true.
Proof.
  unfold ensure_scheme.
  destruct (contains "reddit.com" s) eqn:Hc;
    destruct (startswith "https://" s) eqn:Hs; cbn [andb negb];
    first [congruence | intros _; reflexivity].
Qed.

Lemma upgrade_scheme_clean (s : string) :
  head_ok s = true -> ends_ok s = true ->
  head_ok (upgrade_scheme s) = true /\ ends_ok (upgrade_scheme s) = true.
Proof.
  intros Hh He. unfold upgrade_scheme.
  destruct (startswith "http://" s) eqn:H; [|now split].
  apply startswith_split in H.
  change (drop (String.length "http://") s) with (drop 7 s) in *.
  rewrite H in He. revert He. generalize (drop 7 s). intros r He.
  split; [reflexivity|]. simpl in He |- *. exact He.
Qed.

Lemma rewrite_host_clean (s : string) :
  head_ok s = true -> ends_ok s = true ->
  head_ok (rewrite_host s) = true /\ ends_ok (rewrite_host s) = true.
Proof.
  intros Hh He. rewrite rewrite_host_replace. split.
  - now apply replace_head_ok.
  - now rewrite replace_ends_ok.
Qed.

Lemma ensure_scheme_clean (s : string) :
  head_ok s = true -> ends_ok s = true ->
  head_ok (ensure_scheme s) = true /\ ends_ok (ensure_scheme s) = true.
Proof.
  intros Hh He. unfold ensure_scheme.
  destruct (contains "reddit.com" s && negb (startswith "https://" s)); [|now split].
  split; [reflexivity|]. simpl. destruct s; [reflexivity|exact He].
Qed.

(** What every result of the normalisation satisfies. *)
Lemma normalize_result (u : string) :
  let r := normalize_reddit_url u in
  head_ok r = true /\ ends_ok r = true
  /\ startswith "http://" r = false
  /\ contains OLD_HOST r = false
  /\ (contains "reddit.com" r = true -> startswith "https://" r = true).
Proof.
  cbv zeta. rewrite normalize_steps.
  destruct (strip_clean u) as [Hh He].
  destruct (upgrade_scheme_clean _ Hh He) as [Hh1 He1].
  destruct (rewrite_host_clean _ Hh1 He1) as [Hh2 He2].
  destruct (ensure_scheme_clean _ Hh2 He2) as [Hh3 He3].
  repeat split; try assumption.
  - apply ensure_scheme_no_http, rewrite_host_no_http, upgrade_scheme_no_http.
  - apply ensure_scheme_no_old, rewrite_host_no_old.
  - apply ensure_scheme_reddit.
Qed.

(** A string with these properties is left as it is. *)
Lemma normalize_fixed (r : string) :
  head_ok r = true -> ends_ok r = true ->
  startswith "http://" r = false ->
  contains OLD_HOST r = false ->
  (contains "reddit.com" r = true -> startswith "https://" r = true) ->
  normalize_reddit_url r = r.
Proof.
  intros Hh He Hhttp Hold Hs.
  rewrite normalize_steps, (strip_fixed r Hh He).
  unfold upgrade_scheme. rewrite Hhttp.
  unfold rewrite_host. fold OLD_HOST. rewrite Hold.
  unfold ensure_scheme.
  destruct (contains "reddit.com" r); [|reflexivity].
  rewrite (Hs eq_refl). reflexivity.
Qed.

(** C6. Normalisation is idempotent: for every string [u],
    [normalize_reddit_url (normalize_reddit_url u) = normalize_reddit_url u]. *)
Theorem normalize_reddit_url_idempotent (u : string) :
  normalize_reddit_url (normalize_reddit_url u) = normalize_reddit_url u.
Proof.
  destruct (normalize_result u) as (Hh & He & Hhttp & Hold & Hs).
  now apply normalize_fixed.
Qed.

Lemma upgrade_scheme_keeps_reddit (s : string) :
  contains "reddit.com" s = true -> contains "reddit.com" (upgrade_scheme s) = true.
Proof.
  intros H. unfold upgrade_scheme.
  destruct (startswith "http://" s) eqn:Hp; [|exact H].
  apply startswith_split in Hp.
  change (drop (String.length "http://") s) with (drop 7 s) in *.
  rewrite Hp in H. revert H. generalize (drop 7 s). intros r H.
  simpl in H |- *. exact H.
Qed.

(** C8, as the code has it.  For every string [u], with [s] its stripped
    form, [t] the string [s] with a leading [http://] made [https://],
    and [r] the string [t] with every [old.reddit.com] made
    [www.reddit.com]: the result is [r], with [https://] put in front
    when [r] contains [reddit.com] and does not start with [https://].
    So a leading [http://] of [s] becomes [https://]; no [old.reddit.com]
    is left in the result; and when [s] contains [reddit.com] the result
    starts with the scheme [https://]. *)
Theorem normalize_reddit_url_rewrites (u : string) :
  let s := strip u in
  let t := if startswith "http://" s then ("https://" ++ drop 7 s)%string else s in
  let r := replace "old.reddit.com" "www.reddit.com" t in
  normalize_reddit_url u
  = (if contains "reddit.com" r && negb (startswith "https://" r)
     then ("https://" ++ r)%string else r)
  /\ (startswith "http://" s = true ->
      normalize_reddit_url u =
      ("https://" ++ replace "old.reddit.com" "www.reddit.com" (drop 7 s))%string)
  /\ contains "old.reddit.com" (normalize_reddit_url u) = false
  /\ (contains "reddit.com" s = true ->
      startswith "https://" (normalize_reddit_url u) = true
      /\ has_scheme (normalize_reddit_url u) = true).
Proof.
  cbv zeta. split; [|split; [|split]].
  - rewrite normalize_steps, rewrite_host_replace. reflexivity.
  - intros H. rewrite normalize_steps. unfold upgrade_scheme. rewrite H.
    change (drop (String.length "http://") (strip u)) with (drop 7 (strip u)).
    rewrite rewrite_host_replace, replace_after_https.
    unfold ensure_scheme.
    replace (startswith "https://"
               ("https://" ++ replace OLD_HOST NEW_HOST (drop 7 (strip u))))
      with true by reflexivity.
    rewrite andb_false_r. reflexivity.
  - destruct (normalize_result u) as (_ & _ & _ & Hold & _). exact Hold.
  - intros H.
    assert (Hs : startswith "https://" (normalize_reddit_url u) = true).
    { rewrite normalize_steps. apply ensure_scheme_https.
      rewrite rewrite_host_replace.
      apply replace_keeps_reddit, upgrade_scheme_keeps_reddit, H. }
    split; [exact Hs|].
    apply startswith_split in Hs. rewrite Hs. reflexivity.
Qed.

(** C8 as stated fails: a short link written without a scheme comes
    back unchanged, with no scheme in it. *)
Lemma normalize_reddit_url_leaves_no_scheme :
  normalize_reddit_url "redd.it/abc123" = "redd.it/abc123"
  /\ has_scheme (normalize_reddit_url "redd.it/abc123") = false
  /\ ~ (forall u, has_scheme (normalize_reddit_url u) = true).
Proof.
  split; [reflexivity|]. split; [reflexivity|].
  intros H. specialize (H "redd.it/abc123"). discriminate H.
Qed.

(** What [is_reddit_submission_url] tests: it answers [true] exactly
    when the URL parses, its host contains [reddit.com] or [redd.it], and
    its path contains [/comments/] or [redd.it/]; a URL the parser rejects
    is answered [false]. *)
Lemma is_reddit_submission_url_tests
    (urlparse : string -> option ParseResult) (u : string) :
  (is_reddit_submission_url urlparse u = true <->
   exists p, urlparse u = Some p
     /\ (contains "reddit.com" (netloc p) = true \/ contains "redd.it" (netloc p) = true)
     /\ (contains "/comments/" (path p) = true \/ contains "redd.it/" (path p) = true))
  /\ (urlparse u = None -> is_reddit_submission_url urlparse u = false).
Proof.
  unfold is_reddit_submission_url. split.
  - destruct (urlparse u) as [p|]; split.
    + intros H. exists p. apply andb_prop in H as [Hh Hp].
      apply orb_prop in Hh. apply orb_prop in Hp. repeat split; assumption.
    + intros (p' & Heq & Hh & Hp). injection Heq as <-.
      apply andb_true_intro. split; apply orb_true_intro; assumption.
    + discriminate.
    + intros (p' & Heq & _). discriminate.
  - intros ->. reflexivity.
Qed.

(** C7. A short link is not taken for a submission URL.  The parser gives
    [https://redd.it/abc123] the host [redd.it] and the path [/abc123];
    the path holds neither [/comments/] nor [redd.it/], so
    [is_reddit_submission_url] answers [false], while
    [submission_id_from_url], which looks for [redd.it/] in the whole
    URL, finds the id [abc123] in it. *)
Theorem short_link_is_classified_false (urlparse : string -> option ParseResult) :
  urlparse "https://redd.it/abc123" = Some (mkParseResult "redd.it" "/abc123") ->
  is_reddit_submission_url urlparse "https://redd.it/abc123" = false
  /\ submission_id_from_url "https://redd.it/abc123" = Some "abc123".
Proof.
  intros H. unfold is_reddit_submission_url. rewrite H. split; reflexivity.
Qed.

(* ================================================================== *)
(** ** Tables: keys and insert-if-absent *)
(* ================================================================== *)

Lemma existsb_eqb_In (x : string) (l : list string) :
  existsb (String.eqb x) l = true <-> In x l.
Proof.
  rewrite existsb_exists. split.
  - intros (y & Hy & Heq). apply String.eqb_eq in Heq. now subst.
  - intros H. exists x. split; [exact H|apply String.eqb_refl].
Qed.

Lemma distinct_NoDup (l : list string) : distinct l = true <-> NoDup l.
Proof.
  induction l as [|x l IH]; simpl.
  - split; [constructor|reflexivity].
  - rewrite andb_true_iff, negb_true_iff, IH. split.
    + intros [Hx Hl]. constructor; [|exact Hl].
      intros Hin. apply existsb_eqb_In in Hin. congruence.
    + intros H. inversion H as [|y l' Hx Hl]; subst. split; [|exact Hl].
      destruct (existsb (String.eqb x) l) eqn:He; [|reflexivity].
      apply existsb_eqb_In in He. contradiction.
Qed.

Lemma has_key_In (key : string) (q : list QueueRow) :
  has_key key q = true <-> In key (map q_key q).
Proof.
  unfold has_key. rewrite existsb_exists, in_map_iff. split.
  - intros (r & Hr & Heq). apply String.eqb_eq in Heq. now exists r.
  - intros (r & Heq & Hr). exists r. split; [exact Hr|]. now apply String.eqb_eq.
Qed.

Lemma has_key_app (key : string) (q1 q2 : list QueueRow) :
  has_key key (q1 ++ q2) = has_key key q1 || has_key key q2.
Proof. apply existsb_app. Qed.

Lemma has_post_In (id : string) (ps : list PostRow) :
  has_post id ps = true <-> In id (map p_id ps).
Proof.
  unfold has_post. rewrite existsb_exists, in_map_iff. split.
  - intros (r & Hr & Heq). apply String.eqb_eq in Heq. now exists r.
  - intros (r & Heq & Hr). exists r. split; [exact Hr|]. now apply String.eqb_eq.
Qed.

(** Under a primary key, the rows found by the key of a row are that row. *)
Lemma rows_with_key_unique (q : list QueueRow) (r : QueueRow) :
  keys_unique q = true -> In r q -> rows_with_key (q_key r) q = [r].
Proof.
  unfold keys_unique, rows_with_key.
  induction q as [|x q IH]; intros Hu Hin; [contradiction|].
  simpl in Hu. apply andb_prop in Hu as [Hx Hq]. apply negb_true_iff in Hx.
  assert (Hnone : forall y, In y q -> String.eqb (q_key y) (q_key x) = false).
  { intros y Hy. destruct (String.eqb (q_key y) (q_key x)) eqn:He; [|reflexivity].
    apply String.eqb_eq in He.
    assert (Hex : existsb (String.eqb (q_key x)) (map q_key q) = true).
    { apply existsb_eqb_In. rewrite <- He. now apply in_map. }
    congruence. }
  simpl. destruct Hin as [->|Hin].
  - rewrite String.eqb_refl. f_equal.
    clear IH Hq Hx. induction q as [|y q IHq]; [reflexivity|].
    simpl. rewrite (Hnone y (or_introl eq_refl)). apply IHq.
    intros z Hz. apply Hnone. now right.
  - rewrite String.eqb_sym, (Hnone r Hin). now apply IH.
Qed.

Lemma posts_with_id_unique (ps : list PostRow) (r : PostRow) :
  ids_unique ps = true -> In r ps -> posts_with_id (p_id r) ps = [r].
Proof.
  unfold ids_unique, posts_with_id.
  induction ps as [|x ps IH]; intros Hu Hin; [contradiction|].
  simpl in Hu. apply andb_prop in Hu as [Hx Hq]. apply negb_true_iff in Hx.
  assert (Hnone : forall y, In y ps -> String.eqb (p_id y) (p_id x) = false).
  { intros y Hy. destruct (String.eqb (p_id y) (p_id x)) eqn:He; [|reflexivity].
    apply String.eqb_eq in He.
    assert (Hex : existsb (String.eqb (p_id x)) (map p_id ps) = true).
    { apply existsb_eqb_In. rewrite <- He. now apply in_map. }
    congruence. }
  simpl. destruct Hin as [->|Hin].
  - rewrite String.eqb_refl. f_equal.
    clear IH Hq Hx. induction ps as [|y ps IHq]; [reflexivity|].
    simpl. rewrite (Hnone y (or_introl eq_refl)). apply IHq.
    intros z Hz. apply Hnone. now right.
  - rewrite String.eqb_sym, (Hnone r Hin). now apply IH.
Qed.

Lemma insert_queue_row_present (row : QueueRow) (q : list QueueRow) :
  has_key (q_key row) q = true -> insert_queue_row row q = q.
Proof. unfold insert_queue_row. now intros ->. Qed.

Lemma insert_queue_row_absent (row : QueueRow) (q : list QueueRow) :
  has_key (q_key row) q = false -> insert_queue_row row q = q ++ [row].
Proof. unfold insert_queue_row. now intros ->. Qed.

(** What [queue_add] does to the world. *)
Lemma queue_add_run (E : Env) (key url : string) (depth is_hub mcd : Z) (w : World) :
  queue_add E key url depth is_hub mcd w =
  (Ok tt,
   mkWorld
     (mkDB (posts_of w) (db_links (db w))
        (insert_queue_row
           (mkQueueRow key url depth queued None is_hub mcd
              (now_utc_iso E (tick w)) (now_utc_iso E (S (tick w))))
           (queue_of w))
        (runs_of w))
     (S (S (tick w)))).
Proof. reflexivity. Qed.

(** C4. Adding a key that is in the queue already, whatever the url,
    depth and flags of the second call, succeeds and leaves the whole
    database as it was; under the primary key there is exactly one row
    for that key afterwards, and it is the original row. *)
Theorem queue_add_existing_key
    (E : Env) (url : string) (depth is_hub max_comment_depth : Z)
    (w : World) (r : QueueRow) :
  keys_unique (queue_of w) = true ->
  In r (queue_of w) ->
  let res := queue_add E (q_key r) url depth is_hub max_comment_depth w in
  fst res = Ok tt
  /\ db (snd res) = db w
  /\ rows_with_key (q_key r) (queue_of (snd res)) = [r].
Proof.
  intros Hu Hin res. subst res. rewrite queue_add_run. cbn [fst snd db].
  assert (Hk : has_key (q_key r) (queue_of w) = true).
  { apply has_key_In. now apply in_map. }
  rewrite insert_queue_row_present by exact Hk.
  split; [reflexivity|]. split.
  - unfold posts_of, queue_of, runs_of. now destruct (db w).
  - unfold queue_of at 1. cbn [db db_crawl_queue]. now apply rows_with_key_unique.
Qed.

(** C5. [insert_post] never raises; it answers [true] exactly when the
    row was appended to [posts]; when the id is there already it answers
    [false] and leaves the database as it was, so that, under the primary
    key, the one post of that id is still the row that was there. *)
Theorem insert_post_spec (row : PostRow) (w : World) :
  let res := insert_post row w in
  exists inserted : bool,
    fst res = Ok inserted
    /\ (inserted = true <-> posts_of (snd res) = posts_of w ++ [row])
    /\ (inserted = true <-> has_post (p_id row) (posts_of w) = false)
    /\ (has_post (p_id row) (posts_of w) = true ->
        inserted = false /\ snd res = w
        /\ forall old, ids_unique (posts_of w) = true -> In old (posts_of w) ->
             p_id old = p_id row ->
             posts_with_id (p_id row) (posts_of (snd res)) = [old]).
Proof.
  cbv zeta. unfold insert_post, posts_of.
  destruct (has_post (p_id row) (db_posts (db w))) eqn:Hp.
  - exists false. cbn [fst snd]. split; [reflexivity|]. split; [|split].
    + split; [discriminate|]. intros H.
      apply (f_equal (@List.length PostRow)) in H.
      rewrite length_app in H. simpl in H. lia.
    + split; discriminate.
    + intros _. split; [reflexivity|]. split; [reflexivity|].
      intros old Hu Hin Hid. rewrite <- Hid. now apply posts_with_id_unique.
  - exists true. cbn [fst snd]. split; [reflexivity|]. split; [|split].
    + split; [reflexivity|]. intros _. reflexivity.
    + split; reflexivity.
    + discriminate.
Qed.

(* ================================================================== *)
(** ** Reasoning about computations *)
(* ================================================================== *)


Lemma finishes_ret {S A : Type} (a : A) : finishes (@ret S A a).
Proof. intros s. discriminate. Qed.

Lemma finishes_raise {S A : Type} (msg : string) : finishes (@raise S A msg).
Proof. intros s. discriminate. Qed.

Lemma finishes_bind {S A B : Type} (m : M S A) (k : A -> M S B) :
  finishes m -> (forall a, finishes (k a)) -> finishes (bind m k).
Proof.
  intros Hm Hk s. unfold bind. specialize (Hm s).
  destruct (m s) as [[a|msg|] s']; simpl in *.
  - apply Hk.
  - discriminate.
  - contradiction.
Qed.

Lemma finishes_ask {A : Type} (oracle : nat -> A) : finishes (ask oracle).
Proof. intros s. discriminate. Qed.

Lemma finishes_modify {S : Type} (f : S -> S) : finishes (modify f).
Proof. intros s. discriminate. Qed.

Lemma finishes_try_except {S A : Type} (body : M S A) (handler : string -> M S A) :
  finishes body -> (forall msg, finishes (handler msg)) ->
  finishes (try_except body handler).
Proof.
  intros Hb Hh s. unfold try_except. specialize (Hb s).
  destruct (body s) as [[a|msg|] s']; simpl in *.
  - discriminate.
  - apply Hh.
  - contradiction.
Qed.


(** A relation between the world before and after holds across a
    sequence when it is transitive and holds across each part. *)
Lemma bind_rel {A B : Type} (R : World -> World -> Prop)
    (m : M World A) (k : A -> M World B) :
  (forall x y z, R x y -> R y z -> R x z) ->
  (forall w, R w (snd (m w))) ->
  (forall a w, R w (snd (k a w))) ->
  forall w, R w (snd (bind m k w)).
Proof.
  intros Htrans Hm Hk w. unfold bind. specialize (Hm w).
  destruct (m w) as [[a|msg|] w']; simpl in *; try exact Hm.
  eapply Htrans; [exact Hm|apply Hk].
Qed.

(** *** The relations followed through the pipeline *)


Lemma same_queue_trans (x y z : World) :
  same_queue x y -> same_queue y z -> same_queue x z.
Proof. unfold same_queue. congruence. Qed.

Lemma same_posts_trans (x y z : World) :
  same_posts x y -> same_posts y z -> same_posts x z.
Proof. unfold same_posts. congruence. Qed.

Lemma enqueued_trans (d : Z) (q1 q2 q3 : list QueueRow) :
  enqueued d q1 q2 -> enqueued d q2 q3 -> enqueued d q1 q3.
Proof.
  intros H12 H23. induction H23 as [q|q q' r H IH Hk Hd Hh Hs].
  - exact H12.
  - apply enqueued_more; auto.
Qed.

Lemma grows_trans (d : Z) (x y z : World) :
  grows d x y -> grows d y z -> grows d x z.
Proof. unfold grows. apply enqueued_trans. Qed.

Lemma same_queue_grows (d : Z) (w w' : World) : same_queue w w' -> grows d w w'.
Proof. unfold same_queue, grows. intros ->. constructor. Qed.

(** *** Effects of the store operations *)

Lemma ask_run {A : Type} (oracle : nat -> A) (w : World) :
  ask oracle w = (Ok (oracle (tick w)), mkWorld (db w) (S (tick w))).
Proof. reflexivity. Qed.

Lemma insert_post_same_queue (row : PostRow) (w : World) :
  same_queue w (snd (insert_post row w)).
Proof.
  unfold insert_post, same_queue.
  destruct (has_post (p_id row) (db_posts (db w))); reflexivity.
Qed.

Lemma insert_post_finishes (row : PostRow) : finishes (insert_post row).
Proof.
  intros w. unfold insert_post.
  destruct (has_post (p_id row) (db_posts (db w))); discriminate.
Qed.

Lemma upsert_link_same_queue (E : Env) (post_id url : string) (w : World) :
  same_queue w (snd (upsert_link E post_id url w)).
Proof.
  unfold upsert_link, bind, same_queue. rewrite ask_run.
  cbn [db]. destruct (has_link _ _ _); [reflexivity|].
  destruct (has_post _ _); reflexivity.
Qed.

Lemma upsert_link_same_posts (E : Env) (post_id url : string) (w : World) :
  same_posts w (snd (upsert_link E post_id url w)).
Proof.
  unfold upsert_link, bind, same_posts. rewrite ask_run.
  cbn [db]. destruct (has_link _ _ _); [reflexivity|].
  destruct (has_post _ _); reflexivity.
Qed.

Lemma upsert_link_finishes (E : Env) (post_id url : string) :
  finishes (upsert_link E post_id url).
Proof.
  intros w. unfold upsert_link, bind. rewrite ask_run.
  cbn [db]. destruct (has_link _ _ _); [discriminate|].
  destruct (has_post _ _); discriminate.
Qed.

(** With its post in the table, a link is stored without an exception. *)
Lemma upsert_link_ok (E : Env) (post_id url : string) (w : World) :
  has_post post_id (posts_of w) = true ->
  fst (upsert_link E post_id url w) = Ok tt.
Proof.
  intros H. unfold upsert_link, bind. rewrite ask_run. cbn [db].
  destruct (has_link _ _ _); [reflexivity|].
  unfold posts_of in H. rewrite H. reflexivity.
Qed.

Lemma queue_add_same_posts (E : Env) (key url : string) (d h m : Z) (w : World) :
  same_posts w (snd (queue_add E key url d h m w)).
Proof. rewrite queue_add_run. reflexivity. Qed.

Lemma queue_add_finishes (E : Env) (key url : string) (d h m : Z) :
  finishes (queue_add E key url d h m).
Proof. intros w. rewrite queue_add_run. discriminate. Qed.

Lemma queue_add_ok (E : Env) (key url : string) (d h m : Z) (w : World) :
  fst (queue_add E key url d h m w) = Ok tt.
Proof. now rewrite queue_add_run. Qed.

Lemma queue_add_queue (E : Env) (key url : string) (d h m : Z) (w : World) :
  queue_of (snd (queue_add E key url d h m w)) =
  insert_queue_row
    (mkQueueRow key url d queued None h m
       (now_utc_iso E (tick w)) (now_utc_iso E (S (tick w))))
    (queue_of w).
Proof. now rewrite queue_add_run. Qed.

(** An item enqueued by the crawl: not a hub, at the given depth. *)
Lemma queue_add_grows (E : Env) (key url : string) (d m : Z) (w : World) :
  grows d w (snd (queue_add E key url d 0 m w)).
Proof.
  unfold grows. rewrite queue_add_queue. unfold insert_queue_row. cbn [q_key].
  destruct (has_key key (queue_of w)) eqn:Hk.
  - constructor.
  - apply enqueued_more; [constructor| exact Hk |reflexivity..].
Qed.

Lemma queue_mark_run (E : Env) (key : string) (status : Status)
    (err : option string) (w : World) :
  queue_mark E key status err w =
  (Ok tt,
   mkWorld
     (mkDB (posts_of w) (db_links (db w))
        (map (mark_row key status err (now_utc_iso E (tick w))) (queue_of w))
        (runs_of w))
     (S (tick w))).
Proof. reflexivity. Qed.

Lemma queue_reset_hubs_run (E : Env) (w : World) :
  queue_reset_hubs E w =
  (Ok tt,
   mkWorld
     (mkDB (posts_of w) (db_links (db w))
        (map (requeue_hub (now_utc_iso E (tick w))) (queue_of w))
        (runs_of w))
     (S (tick w))).
Proof. reflexivity. Qed.

Lemma deadline_reached_same_db (E : Env) (deadline_ts : option Z) (w : World) :
  db (snd (deadline_reached E deadline_ts w)) = db w.
Proof. destruct deadline_ts; reflexivity. Qed.

Lemma deadline_reached_ok (E : Env) (deadline_ts : option Z) (w : World) :
  exists late, fst (deadline_reached E deadline_ts w) = Ok late.
Proof. destruct deadline_ts; eexists; reflexivity. Qed.

Lemma deadline_none (E : Env) (w : World) :
  deadline_reached E None w = (Ok false, w).
Proof. reflexivity. Qed.

Lemma heartbeat_same_db (E : Env) (hb : Z) (w : World) :
  db (snd (heartbeat E hb w)) = db w.
Proof.
  unfold heartbeat, bind. rewrite ask_run.
  destruct (HEARTBEAT_EVERY_SECONDS <=? _)%Z; reflexivity.
Qed.

Lemma heartbeat_ok (E : Env) (hb : Z) (w : World) :
  exists hb', fst (heartbeat E hb w) = Ok hb'.
Proof.
  unfold heartbeat, bind. rewrite ask_run.
  destruct (HEARTBEAT_EVERY_SECONDS <=? _)%Z; eexists; reflexivity.
Qed.

(* ================================================================== *)
(** ** Link discovery and the work on one item *)
(* ================================================================== *)

Lemma bind_assoc {S A B C : Type} (m : M S A) (k : A -> M S B) (h : B -> M S C) (s : S) :
  bind (bind m k) h s = bind m (fun a => bind (k a) h) s.
Proof. unfold bind. destruct (m s) as [[a|msg|] s']; reflexivity. Qed.

Lemma bind_ext {S A B : Type} (m : M S A) (k k' : A -> M S B) (s : S) :
  (forall a s', k a s' = k' a s') -> bind m k s = bind m k' s.
Proof. intros H. unfold bind. destruct (m s) as [[a|msg|] s']; auto. Qed.

Lemma discover_links_grows (E : Env) (post_id : string) (depth : Z)
    (urls : list string) (w : World) :
  grows (depth + 1) w (snd (discover_links E post_id depth urls w)).
Proof.
  revert w. induction urls as [|u rest IH]; intros w.
  - constructor.
  - cbn [discover_links].
    apply bind_rel; [apply grows_trans| |].
    + intros w0. apply same_queue_grows, upsert_link_same_queue.
    + intros _ w0. apply bind_rel; [apply grows_trans| |].
      * intros w1. destruct (_ && _); [apply queue_add_grows|constructor].
      * intros _ w1. apply IH.
Qed.

Lemma discover_links_at_bound (E : Env) (post_id : string) (depth : Z)
    (urls : list string) (w : World) :
  (depth <? MAX_CRAWL_DEPTH)%Z = false ->
  same_queue w (snd (discover_links E post_id depth urls w)).
Proof.
  intros Hd. revert w. induction urls as [|u rest IH]; intros w.
  - reflexivity.
  - cbn [discover_links]. rewrite Hd. cbn [andb].
    apply bind_rel; [apply same_queue_trans| |].
    + intros w0. apply upsert_link_same_queue.
    + intros _ w0. apply bind_rel; [apply same_queue_trans| |].
      * intros w1. reflexivity.
      * intros _ w1. apply IH.
Qed.

Lemma discover_links_same_posts (E : Env) (post_id : string) (depth : Z)
    (urls : list string) (w : World) :
  same_posts w (snd (discover_links E post_id depth urls w)).
Proof.
  revert w. induction urls as [|u rest IH]; intros w.
  - reflexivity.
  - cbn [discover_links].
    apply bind_rel; [apply same_posts_trans| |].
    + intros w0. apply upsert_link_same_posts.
    + intros _ w0. apply bind_rel; [apply same_posts_trans| |].
      * intros w1. destruct (_ && _); [apply queue_add_same_posts|reflexivity].
      * intros _ w1. apply IH.
Qed.

Lemma discover_links_finishes (E : Env) (post_id : string) (depth : Z)
    (urls : list string) :
  finishes (discover_links E post_id depth urls).
Proof.
  induction urls as [|u rest IH]; cbn [discover_links].
  - apply finishes_ret.
  - apply finishes_bind; [apply upsert_link_finishes|]. intros _.
    apply finishes_bind; [|intros _; exact IH].
    destruct (_ && _); [apply queue_add_finishes|apply finishes_ret].
Qed.

(** When the post is in the table, link discovery raises nothing. *)
Lemma discover_links_ok (E : Env) (post_id : string) (depth : Z)
    (urls : list string) (w : World) :
  has_post post_id (posts_of w) = true ->
  fst (discover_links E post_id depth urls w) = Ok tt.
Proof.
  revert w. induction urls as [|u rest IH]; intros w Hp; [reflexivity|].
  cbn [discover_links]. unfold bind at 1.
  pose proof (upsert_link_ok E post_id u w Hp) as Hok.
  pose proof (upsert_link_same_posts E post_id u w) as Hsp.
  destruct (upsert_link E post_id u w) as [r1 w1]. cbn [fst snd] in *. subst r1.
  unfold bind at 1.
  set (step := if (depth <? MAX_CRAWL_DEPTH)%Z && is_reddit_submission_url (urlparse E) u
               then _ else _).
  assert (Hstep : fst (step w1) = Ok tt /\ same_posts w1 (snd (step w1))).
  { subst step. destruct (_ && _).
    - split; [apply queue_add_ok|apply queue_add_same_posts].
    - split; reflexivity. }
  destruct Hstep as [Hs1 Hs2]. destruct (step w1) as [r2 w2]. cbn [fst snd] in *.
  subst r2. apply IH. unfold same_posts in *. congruence.
Qed.

(** *** [store_submission_and_discover] *)

Lemma store_grows (E : Env) (s : Submission) (depth : Z) (w : World) :
  grows (depth + 1) w (snd (store_submission_and_discover E s depth w)).
Proof.
  unfold store_submission_and_discover.
  apply bind_rel; [apply grows_trans| |].
  - intros w0. constructor.
  - intros now w0. apply bind_rel; [apply grows_trans| |].
    + intros w1. apply same_queue_grows, insert_post_same_queue.
    + intros b w1. apply bind_rel; [apply grows_trans| |].
      * intros w2. apply discover_links_grows.
      * intros _ w2. constructor.
Qed.

Lemma store_at_bound (E : Env) (s : Submission) (depth : Z) (w : World) :
  (depth <? MAX_CRAWL_DEPTH)%Z = false ->
  same_queue w (snd (store_submission_and_discover E s depth w)).
Proof.
  intros Hd. unfold store_submission_and_discover.
  apply bind_rel; [apply same_queue_trans| |].
  - intros w0. reflexivity.
  - intros now w0. apply bind_rel; [apply same_queue_trans| |].
    + intros w1. apply insert_post_same_queue.
    + intros b w1. apply bind_rel; [apply same_queue_trans| |].
      * intros w2. now apply discover_links_at_bound.
      * intros _ w2. reflexivity.
Qed.

Lemma store_finishes (E : Env) (s : Submission) (depth : Z) :
  finishes (store_submission_and_discover E s depth).
Proof.
  unfold store_submission_and_discover.
  apply finishes_bind; [apply finishes_ask|]. intros now.
  apply finishes_bind; [apply insert_post_finishes|]. intros b.
  apply finishes_bind; [apply discover_links_finishes|]. intros _.
  apply finishes_ret.
Qed.

(** Storing a submission raises nothing and tells whether its id was
    new; afterwards the id is in [posts]. *)
Lemma store_run (E : Env) (s : Submission) (depth : Z) (w : World) :
  exists w',
    store_submission_and_discover E s depth w
      = (Ok (negb (has_post (s_id s) (posts_of w))), w')
    /\ has_post (s_id s) (posts_of w') = true
    /\ (has_post (s_id s) (posts_of w) = true -> posts_of w' = posts_of w).
Proof.
  unfold store_submission_and_discover, bind at 1. rewrite ask_run.
  unfold bind at 1.
  set (row := mkPostRow _ _ _ _ _ _ _ _ _ _ _ _ _).
  set (w0 := mkWorld (db w) (S (tick w))).
  assert (Hins : exists w1,
             insert_post row w0 = (Ok (negb (has_post (s_id s) (posts_of w))), w1)
             /\ has_post (s_id s) (posts_of w1) = true
             /\ (has_post (s_id s) (posts_of w) = true -> posts_of w1 = posts_of w)).
  { unfold insert_post. subst row w0. cbn [p_id db]. unfold posts_of.
    destruct (has_post (s_id s) (db_posts (db w))) eqn:Hp.
    - eexists. split; [reflexivity|]. cbn [db]. split; [exact Hp|reflexivity].
    - eexists. split; [reflexivity|]. cbn [db set_db db_posts]. split; [|discriminate].
      unfold has_post. rewrite existsb_app. cbn [existsb p_id].
      rewrite String.eqb_refl. apply orb_true_iff. right. reflexivity. }
  destruct Hins as (w1 & Hrun & Hhas & Hsame). rewrite Hrun.
  unfold bind.
  pose proof (discover_links_ok E (s_id s) depth (submission_urls s) w1 Hhas) as Hok.
  pose proof (discover_links_same_posts E (s_id s) depth (submission_urls s) w1) as Hsp.
  destruct (discover_links E (s_id s) depth (submission_urls s) w1) as [r2 w2].
  cbn [fst snd] in *. subst r2. unfold ret. exists w2.
  unfold same_posts in Hsp. rewrite Hsp.
  split; [reflexivity|]. split; [exact Hhas|exact Hsame].
Qed.

(** *** The hub branch *)

Lemma extract_best_same_world (E : Env) (s : Submission) (top_n : nat)
    (reply_depth : Z) (max_replies : nat) (w : World) :
  snd (extract_reddit_links_from_best_comments E s top_n reply_depth max_replies w) = w.
Proof.
  unfold extract_reddit_links_from_best_comments, bind, of_fetched.
  destruct (s_comments s); reflexivity.
Qed.

Lemma extract_best_finishes (E : Env) (s : Submission) (top_n : nat)
    (reply_depth : Z) (max_replies : nat) :
  finishes (extract_reddit_links_from_best_comments E s top_n reply_depth max_replies).
Proof.
  intros w. unfold extract_reddit_links_from_best_comments, bind, of_fetched.
  destruct (s_comments s); discriminate.
Qed.

Lemma enqueue_best_links_grows (E : Env) (depth : Z) (links : list string) (w : World) :
  grows (depth + 1) w (snd (enqueue_best_links E depth links w)).
Proof.
  revert w. induction links as [|nu rest IH]; intros w.
  - constructor.
  - cbn [enqueue_best_links]. apply bind_rel; [apply grows_trans| |].
    + intros w0. apply queue_add_grows.
    + intros _ w0. apply IH.
Qed.

Lemma enqueue_best_links_ok (E : Env) (depth : Z) (links : list string) (w : World) :
  fst (enqueue_best_links E depth links w) = Ok tt.
Proof.
  revert w. induction links as [|nu rest IH]; intros w; [reflexivity|].
  cbn [enqueue_best_links]. unfold bind. rewrite queue_add_run. apply IH.
Qed.

Lemma enqueue_best_links_finishes (E : Env) (depth : Z) (links : list string) :
  finishes (enqueue_best_links E depth links).
Proof. intros w. rewrite enqueue_best_links_ok. discriminate. Qed.

(** *** The work on one item *)

Lemma crawl_item_try_work (E : Env) (it : QItem) (w : World) :
  crawl_item_try E it w =
  bind (crawl_item_work E it) (fun _ => queue_mark E (i_key it) done None) w.
Proof.
  unfold crawl_item_try, crawl_item_work.
  etransitivity; [|symmetry; apply bind_assoc].
  apply bind_ext. intros s w1. symmetry. apply bind_assoc.
Qed.

Lemma crawl_item_work_finishes (E : Env) (it : QItem) : finishes (crawl_item_work E it).
Proof.
  unfold crawl_item_work.
  apply finishes_bind.
  - apply finishes_bind; [apply finishes_ask|].
    intros [s|msg]; [apply finishes_ret|apply finishes_raise].
  - intros s. apply finishes_bind; [apply store_finishes|]. intros _.
    destruct (_ && _); [|apply finishes_ret].
    apply finishes_bind; [apply extract_best_finishes|].
    intros links. apply enqueue_best_links_finishes.
Qed.

Lemma fetch_same_queue (E : Env) (it : QItem) (w : World) :
  same_queue w
    (snd (bind (ask (fun t => reddit_submission E t (item_sid it) (i_url it)))
               of_fetched w)).
Proof.
  unfold bind. rewrite ask_run.
  destruct (reddit_submission E (tick w) (item_sid it) (i_url it)); reflexivity.
Qed.

Lemma crawl_item_work_grows (E : Env) (it : QItem) (w : World) :
  grows (i_depth it + 1) w (snd (crawl_item_work E it w)).
Proof.
  unfold crawl_item_work.
  apply bind_rel; [apply grows_trans| |].
  - intros w0. apply same_queue_grows, fetch_same_queue.
  - intros s w0. apply bind_rel; [apply grows_trans| |].
    + intros w1. apply store_grows.
    + intros _ w1. destruct (_ && _); [|constructor].
      apply bind_rel; [apply grows_trans| |].
      * intros w2. rewrite extract_best_same_world. constructor.
      * intros links w2. apply enqueue_best_links_grows.
Qed.

Lemma crawl_item_work_at_bound (E : Env) (it : QItem) (w : World) :
  may_enqueue it = false ->
  same_queue w (snd (crawl_item_work E it w)).
Proof.
  unfold may_enqueue. intros H. apply orb_false_elim in H as [Hd Hh].
  unfold crawl_item_work. rewrite Hh.
  apply bind_rel; [apply same_queue_trans| |].
  - intros w0. apply fetch_same_queue.
  - intros s w0. apply bind_rel; [apply same_queue_trans| |].
    + intros w1. now apply store_at_bound.
    + intros _ w1. reflexivity.
Qed.

(** One item of the batch: the work, then the mark. *)
Lemma crawl_item_run (E : Env) (it : QItem) (st : CrawlLocals) (w : World) :
  crawl_item E it st w =
  match crawl_item_work E it w with
  | (Ok _, w1) =>
      (Ok (mkCrawlLocals (cl_done st + 1) (cl_errors st) (cl_heartbeat_at st)),
       snd (queue_mark E (i_key it) done None w1))
  | (Raise msg, w1) =>
      (Ok (mkCrawlLocals (cl_done st) (cl_errors st + 1) (cl_heartbeat_at st)),
       snd (queue_mark E (i_key it) error (Some (take 500 msg)) w1))
  | (OutOfFuel, w1) => (OutOfFuel, w1)
  end.
Proof.
  unfold crawl_item, try_except.
  unfold bind at 1. rewrite crawl_item_try_work. unfold bind at 1.
  destruct (crawl_item_work E it w) as [[u|msg|] w1]; reflexivity.
Qed.

(* ================================================================== *)
(** ** Invariants of the queue *)
(* ================================================================== *)

Lemma enqueued_split (d : Z) (q q' : list QueueRow) :
  enqueued d q q' ->
  exists added,
    q' = q ++ added
    /\ Forall (fun r => q_depth r = d /\ q_is_hub r = 0%Z /\ q_status r = queued) added.
Proof.
  induction 1 as [q|q q' r H IH Hk Hd Hh Hs].
  - exists []. split; [now rewrite app_nil_r|constructor].
  - destruct IH as (added & -> & Hall). exists (added ++ [r]). split.
    + now rewrite app_assoc.
    + apply Forall_app. split; [exact Hall|]. constructor; [|constructor]. auto.
Qed.

Lemma distinct_snoc (l : list string) (x : string) :
  distinct (l ++ [x]) = distinct l && negb (existsb (String.eqb x) l).
Proof.
  induction l as [|y l IH]; simpl.
  - reflexivity.
  - rewrite IH, existsb_app. simpl. rewrite orb_false_r.
    rewrite (String.eqb_sym x y).
    destruct (existsb (String.eqb y) l), (String.eqb y x), (distinct l),
      (existsb (String.eqb x) l); reflexivity.
Qed.

Lemma has_key_existsb (key : string) (q : list QueueRow) :
  has_key key q = existsb (String.eqb key) (map q_key q).
Proof.
  unfold has_key. induction q as [|r q IH]; simpl; [reflexivity|].
  now rewrite IH, String.eqb_sym.
Qed.

Lemma keys_unique_snoc (q : list QueueRow) (r : QueueRow) :
  keys_unique (q ++ [r]) = keys_unique q && negb (has_key (q_key r) q).
Proof.
  unfold keys_unique. rewrite map_app. simpl.
  now rewrite distinct_snoc, has_key_existsb.
Qed.

Lemma queue_ok_snoc (q : list QueueRow) (r : QueueRow) :
  queue_ok (q ++ [r]) = queue_ok q && row_ok r.
Proof. unfold queue_ok. rewrite forallb_app. simpl. now rewrite andb_true_r. Qed.

Lemma enqueued_keys_unique (d : Z) (q q' : list QueueRow) :
  enqueued d q q' -> keys_unique q = true -> keys_unique q' = true.
Proof.
  induction 1 as [q|q q' r H IH Hk Hd Hh Hs]; intros Hu; [exact Hu|].
  rewrite keys_unique_snoc, (IH Hu), Hk. reflexivity.
Qed.

Lemma enqueued_queue_ok (d : Z) (q q' : list QueueRow) :
  enqueued d q q' -> (0 <= d <= MAX_CRAWL_DEPTH)%Z ->
  queue_ok q = true -> queue_ok q' = true.
Proof.
  induction 1 as [q|q q' r H IH Hk Hd Hh Hs]; intros Hb Hq; [exact Hq|].
  rewrite queue_ok_snoc, (IH Hb Hq). unfold row_ok. rewrite Hd, Hh.
  cbn [andb implb Z.eqb].
  apply andb_true_intro. split; [|reflexivity].
  apply andb_true_intro. split; [apply Z.leb_le|apply Z.leb_le]; lia.
Qed.

Lemma enqueued_has_key (d : Z) (q q' : list QueueRow) (key : string) :
  enqueued d q q' -> has_key key q = true -> has_key key q' = true.
Proof.
  induction 1 as [q|q q' r H IH Hk Hd Hh Hs]; intros Hin; [exact Hin|].
  rewrite has_key_app, (IH Hin). reflexivity.
Qed.

Lemma mark_row_key (key : string) (status : Status) (err : option string)
    (now : string) (r : QueueRow) :
  q_key (mark_row key status err now r) = q_key r.
Proof. unfold mark_row. destruct (String.eqb _ _); reflexivity. Qed.

Lemma mark_row_item (key : string) (status : Status) (err : option string)
    (now : string) (r : QueueRow) :
  item_of_row (mark_row key status err now r) = item_of_row r.
Proof. unfold mark_row. destruct (String.eqb _ _); reflexivity. Qed.

Lemma mark_row_ok (key : string) (status : Status) (err : option string)
    (now : string) (r : QueueRow) :
  row_ok (mark_row key status err now r) = row_ok r.
Proof. unfold mark_row. destruct (String.eqb _ _); reflexivity. Qed.

Lemma requeue_hub_key (now : string) (r : QueueRow) :
  q_key (requeue_hub now r) = q_key r.
Proof. unfold requeue_hub. destruct (_ =? _)%Z; reflexivity. Qed.

Lemma requeue_hub_item (now : string) (r : QueueRow) :
  item_of_row (requeue_hub now r) = item_of_row r.
Proof. unfold requeue_hub. destruct (_ =? _)%Z; reflexivity. Qed.

Lemma requeue_hub_ok (now : string) (r : QueueRow) :
  row_ok (requeue_hub now r) = row_ok r.
Proof. unfold requeue_hub. destruct (_ =? _)%Z; reflexivity. Qed.

Lemma map_ext_eq {A B : Type} (f : A -> A) (g : A -> B) (l : list A) :
  (forall x, g (f x) = g x) -> map g (map f l) = map g l.
Proof. intros H. rewrite map_map. apply map_ext. exact H. Qed.

Lemma forallb_map_eq {A : Type} (f : A -> A) (p : A -> bool) (l : list A) :
  (forall x, p (f x) = p x) -> forallb p (map f l) = forallb p l.
Proof.
  intros H. induction l as [|x l IH]; simpl; [reflexivity|]. now rewrite H, IH.
Qed.

Lemma item_ok_row (r : QueueRow) : item_ok (item_of_row r) = row_ok r.
Proof. reflexivity. Qed.

Lemma queue_ok_item (q : list QueueRow) (it : QItem) :
  queue_ok q = true -> In it (map item_of_row q) -> item_ok it = true.
Proof.
  intros Hq Hin. apply in_map_iff in Hin as (r & <- & Hr).
  rewrite item_ok_row. unfold queue_ok in Hq.
  rewrite forallb_forall in Hq. now apply Hq.
Qed.

(** The depth at which an item that may enqueue does so is within the bound. *)
Lemma may_enqueue_depth (it : QItem) :
  item_ok it = true -> may_enqueue it = true ->
  (0 <= i_depth it + 1 <= MAX_CRAWL_DEPTH)%Z.
Proof.
  unfold item_ok, may_enqueue, MAX_CRAWL_DEPTH. intros Hok Hm.
  apply andb_prop in Hok as [Hok Himp]. apply andb_prop in Hok as [H0 H3].
  apply Z.leb_le in H0, H3.
  apply orb_prop in Hm as [Hm|Hm].
  - apply Z.ltb_lt in Hm. lia.
  - apply andb_prop in Hm as [Hh _]. rewrite Hh in Himp. simpl in Himp.
    apply Z.eqb_eq in Himp. lia.
Qed.

(** An item at the bound may not enqueue, since a hub is at depth 0. *)
Lemma at_bound_no_enqueue (it : QItem) :
  item_ok it = true -> i_depth it = MAX_CRAWL_DEPTH -> may_enqueue it = false.
Proof.
  unfold item_ok, may_enqueue, MAX_CRAWL_DEPTH. intros Hok Hd. rewrite Hd in *.
  apply andb_prop in Hok as [_ Himp].
  destruct (i_is_hub it =? 1)%Z; [discriminate Himp|reflexivity].
Qed.

(** What crawling one item does to the queue: rows are enqueued one
    level below the item, if the item may enqueue at all, and then the
    item is marked [done], or [error] with the start of the message. *)
Lemma crawl_item_effect (E : Env) (it : QItem) (st : CrawlLocals) (w : World) :
  exists (q1 : list QueueRow) (status : Status) (err : option string)
         (now : string) (st' : CrawlLocals),
    crawl_item E it st w
      = (Ok st', snd (crawl_item E it st w))
    /\ enqueued (i_depth it + 1) (queue_of w) q1
    /\ (may_enqueue it = false -> q1 = queue_of w)
    /\ queue_of (snd (crawl_item E it st w))
       = map (mark_row (i_key it) status err now) q1
    /\ ((status = done /\ err = None
         /\ st' = mkCrawlLocals (cl_done st + 1) (cl_errors st) (cl_heartbeat_at st)
         /\ exists w1, crawl_item_work E it w = (Ok tt, w1))
        \/ (status = error
            /\ st' = mkCrawlLocals (cl_done st) (cl_errors st + 1) (cl_heartbeat_at st)
            /\ exists msg w1, crawl_item_work E it w = (Raise msg, w1)
                 /\ err = Some (take 500 msg))).
Proof.
  rewrite crawl_item_run.
  pose proof (crawl_item_work_finishes E it w) as Hfin.
  pose proof (crawl_item_work_grows E it w) as Hg.
  pose proof (crawl_item_work_at_bound E it w) as Hb.
  destruct (crawl_item_work E it w) as [[[]|msg|] w1]; cbn [fst snd] in *.
  - exists (queue_of w1), done, None, (now_utc_iso E (tick w1)).
    eexists. split; [reflexivity|]. split; [exact Hg|]. split; [exact Hb|].
    split; [reflexivity|]. left. repeat split. now exists w1.
  - exists (queue_of w1), error, (Some (take 500 msg)), (now_utc_iso E (tick w1)).
    eexists. split; [reflexivity|]. split; [exact Hg|]. split; [exact Hb|].
    split; [reflexivity|]. right. repeat split. now exists msg, w1.
  - contradiction.
Qed.


Lemma mark_inv (key : string) (status : Status) (err : option string)
    (now : string) (q : list QueueRow) :
  queue_inv q -> queue_inv (map (mark_row key status err now) q).
Proof.
  intros [Hok Hu]. split.
  - unfold queue_ok. rewrite forallb_map_eq; [exact Hok|]. apply mark_row_ok.
  - unfold keys_unique. rewrite map_ext_eq; [exact Hu|]. apply mark_row_key.
Qed.

Lemma crawl_item_inv (E : Env) (it : QItem) (st : CrawlLocals) (w : World) :
  queue_inv (queue_of w) -> In it (map item_of_row (queue_of w)) ->
  queue_inv (queue_of (snd (crawl_item E it st w))).
Proof.
  intros [Hok Hu] Hin.
  destruct (crawl_item_effect E it st w)
    as (q1 & status & err & now & st' & _ & Henq & Hsame & Hq & _).
  rewrite Hq. apply mark_inv.
  destruct (may_enqueue it) eqn:Hm.
  - split.
    + eapply enqueued_queue_ok; [exact Henq| |exact Hok].
      apply may_enqueue_depth; [|exact Hm]. eapply queue_ok_item; eauto.
    + eapply enqueued_keys_unique; eauto.
  - rewrite (Hsame eq_refl). now split.
Qed.

Lemma store_inv (E : Env) (s : Submission) (w : World) :
  queue_inv (queue_of w) ->
  queue_inv (queue_of (snd (store_submission_and_discover E s 0 w))).
Proof.
  intros [Hok Hu]. pose proof (store_grows E s 0 w) as Hg. split.
  - eapply enqueued_queue_ok; [exact Hg| |exact Hok]. unfold MAX_CRAWL_DEPTH. lia.
  - eapply enqueued_keys_unique; eauto.
Qed.

Lemma seed_inv (E : Env) (key url : string) (w : World) :
  queue_inv (queue_of w) ->
  queue_inv (queue_of (snd (queue_add E key url 0 1 HUB_REPLY_DEPTH w))).
Proof.
  intros [Hok Hu]. rewrite queue_add_queue. unfold insert_queue_row. cbn [q_key].
  destruct (has_key key (queue_of w)) eqn:Hk; [now split|]. split.
  - rewrite queue_ok_snoc, Hok. reflexivity.
  - rewrite keys_unique_snoc, Hu. cbn [q_key]. now rewrite Hk.
Qed.

Lemma requeue_inv (E : Env) (w : World) :
  queue_inv (queue_of w) -> queue_inv (queue_of (snd (queue_reset_hubs E w))).
Proof.
  intros [Hok Hu]. rewrite queue_reset_hubs_run. cbn [snd].
  unfold queue_of at 1. cbn [db db_crawl_queue]. split.
  - unfold queue_ok. rewrite forallb_map_eq; [exact Hok|]. apply requeue_hub_ok.
  - unfold keys_unique. rewrite map_ext_eq; [exact Hu|]. apply requeue_hub_key.
Qed.

Lemma reachable_inv (E : Env) (w : World) :
  reachable E w -> queue_inv (queue_of w).
Proof.
  induction 1 as [t|s w H IH|s w H IH|it st w H IH Hin|w H IH|w w' H IH Heq].
  - split; reflexivity.
  - now apply store_inv.
  - now apply seed_inv.
  - now apply crawl_item_inv.
  - now apply requeue_inv.
  - now rewrite Heq.
Qed.

Lemma queue_ok_row (q : list QueueRow) (r : QueueRow) :
  queue_ok q = true -> In r q ->
  (0 <= q_depth r <= MAX_CRAWL_DEPTH)%Z /\ (q_is_hub r = 1%Z -> q_depth r = 0%Z).
Proof.
  intros Hq Hin. unfold queue_ok in Hq. rewrite forallb_forall in Hq.
  specialize (Hq r Hin). unfold row_ok in Hq.
  apply andb_prop in Hq as [Hq Himp]. apply andb_prop in Hq as [H0 H3].
  apply Z.leb_le in H0, H3. split; [lia|].
  intros Hh. rewrite Hh in Himp. simpl in Himp. now apply Z.eqb_eq in Himp.
Qed.

(** C1. In every state of [crawl_queue] that the pipeline reaches, the
    depth of every row is at most MAX_CRAWL_DEPTH, and crawling an item
    whose depth equals MAX_CRAWL_DEPTH enqueues nothing: the frontier
    items (key, url, depth, flags) after it are those before it. *)
Theorem depth_bound (E : Env) (w : World) :
  reachable E w ->
  (forall r, In r (queue_of w) -> (q_depth r <= MAX_CRAWL_DEPTH)%Z)
  /\ (forall it st,
        In it (map item_of_row (queue_of w)) ->
        i_depth it = MAX_CRAWL_DEPTH ->
        map item_of_row (queue_of (snd (crawl_item E it st w)))
        = map item_of_row (queue_of w))
  /\ (forall s w0,
        queue_of (snd (store_submission_and_discover E s MAX_CRAWL_DEPTH w0))
        = queue_of w0).
Proof.
  intros Hr. destruct (reachable_inv E w Hr) as [Hok Hu]. split; [|split].
  - intros r Hin. now apply (queue_ok_row _ _ Hok Hin).
  - intros it st Hin Hd.
    destruct (crawl_item_effect E it st w)
      as (q1 & status & err & now & st' & _ & _ & Hsame & Hq & _).
    rewrite Hq, Hsame.
    + apply map_ext_eq, mark_row_item.
    + apply at_bound_no_enqueue; [|exact Hd]. eapply queue_ok_item; eauto.
  - intros s w0. now apply store_at_bound.
Qed.

(** C10. In every state of [crawl_queue] that the pipeline reaches, a row
    with [is_hub = 1] has depth 0.  So for a hub item of such a state the
    guard of the hub branch holds, the rows that branch enqueues are at
    depth 1 with [is_hub = 0], and so is every row enqueued while the
    item is crawled. *)
Theorem hub_rows_at_depth_zero (E : Env) (w : World) :
  reachable E w ->
  (forall r, In r (queue_of w) -> q_is_hub r = 1%Z -> q_depth r = 0%Z)
  /\ (forall it,
        In it (map item_of_row (queue_of w)) -> i_is_hub it = 1%Z ->
        ((i_is_hub it =? 1)%Z && (i_depth it <=? MAX_CRAWL_DEPTH)%Z = true)
        /\ (forall links w0, exists added,
              queue_of (snd (enqueue_best_links E (i_depth it) links w0))
              = queue_of w0 ++ added
              /\ Forall (fun r => q_depth r = 1%Z /\ q_is_hub r = 0%Z) added)
        /\ (forall st, exists added status err now,
              queue_of (snd (crawl_item E it st w))
              = map (mark_row (i_key it) status err now) (queue_of w ++ added)
              /\ Forall (fun r => q_depth r = 1%Z /\ q_is_hub r = 0%Z) added)).
Proof.
  intros Hr. destruct (reachable_inv E w Hr) as [Hok Hu]. split.
  - intros r Hin Hh. now apply (queue_ok_row _ _ Hok Hin).
  - intros it Hin Hh.
    assert (Hd : i_depth it = 0%Z).
    { apply in_map_iff in Hin as (r & <- & Hin). cbn [item_of_row i_depth i_is_hub] in *.
      now apply (queue_ok_row _ _ Hok Hin). }
    rewrite Hd, Hh. split; [reflexivity|]. split.
    + intros links w0.
      destruct (enqueued_split _ _ _ (enqueue_best_links_grows E 0 links w0))
        as (added & Heq & Hall).
      exists added. split; [exact Heq|].
      eapply Forall_impl; [|exact Hall]. cbn beta. intros r (H1 & H2 & _). now split.
    + intros st.
      destruct (crawl_item_effect E it st w)
        as (q1 & status & err & now & st' & _ & Henq & _ & Hq & _).
      rewrite Hd in Henq.
      destruct (enqueued_split _ _ _ Henq) as (added & Heq & Hall).
      exists added, status, err, now. rewrite Hq, Heq. split; [reflexivity|].
      eapply Forall_impl; [|exact Hall]. cbn beta. intros r (H1 & H2 & _). now split.
Qed.

(* ================================================================== *)
(** ** Flair scan: the duplicate streak *)
(* ================================================================== *)

Lemma heartbeat_run (E : Env) (hb : Z) (w : World) :
  exists hb' w', heartbeat E hb w = (Ok hb', w') /\ db w' = db w.
Proof.
  unfold heartbeat, bind. rewrite ask_run.
  destruct (HEARTBEAT_EVERY_SECONDS <=? _)%Z; do 2 eexists; split; reflexivity.
Qed.

Lemma forallb_has_post_same (items : list Submission) (ps ps' : list PostRow) :
  ps' = ps ->
  forallb (fun s => has_post (s_id s) ps) items = true ->
  forallb (fun s => has_post (s_id s) ps') items = true.
Proof. now intros ->. Qed.

(** A run of duplicates, from a streak of [dup_streak st] up to the
    threshold: the loop leaves by [break] on the last of them. *)
Lemma flair_scan_duplicates (E : Env) (items : list Submission) :
  forall (st : FlairLocals) (w : World),
    items <> [] ->
    (0 <= dup_streak st)%Z ->
    (dup_streak st + Z.of_nat (List.length items) = STOP_DUP_STREAK)%Z ->
    forallb (fun s => has_post (s_id s) (posts_of w)) items = true ->
    exists hb w',
      (forall rest,
         flair_scan E None (listing_app items rest) st w
         = (Ok (Broke,
                mkFlairLocals (inserted_count st)
                  (seen st + Z.of_nat (List.length items)) hb STOP_DUP_STREAK),
            w'))
      /\ posts_of w' = posts_of w.
Proof.
  induction items as [|s more IH]; intros st w Hne H0 Hlen Hdup; [congruence|].
  cbn [forallb] in Hdup. apply andb_prop in Hdup as [Hs Hmore].
  destruct (store_run E s 0 w) as (w1 & Hstore & _ & Hposts).
  rewrite Hs in Hstore. cbn [negb] in Hstore. specialize (Hposts Hs).
  destruct (heartbeat_run E (heartbeat_at st) w1) as (hb1 & w2 & Hhb & Hdb).
  assert (Hposts2 : posts_of w2 = posts_of w).
  { unfold posts_of in *. now rewrite Hdb. }
  assert (Hstep : forall rest,
            flair_scan E None (listing_app (s :: more) rest) st w =
            (let st' := mkFlairLocals (inserted_count st) (seen st + 1) hb1
                          (dup_streak st + 1) in
             if (STOP_DUP_STREAK <=? dup_streak st + 1)%Z then (Ok (Broke, st'), w2)
             else flair_scan E None (listing_app more rest) st' w2)).
  { intros rest. cbn [listing_app flair_scan]. unfold bind at 1.
    rewrite deadline_none. unfold bind at 1. rewrite Hstore.
    unfold bind at 1. rewrite Hhb. cbv zeta.
    destruct (STOP_DUP_STREAK <=? dup_streak st + 1)%Z; reflexivity. }
  destruct more as [|s' more'].
  - exists hb1, w2. split; [|exact Hposts2].
    intros rest. rewrite Hstep. cbv zeta.
    change (List.length [s]) with 1%nat in *.
    replace (STOP_DUP_STREAK <=? dup_streak st + 1)%Z with true
      by (symmetry; apply Z.leb_le; lia).
    replace (dup_streak st + 1)%Z with STOP_DUP_STREAK by lia.
    reflexivity.
  - set (st' := mkFlairLocals (inserted_count st) (seen st + 1) hb1 (dup_streak st + 1)).
    destruct (IH st' w2) as (hb & w' & Hrun & Hp').
    + discriminate.
    + change (dup_streak st') with (dup_streak st + 1)%Z. lia.
    + change (dup_streak st') with (dup_streak st + 1)%Z.
      change (List.length (s :: s' :: more')) with (S (List.length (s' :: more'))) in Hlen.
      lia.
    + eapply forallb_has_post_same; [exact Hposts2|exact Hmore].
    + exists hb, w'. split; [|congruence].
      intros rest. rewrite Hstep. cbv zeta. fold st'.
      replace (STOP_DUP_STREAK <=? dup_streak st + 1)%Z with false.
      * rewrite Hrun.
        change (inserted_count st') with (inserted_count st).
        change (seen st') with (seen st + 1)%Z.
        change (List.length (s :: s' :: more')) with (S (List.length (s' :: more'))).
        replace (seen st + Z.of_nat (S (List.length (s' :: more'))))%Z
          with (seen st + 1 + Z.of_nat (List.length (s' :: more')))%Z by lia.
        reflexivity.
      * symmetry. apply Z.leb_gt.
        change (List.length (s :: s' :: more')) with (S (S (List.length more'))) in Hlen.
        lia.
Qed.

(** C9. With no deadline, a result stream whose first 2500 results are
    all in [posts] already makes the scan of the label stop by [break]
    after it has examined exactly 2500 of them: [seen] has grown by
    2500, nothing was inserted, and whatever follows those results in
    the stream is never looked at (the outcome is the same for every
    continuation [rest], a failing one included). *)
Theorem flair_scan_stops_at_dup_streak
    (E : Env) (items : list Submission) (st : FlairLocals) (w : World) :
  Z.of_nat (List.length items) = STOP_DUP_STREAK ->
  dup_streak st = 0%Z ->
  forallb (fun s => has_post (s_id s) (posts_of w)) items = true ->
  exists st' w',
    (forall rest,
       flair_scan E None (listing_app items rest) st w = (Ok (Broke, st'), w'))
    /\ seen st' = (seen st + STOP_DUP_STREAK)%Z
    /\ dup_streak st' = STOP_DUP_STREAK
    /\ inserted_count st' = inserted_count st
    /\ posts_of w' = posts_of w.
Proof.
  intros Hlen Hds Hdup.
  destruct (flair_scan_duplicates E items st w) as (hb & w' & Hrun & Hp).
  - intros ->. discriminate Hlen.
  - lia.
  - lia.
  - exact Hdup.
  - eexists. exists w'. split; [exact Hrun|]. cbn [seen dup_streak inserted_count].
    rewrite Hlen. repeat split. exact Hp.
Qed.

(* ================================================================== *)
(** ** Queue crawl: one failing item does not stop the batch *)
(* ================================================================== *)

Lemma row_of_has_key (key : string) (q : list QueueRow) :
  has_key key q = true <-> exists r, row_of key q = Some r.
Proof.
  unfold has_key, row_of. induction q as [|x q IH]; simpl.
  - split; [discriminate|]. intros [r H]. discriminate.
  - destruct (String.eqb (q_key x) key); simpl.
    + split; [intros _; now exists x|reflexivity].
    + exact IH.
Qed.

Lemma row_of_key (key : string) (q : list QueueRow) (r : QueueRow) :
  row_of key q = Some r -> q_key r = key.
Proof.
  unfold row_of. intros H. apply find_some in H as [_ H]. now apply String.eqb_eq.
Qed.

Lemma row_of_app_present (key : string) (q added : list QueueRow) :
  has_key key q = true -> row_of key (q ++ added) = row_of key q.
Proof.
  unfold has_key, row_of. induction q as [|x q IH]; simpl; [discriminate|].
  destruct (String.eqb (q_key x) key); simpl; [reflexivity|exact IH].
Qed.

Lemma row_of_mark_other (key key' : string) (status : Status) (err : option string)
    (now : string) (q : list QueueRow) :
  key' <> key ->
  row_of key' (map (mark_row key status err now) q) = row_of key' q.
Proof.
  intros Hne. unfold row_of. induction q as [|x q IH]; simpl; [reflexivity|].
  rewrite mark_row_key.
  destruct (String.eqb (q_key x) key') eqn:Hk; [|exact IH].
  apply String.eqb_eq in Hk. unfold mark_row.
  destruct (String.eqb (q_key x) key) eqn:Hk2; [|reflexivity].
  apply String.eqb_eq in Hk2. congruence.
Qed.

Lemma row_of_mark_self (key : string) (status : Status) (err : option string)
    (now : string) (q : list QueueRow) (r : QueueRow) :
  row_of key q = Some r ->
  row_of key (map (mark_row key status err now) q)
  = Some (mkQueueRow (q_key r) (q_url r) (q_depth r) status err (q_is_hub r)
            (q_max_comment_depth r) (q_added_at_utc r) now).
Proof.
  unfold row_of. induction q as [|x q IH]; simpl; [discriminate|].
  rewrite mark_row_key.
  destruct (String.eqb (q_key x) key) eqn:Hk.
  - intros [= ->]. unfold mark_row. now rewrite Hk.
  - exact IH.
Qed.

Lemma has_key_map_mark (key key' : string) (status : Status) (err : option string)
    (now : string) (q : list QueueRow) :
  has_key key' (map (mark_row key status err now) q) = has_key key' q.
Proof.
  rewrite !has_key_existsb. f_equal. apply map_ext_eq, mark_row_key.
Qed.

(** What crawling an item does to its own row and to the other rows. *)
Lemma crawl_item_rows (E : Env) (it : QItem) (st : CrawlLocals) (w : World) :
  has_key (i_key it) (queue_of w) = true ->
  exists st' status,
    crawl_item E it st w = (Ok st', snd (crawl_item E it st w))
    /\ status_of (i_key it) (queue_of (snd (crawl_item E it st w))) = Some status
    /\ ((status = done
         /\ last_error_of (i_key it) (queue_of (snd (crawl_item E it st w))) = None
         /\ st' = mkCrawlLocals (cl_done st + 1) (cl_errors st) (cl_heartbeat_at st)
         /\ exists w1, crawl_item_work E it w = (Ok tt, w1))
        \/ (status = error
            /\ st' = mkCrawlLocals (cl_done st) (cl_errors st + 1) (cl_heartbeat_at st)
            /\ exists msg w1, crawl_item_work E it w = (Raise msg, w1)
                 /\ last_error_of (i_key it) (queue_of (snd (crawl_item E it st w)))
                    = Some (take 500 msg)))
    /\ (forall key, has_key key (queue_of w) = true ->
          has_key key (queue_of (snd (crawl_item E it st w))) = true)
    /\ (forall key, has_key key (queue_of w) = true -> key <> i_key it ->
          row_of key (queue_of (snd (crawl_item E it st w))) = row_of key (queue_of w)).
Proof.
  intros Hk.
  destruct (crawl_item_effect E it st w)
    as (q1 & status & err & now & st' & Hrun & Henq & _ & Hq & Hcases).
  destruct (enqueued_split _ _ _ Henq) as (added & Hq1 & _).
  apply row_of_has_key in Hk as Hrow. destruct Hrow as [r Hr].
  assert (Hself : row_of (i_key it) (queue_of (snd (crawl_item E it st w)))
                  = Some (mkQueueRow (q_key r) (q_url r) (q_depth r) status err
                            (q_is_hub r) (q_max_comment_depth r)
                            (q_added_at_utc r) now)).
  { rewrite Hq. apply row_of_mark_self. rewrite Hq1.
    now rewrite row_of_app_present. }
  exists st', status. split; [exact Hrun|]. split.
  { unfold status_of. now rewrite Hself. }
  split.
  { unfold last_error_of. rewrite Hself. cbn [q_last_error].
    destruct Hcases as [(-> & -> & -> & Hw)|(-> & -> & msg & w1 & Hw & ->)].
    - left. auto.
    - right. repeat split. now exists msg, w1. }
  split.
  - intros key Hkey. rewrite Hq, has_key_map_mark, Hq1, has_key_app, Hkey. reflexivity.
  - intros key Hkey Hne. rewrite Hq, row_of_mark_other by exact Hne.
    rewrite Hq1. now apply row_of_app_present.
Qed.



Lemma count_status_frame (s : Status) (q q' : list QueueRow) (batch : list QItem) :
  (forall it, In it batch -> row_of (i_key it) q' = row_of (i_key it) q) ->
  count_status s q' batch = count_status s q batch.
Proof.
  intros H. unfold count_status. f_equal. f_equal.
  induction batch as [|it batch IH]; [reflexivity|].
  cbn [filter].
  assert (Hit : has_status s q' it = has_status s q it).
  { unfold has_status, status_of. now rewrite (H it (or_introl eq_refl)). }
  rewrite Hit, IH; [reflexivity|]. intros it' Hin. apply H. now right.
Qed.


(** *** The batch that is popped *)

Lemma insert_by_added_perm (r : QueueRow) (l : list QueueRow) :
  Permutation (insert_by_added r l) (r :: l).
Proof.
  induction l as [|x l IH]; simpl; [apply Permutation_refl|].
  destruct (String.leb _ _); [apply Permutation_refl|].
  eapply Permutation_trans; [apply perm_skip, IH|apply perm_swap].
Qed.

Lemma order_by_added_perm (l : list QueueRow) : Permutation (order_by_added l) l.
Proof.
  unfold order_by_added. induction l as [|x l IH]; simpl; [constructor|].
  eapply Permutation_trans; [apply insert_by_added_perm|now apply perm_skip].
Qed.

Lemma In_firstn {A : Type} (n : nat) (l : list A) (x : A) :
  In x (firstn n l) -> In x l.
Proof.
  intros H. rewrite <- (firstn_skipn n l). apply in_or_app. now left.
Qed.

Lemma NoDup_firstn_keys {A : Type} (n : nat) (l : list A) :
  NoDup l -> NoDup (firstn n l).
Proof.
  intros H. rewrite <- (firstn_skipn n l) in H. now apply NoDup_app_remove_r in H.
Qed.

Lemma NoDup_keys_filter (p : QueueRow -> bool) (q : list QueueRow) :
  NoDup (map q_key q) -> NoDup (map q_key (filter p q)).
Proof.
  induction q as [|x q IH]; simpl; intros H; [constructor|].
  inversion H as [|k ks Hnotin Hnd]; subst.
  destruct (p x); [|now apply IH]. simpl. constructor; [|now apply IH].
  intros Hin. apply Hnotin. apply in_map_iff in Hin as (r & Hr & Hin).
  apply filter_In in Hin as [Hin _]. apply in_map_iff. now exists r.
Qed.

(** The rows of a batch are queued rows of the table. *)
Lemma pop_rows_In (n : nat) (q : list QueueRow) (r : QueueRow) :
  In r (pop_rows n q) -> In r q /\ is_queued r = true.
Proof.
  unfold pop_rows. intros H. apply In_firstn in H.
  apply (Permutation_in _ (order_by_added_perm _)) in H.
  now apply filter_In in H.
Qed.

(** Under the primary key, the keys of a batch are distinct. *)
Lemma pop_rows_distinct (n : nat) (q : list QueueRow) :
  keys_unique q = true -> distinct (map q_key (pop_rows n q)) = true.
Proof.
  unfold keys_unique, pop_rows. rewrite !distinct_NoDup. intros H.
  rewrite <- firstn_map. apply NoDup_firstn_keys.
  eapply Permutation_NoDup.
  - apply Permutation_sym, Permutation_map, order_by_added_perm.
  - now apply NoDup_keys_filter.
Qed.

Lemma map_key_items (l : list QueueRow) : map i_key (map item_of_row l) = map q_key l.
Proof. rewrite map_map. reflexivity. Qed.

Lemma pop_batch_keys (n : nat) (q : list QueueRow) :
  keys_unique q = true ->
  distinct (map i_key (map item_of_row (pop_rows n q))) = true
  /\ forallb (fun it => has_key (i_key it) q) (map item_of_row (pop_rows n q)) = true.
Proof.
  intros Hu. split.
  - rewrite map_key_items. now apply pop_rows_distinct.
  - apply forallb_forall. intros it Hin.
    apply in_map_iff in Hin as (r & <- & Hr). apply pop_rows_In in Hr as [Hr _].
    apply has_key_In. cbn [item_of_row i_key]. now apply in_map.
Qed.

(** *** How the work on an item ends *)


Lemma crawl_item_work_fetched (E : Env) (it : QItem) (s : Submission) (w : World) :
  reddit_submission E (tick w) (item_sid it) (i_url it) = Got s ->
  comments_ok s = true ->
  exists w1, crawl_item_work E it w = (Ok tt, w1).
Proof.
  intros H Hc. unfold crawl_item_work. unfold bind at 1. unfold bind at 1.
  rewrite ask_run, H. cbn [of_fetched ret].
  unfold bind at 1.
  destruct (store_run E s (i_depth it) (mkWorld (db w) (S (tick w)))) as (w1 & Hs & _).
  rewrite Hs.
  destruct (_ && _).
  - unfold extract_reddit_links_from_best_comments, bind, of_fetched.
    unfold comments_ok in Hc. destruct (s_comments s) as [cs|m]; [|discriminate].
    cbn [ret].
    pose proof (enqueue_best_links_ok E (i_depth it)
                  (sorted_set (flat_map (comment_links E (i_max_comment_depth it)
                                HUB_MAX_REPLIES_PER_TOP)
                     (firstn HUB_TOP_LEVEL_COMMENTS cs))) w1) as Hok.
    destruct (enqueue_best_links _ _ _ _) as [r w2]. cbn [fst] in Hok. subst r.
    now exists w2.
  - now exists w1.
Qed.


Lemma crawl_item_fetched (E : Env) (it : QItem) (s : Submission)
    (st : CrawlLocals) (w : World) :
  has_key (i_key it) (queue_of w) = true ->
  reddit_submission E (tick w) (item_sid it) (i_url it) = Got s ->
  comments_ok s = true ->
  crawl_item E it st w
    = (Ok (mkCrawlLocals (cl_done st + 1) (cl_errors st) (cl_heartbeat_at st)),
       snd (crawl_item E it st w))
  /\ status_of (i_key it) (queue_of (snd (crawl_item E it st w))) = Some done.
Proof.
  intros Hk Hf Hc. destruct (crawl_item_work_fetched E it s w Hf Hc) as (w1 & Hw1).
  destruct (crawl_item_rows E it st w Hk) as (st' & status & Hrun & Hstat & Hcases & _).
  destruct Hcases as [(-> & _ & -> & _)|(_ & _ & msg' & w2 & Hw & _)].
  - auto.
  - congruence.
Qed.





Lemma queue_pop_batch_run (n : nat) (w : World) :
  queue_pop_batch n w = (Ok (map item_of_row (pop_rows n (queue_of w))), w).
Proof. reflexivity. Qed.


(* ================================================================== *)
(** ** The phases keep what the units of work keep *)
(* ================================================================== *)

Lemma deadline_reached_run (E : Env) (deadline_ts : option Z) (w : World) :
  exists late t, deadline_reached E deadline_ts w = (Ok late, mkWorld (db w) t).
Proof.
  destruct deadline_ts as [d|].
  - do 2 eexists. reflexivity.
  - exists false, (tick w). destruct w. reflexivity.
Qed.

Lemma heartbeat_clock (E : Env) (hb : Z) (w : World) :
  exists hb' t, heartbeat E hb w = (Ok hb', mkWorld (db w) t).
Proof.
  unfold heartbeat, bind. rewrite ask_run.
  destruct (HEARTBEAT_EVERY_SECONDS <=? _)%Z; do 2 eexists; reflexivity.
Qed.

Section Phases.

Variable E : Env.
Variable P : World -> Prop.
Hypothesis HP : unit_stable E P.
Variable deadline_ts : option Z.

Let P_clock : forall w t, P w -> P (mkWorld (db w) t) := proj1 HP.
Let P_store := proj1 (proj2 HP).
Let P_seed := proj1 (proj2 (proj2 HP)).
Let P_crawl := proj1 (proj2 (proj2 (proj2 HP))).
Let P_requeue := proj2 (proj2 (proj2 (proj2 HP))).

Lemma flair_scan_stable (results : listing) :
  forall (st : FlairLocals) (w : World),
    P w -> keeps P (flair_scan E deadline_ts results st w).
Proof.
  induction results as [|s rest IH|msg]; intros st w Hw.
  - split; [exact Hw|discriminate].
  - cbn [flair_scan]. unfold bind at 1.
    destruct (deadline_reached_run E deadline_ts w) as (late & t & ->).
    assert (Hw0 := P_clock w t Hw).
    destruct late; [split; [exact Hw0|discriminate]|].
    unfold bind at 1.
    destruct (store_run E s 0 (mkWorld (db w) t)) as (w1 & Hs & _).
    assert (Hw1 := P_store s _ Hw0). rewrite Hs in Hw1 |- *. cbn [snd] in Hw1.
    unfold bind at 1.
    destruct (heartbeat_clock E (heartbeat_at st) w1) as (hb & t2 & ->).
    assert (Hw2 := P_clock w1 t2 Hw1).
    destruct (STOP_DUP_STREAK <=? _)%Z; [split; [exact Hw2|discriminate]|].
    now apply IH.
  - split; [exact Hw|discriminate].
Qed.

Lemma flair_labels_stable (flairs : list string) :
  forall (st : FlairLocals) (w : World),
    P w -> keeps P (flair_labels E deadline_ts flairs st w).
Proof.
  induction flairs as [|flair more IH]; intros st w Hw.
  - split; [exact Hw|discriminate].
  - cbn [flair_labels]. unfold bind at 1.
    destruct (deadline_reached_run E deadline_ts w) as (late & t & ->).
    assert (Hw0 := P_clock w t Hw).
    destruct late; [split; [exact Hw0|discriminate]|].
    unfold bind at 1. rewrite ask_run. cbn [db tick].
    assert (Hw1 := P_clock _ (S t) Hw0). cbn [db] in Hw1.
    unfold bind at 1.
    match goal with
    | |- context [flair_scan E deadline_ts ?r ?s ?x] =>
        destruct (flair_scan_stable r s x Hw1) as [Hp Hf];
        destruct (flair_scan E deadline_ts r s x) as [[[ex st']|msg|] w2]
    end; cbn [fst snd] in *.
    + destruct ex; try (now apply IH). split; [exact Hp|discriminate].
    + split; [exact Hp|discriminate].
    + contradiction.
Qed.

Lemma ingest_stable (w : World) :
  P w -> keeps P (ingest_dd_flair_posts E deadline_ts w).
Proof.
  intros Hw. unfold ingest_dd_flair_posts. unfold bind at 1. rewrite ask_run.
  apply flair_labels_stable. now apply P_clock.
Qed.

Lemma hub_scan_stable (results : listing) :
  forall (added : Z) (w : World),
    P w -> keeps P (hub_scan E deadline_ts results added w).
Proof.
  induction results as [|s rest IH|msg]; intros added w Hw.
  - split; [exact Hw|discriminate].
  - cbn [hub_scan]. unfold bind at 1.
    destruct (deadline_reached_run E deadline_ts w) as (late & t & ->).
    assert (Hw0 := P_clock w t Hw).
    destruct late; [split; [exact Hw0|discriminate]|].
    unfold bind at 1.
    assert (Hw1 := P_seed s _ Hw0).
    rewrite queue_add_run in Hw1 |- *. cbn [snd] in Hw1.
    now apply IH.
  - split; [exact Hw|discriminate].
Qed.

Lemma hub_queries_stable (queries : list string) :
  forall (added : Z) (w : World),
    P w -> keeps P (hub_queries E deadline_ts queries added w).
Proof.
  induction queries as [|q more IH]; intros added w Hw.
  - split; [exact Hw|discriminate].
  - cbn [hub_queries]. unfold bind at 1.
    destruct (deadline_reached_run E deadline_ts w) as (late & t & ->).
    assert (Hw0 := P_clock w t Hw).
    destruct late; [split; [exact Hw0|discriminate]|].
    unfold bind at 1. rewrite ask_run. cbn [db tick].
    assert (Hw1 := P_clock _ (S t) Hw0). cbn [db] in Hw1.
    unfold bind at 1.
    match goal with
    | |- context [hub_scan E deadline_ts ?r ?a ?x] =>
        destruct (hub_scan_stable r a x Hw1) as [Hp Hf];
        destruct (hub_scan E deadline_ts r a x) as [[[ex n]|msg|] w2]
    end; cbn [fst snd] in *.
    + destruct ex; try (now apply IH). split; [exact Hp|discriminate].
    + split; [exact Hp|discriminate].
    + contradiction.
Qed.

Lemma discover_hub_posts_stable (w : World) :
  P w -> keeps P (discover_hub_posts E deadline_ts w).
Proof. apply hub_queries_stable. Qed.

(** An item of the queue stays one while other items are crawled. *)
Lemma crawl_item_keeps_items (it it' : QItem) (st : CrawlLocals) (w : World) :
  In it (map item_of_row (queue_of w)) ->
  In it (map item_of_row (queue_of (snd (crawl_item E it' st w)))).
Proof.
  intros Hin.
  destruct (crawl_item_effect E it' st w)
    as (q1 & status & err & now & st' & _ & Henq & _ & Hq & _).
  destruct (enqueued_split _ _ _ Henq) as (added & -> & _).
  rewrite Hq, map_ext_eq by apply mark_row_item.
  rewrite map_app. apply in_or_app. now left.
Qed.

Lemma crawl_batch_stable (batch : list QItem) :
  forall (st : CrawlLocals) (w : World),
    P w ->
    (forall it, In it batch -> In it (map item_of_row (queue_of w))) ->
    batch_ends P (crawl_batch E deadline_ts batch st w).
Proof.
  induction batch as [|it rest IH]; intros st w Hw Hin.
  - split; [exact Hw|]. exists Exhausted, st. split; [reflexivity|discriminate].
  - cbn [crawl_batch]. unfold bind at 1.
    destruct (deadline_reached_run E deadline_ts w) as (late & t & ->).
    assert (Hw0 := P_clock w t Hw).
    destruct late.
    { split; [exact Hw0|]. exists Returned, st. split; [reflexivity|discriminate]. }
    unfold bind at 1.
    assert (Hin0 : forall it', In it' (it :: rest) ->
                     In it' (map item_of_row (queue_of (mkWorld (db w) t)))).
    { exact Hin. }
    assert (Hw1 := P_crawl it st _ Hw0 (Hin0 it (or_introl eq_refl))).
    destruct (crawl_item_effect E it st (mkWorld (db w) t))
      as (_ & _ & _ & _ & st1 & Hrun & _).
    assert (Hkeep : forall it', In it' rest ->
              In it' (map item_of_row
                        (queue_of (snd (crawl_item E it st (mkWorld (db w) t)))))).
    { intros it' Hit'. apply crawl_item_keeps_items, Hin0. now right. }
    rewrite Hrun. revert Hw1 Hkeep.
    generalize (snd (crawl_item E it st (mkWorld (db w) t))). intros w1 Hw1 Hkeep.
    unfold bind at 1.
    destruct (heartbeat_clock E (cl_heartbeat_at st1) w1) as (hb & t2 & ->).
    apply IH; [now apply P_clock|exact Hkeep].
Qed.

Lemma pop_batch_items (n : nat) (w : World) (it : QItem) :
  In it (map item_of_row (pop_rows n (queue_of w))) ->
  In it (map item_of_row (queue_of w)).
Proof.
  intros Hin. apply in_map_iff in Hin as (r & <- & Hr).
  apply pop_rows_In in Hr as [Hr _]. now apply in_map.
Qed.

Lemma crawl_loop_stable (fuel : nat) :
  forall (st : CrawlLocals) (w : World),
    P w -> P (snd (crawl_loop fuel E deadline_ts st w)).
Proof.
  induction fuel as [|fuel IH]; intros st w Hw; [exact Hw|].
  cbn [crawl_loop]. unfold bind at 1.
  destruct (deadline_reached_run E deadline_ts w) as (late & t & ->).
  assert (Hw0 := P_clock w t Hw).
  destruct late; [exact Hw0|].
  unfold bind at 1. rewrite queue_pop_batch_run.
  destruct (map item_of_row (pop_rows MAX_QUEUE_BATCH (queue_of (mkWorld (db w) t))))
    as [|it rest] eqn:Hpop; [exact Hw0|].
  unfold bind at 1.
  destruct (crawl_batch_stable (it :: rest) st _ Hw0) as (Hp & ex & st' & Hf & Hex).
  { intros it' Hin. rewrite <- Hpop in Hin. now apply pop_batch_items in Hin. }
  destruct (crawl_batch E deadline_ts (it :: rest) st (mkWorld (db w) t)) as [r w1].
  cbn [fst snd] in *. subst r. cbn [fst snd].
  destruct ex; [now apply IH|contradiction|exact Hp].
Qed.

Lemma crawl_queue_stable (fuel : nat) (w : World) :
  P w -> P (snd (crawl_queue fuel E deadline_ts w)).
Proof.
  intros Hw. unfold crawl_queue. unfold bind at 1. rewrite ask_run.
  apply crawl_loop_stable. now apply P_clock.
Qed.

End Phases.

(** *** Two properties that the units of work keep *)

Lemma reachable_stable (E : Env) : unit_stable E (reachable E).
Proof.
  unfold unit_stable. split; [|split; [|split; [|split]]].
  - intros w t H. now apply (reach_frame E w).
  - intros s w H. now apply reach_store.
  - intros s w H. now apply reach_seed.
  - intros it st w H Hin. now apply reach_crawl.
  - intros w H. now apply reach_requeue.
Qed.


(* ================================================================== *)
(** ** Queue crawl ends *)
(* ================================================================== *)

Lemma lex5_wf : well_founded lex5.
Proof.
  unfold lex5, lex4, lex3, lex2.
  repeat (apply wf_slexprod; [apply lt_wf|]). apply lt_wf.
Qed.

Lemma smaller_wf : well_founded smaller.
Proof. apply wf_clos_trans, lex5_wf. Qed.

(** The measure goes down when the count at one level goes down and the
    counts at the levels above stay. *)
Lemma lex5_at (q q' : list QueueRow) (L : nat) :
  (L <= 4)%nat ->
  (forall n, (L < n)%nat -> (n <= 4)%nat -> queued_at n q' = queued_at n q) ->
  (queued_at L q' < queued_at L q)%nat ->
  lex5 (measure q') (measure q).
Proof.
  intros HL Hsame Hlt. unfold measure, lex5, lex4, lex3, lex2.
  destruct L as [|[|[|[|[|L]]]]]; try lia.
  - rewrite (Hsame 4%nat), (Hsame 3%nat), (Hsame 2%nat), (Hsame 1%nat) by lia.
    apply right_slex, right_slex, right_slex, right_slex. exact Hlt.
  - rewrite (Hsame 4%nat), (Hsame 3%nat), (Hsame 2%nat) by lia.
    apply right_slex, right_slex, right_slex, left_slex. exact Hlt.
  - rewrite (Hsame 4%nat), (Hsame 3%nat) by lia.
    apply right_slex, right_slex, left_slex. exact Hlt.
  - rewrite (Hsame 4%nat) by lia.
    apply right_slex, left_slex. exact Hlt.
  - apply left_slex. exact Hlt.
Qed.

Lemma queued_at_app (n : nat) (q a : list QueueRow) :
  queued_at n (q ++ a) = (queued_at n q + queued_at n a)%nat.
Proof. unfold queued_at. now rewrite filter_app, length_app. Qed.

Lemma queued_at_cons (n : nat) (x : QueueRow) (q : list QueueRow) :
  queued_at n (x :: q)
  = ((if is_queued x && (level x =? n)%nat then 1 else 0) + queued_at n q)%nat.
Proof.
  unfold queued_at. cbn [filter].
  destruct (is_queued x && (level x =? n)%nat); reflexivity.
Qed.

Lemma enqueued_fresh (d : Z) (q q' : list QueueRow) :
  enqueued d q q' ->
  exists added,
    q' = q ++ added
    /\ Forall (fun r => q_depth r = d /\ q_is_hub r = 0%Z
                        /\ has_key (q_key r) q = false) added.
Proof.
  induction 1 as [q|q q' r H IH Hk Hd Hh Hs].
  - exists []. split; [now rewrite app_nil_r|constructor].
  - destruct IH as (added & -> & Hall). exists (added ++ [r]). split.
    + now rewrite app_assoc.
    + apply Forall_app. split; [exact Hall|]. constructor; [|constructor].
      rewrite has_key_app in Hk. apply orb_false_elim in Hk as [Hk _]. auto.
Qed.

Lemma mark_absent (key : string) (status : Status) (err : option string)
    (now : string) (q : list QueueRow) :
  has_key key q = false -> map (mark_row key status err now) q = q.
Proof.
  unfold has_key. induction q as [|x q IH]; simpl; intros H; [reflexivity|].
  apply orb_false_elim in H as [Hx Hq]. unfold mark_row at 1. rewrite Hx.
  f_equal. now apply IH.
Qed.

Lemma mark_fresh (key : string) (status : Status) (err : option string)
    (now : string) (q added : list QueueRow) :
  has_key key q = true ->
  Forall (fun r => has_key (q_key r) q = false) added ->
  map (mark_row key status err now) added = added.
Proof.
  intros Hk Hall. induction Hall as [|x l Hx Hl IH]; simpl; [reflexivity|].
  rewrite IH. f_equal. unfold mark_row.
  destruct (String.eqb (q_key x) key) eqn:He; [|reflexivity].
  apply String.eqb_eq in He. congruence.
Qed.

Lemma level_mark (key : string) (status : Status) (err : option string)
    (now : string) (r : QueueRow) :
  level (mark_row key status err now r) = level r.
Proof. unfold mark_row. destruct (String.eqb _ _); reflexivity. Qed.

(** Marking the one row of a key takes it out of the queued rows of
    its level and leaves the other counts. *)
Lemma queued_at_mark (n : nat) (status : Status) (err : option string)
    (now : string) (q : list QueueRow) (r : QueueRow) :
  keys_unique q = true -> In r q -> status <> queued ->
  (queued_at n (map (mark_row (q_key r) status err now) q)
   + (if is_queued r && (level r =? n)%nat then 1 else 0))%nat
  = queued_at n q.
Proof.
  intros Hu Hin Hs. induction q as [|x q IH]; [contradiction|].
  unfold keys_unique in Hu. cbn [map distinct] in Hu.
  apply andb_prop in Hu as [Hx Hq]. apply negb_true_iff in Hx.
  rewrite <- has_key_existsb in Hx.
  cbn [map]. rewrite !queued_at_cons.
  destruct Hin as [->|Hin].
  - rewrite mark_absent by exact Hx.
    assert (Hm : is_queued (mark_row (q_key r) status err now r) = false).
    { unfold mark_row. rewrite String.eqb_refl. unfold is_queued. cbn [q_status].
      destruct status; [congruence|reflexivity|reflexivity]. }
    rewrite Hm. cbn [andb]. lia.
  - assert (Hne : String.eqb (q_key x) (q_key r) = false).
    { destruct (String.eqb (q_key x) (q_key r)) eqn:He; [|reflexivity].
      apply String.eqb_eq in He.
      assert (has_key (q_key x) q = true).
      { apply has_key_In. rewrite He. now apply in_map. }
      congruence. }
    assert (Hm : mark_row (q_key r) status err now x = x).
    { unfold mark_row. now rewrite Hne. }
    rewrite Hm. specialize (IH Hq Hin). lia.
Qed.

Lemma queued_at_none (n L : nat) (added : list QueueRow) :
  Forall (fun r => (level r < L)%nat) added -> (L <= n)%nat ->
  queued_at n added = 0%nat.
Proof.
  intros Hall Hn. induction Hall as [|x l Hx Hl IH]; [reflexivity|].
  rewrite queued_at_cons, IH.
  replace (level x =? n)%nat with false by (symmetry; apply Nat.eqb_neq; lia).
  now rewrite andb_false_r.
Qed.

Lemma level_le_4 (r : QueueRow) : row_ok r = true -> (level r <= 4)%nat.
Proof.
  unfold row_ok, level, MAX_CRAWL_DEPTH. intros H.
  apply andb_prop in H as [H _]. apply andb_prop in H as [H0 H3].
  apply Z.leb_le in H0, H3. destruct (q_is_hub r =? 1)%Z; lia.
Qed.

(** The rows an item enqueues are below its own level. *)
Lemma enqueued_level (r x : QueueRow) :
  row_ok r = true -> may_enqueue (item_of_row r) = true ->
  q_depth x = (q_depth r + 1)%Z -> q_is_hub x = 0%Z ->
  (level x < level r)%nat.
Proof.
  unfold row_ok, may_enqueue, level, MAX_CRAWL_DEPTH. cbn [item_of_row i_depth i_is_hub].
  intros Hok Hm Hd Hh. rewrite Hd, Hh. cbn [Z.eqb].
  apply andb_prop in Hok as [Hok Himp]. apply andb_prop in Hok as [H0 H3].
  apply Z.leb_le in H0, H3.
  destruct (q_is_hub r =? 1)%Z.
  - simpl in Himp. apply Z.eqb_eq in Himp. rewrite Himp. simpl. lia.
  - rewrite andb_false_l, orb_false_r in Hm. apply Z.ltb_lt in Hm. lia.
Qed.

Lemma row_of_In (key : string) (q : list QueueRow) (r : QueueRow) :
  row_of key q = Some r -> In r q.
Proof. unfold row_of. intros H. now apply find_some in H. Qed.

(** Crawling a queued item of a well-formed queue lowers the measure. *)
Lemma crawl_item_decreases (E : Env) (it : QItem) (st : CrawlLocals) (w : World) :
  queue_inv (queue_of w) -> queued_item (queue_of w) it ->
  lex5 (measure (queue_of (snd (crawl_item E it st w)))) (measure (queue_of w)).
Proof.
  intros [Hok Hu] (r & Hrow & Hqd & Hit).
  assert (Hin := row_of_In _ _ _ Hrow).
  assert (Hkey := row_of_key _ _ _ Hrow).
  assert (Hrok : row_ok r = true).
  { unfold queue_ok in Hok. rewrite forallb_forall in Hok. now apply Hok. }
  assert (Hk : has_key (i_key it) (queue_of w) = true).
  { apply row_of_has_key. now exists r. }
  destruct (crawl_item_effect E it st w)
    as (q1 & status & err & now & st' & _ & Henq & Hsame & Hq & Hcases).
  assert (Hstatus : status <> queued).
  { destruct Hcases as [(-> & _)|(-> & _)]; discriminate. }
  destruct (enqueued_fresh _ _ _ Henq) as (added & Hq1 & Hall).
  assert (Hadded : Forall (fun x => (level x < level r)%nat) added).
  { destruct (may_enqueue it) eqn:Hm.
    - eapply Forall_impl; [|exact Hall]. cbn beta. intros x (Hd & Hh & _).
      apply enqueued_level.
      + exact Hrok.
      + now rewrite Hit.
      + rewrite Hd, <- Hit. reflexivity.
      + exact Hh.
    - specialize (Hsame eq_refl). rewrite Hsame in Hq1.
      assert (added = []).
      { apply (f_equal (@List.length QueueRow)) in Hq1.
        rewrite length_app in Hq1. destruct added; [reflexivity|simpl in Hq1; lia]. }
      subst added. constructor. }
  assert (Hcount : forall n,
            (queued_at n (queue_of (snd (crawl_item E it st w)))
             + (if (level r =? n)%nat then 1 else 0))%nat
            = (queued_at n (queue_of w) + queued_at n added)%nat).
  { intros n. rewrite Hq, Hq1, map_app, queued_at_app.
    rewrite (mark_fresh (i_key it) status err now (queue_of w) added Hk).
    - rewrite <- Hkey.
      pose proof (queued_at_mark n status err now (queue_of w) r Hu Hin Hstatus) as Hm.
      rewrite Hqd in Hm. cbn [andb] in Hm. lia.
    - eapply Forall_impl; [|exact Hall]. cbn beta. intros x (_ & _ & Hx). exact Hx. }
  apply (lex5_at _ _ (level r)).
  - now apply level_le_4.
  - intros n Hn _. specialize (Hcount n).
    rewrite (queued_at_none n (level r) added Hadded) in Hcount by lia.
    replace (level r =? n)%nat with false in Hcount
      by (symmetry; apply Nat.eqb_neq; lia).
    lia.
  - specialize (Hcount (level r)).
    rewrite (queued_at_none (level r) (level r) added Hadded) in Hcount by lia.
    rewrite Nat.eqb_refl in Hcount. lia.
Qed.

Lemma row_of_unique (q : list QueueRow) (r : QueueRow) :
  keys_unique q = true -> In r q -> row_of (q_key r) q = Some r.
Proof.
  unfold keys_unique, row_of. induction q as [|x q IH]; intros Hu Hin; [contradiction|].
  cbn [map distinct] in Hu. apply andb_prop in Hu as [Hx Hq].
  apply negb_true_iff in Hx. rewrite <- has_key_existsb in Hx.
  cbn [find]. destruct Hin as [->|Hin].
  - now rewrite String.eqb_refl.
  - destruct (String.eqb (q_key x) (q_key r)) eqn:He; [|now apply IH].
    apply String.eqb_eq in He.
    assert (has_key (q_key x) q = true).
    { apply has_key_In. rewrite He. now apply in_map. }
    congruence.
Qed.

Lemma pop_queued_items (n : nat) (q : list QueueRow) (it : QItem) :
  keys_unique q = true ->
  In it (map item_of_row (pop_rows n q)) -> queued_item q it.
Proof.
  intros Hu Hin. apply in_map_iff in Hin as (r & <- & Hr).
  apply pop_rows_In in Hr as [Hr Hq]. exists r.
  split; [|split; [exact Hq|reflexivity]].
  cbn [item_of_row i_key]. now apply row_of_unique.
Qed.

Lemma queued_item_In (q : list QueueRow) (it : QItem) :
  queued_item q it -> In it (map item_of_row q).
Proof.
  intros (r & Hrow & _ & <-). apply in_map. now apply row_of_In in Hrow.
Qed.

Lemma queued_item_has_key (q : list QueueRow) (it : QItem) :
  queued_item q it -> has_key (i_key it) q = true.
Proof.
  intros (r & Hrow & _). apply row_of_has_key. now exists r.
Qed.

(** The loop over a batch of queued items ends, keeps the queue well
    formed, and lowers the measure when it goes through the whole of a
    batch that is not empty. *)
Lemma crawl_batch_decreases (E : Env) (deadline_ts : option Z) (batch : list QItem) :
  forall (st : CrawlLocals) (w : World),
    queue_inv (queue_of w) ->
    (forall it, In it batch -> queued_item (queue_of w) it) ->
    distinct (map i_key batch) = true ->
    exists ex st' w',
      crawl_batch E deadline_ts batch st w = (Ok (ex, st'), w')
      /\ ex <> Broke
      /\ queue_inv (queue_of w')
      /\ (ex = Exhausted -> batch <> [] ->
          smaller (measure (queue_of w')) (measure (queue_of w))).
Proof.
  induction batch as [|it rest IH]; intros st w Hinv Hitems Hd.
  - exists Exhausted, st, w. split; [reflexivity|]. split; [discriminate|].
    split; [exact Hinv|]. intros _ H. congruence.
  - cbn [crawl_batch]. unfold bind at 1.
    destruct (deadline_reached_run E deadline_ts w) as (late & t & ->).
    set (w0 := mkWorld (db w) t).
    change (queue_of w) with (queue_of w0) in *.
    destruct late.
    { exists Returned, st, w0. split; [reflexivity|]. split; [discriminate|].
      split; [exact Hinv|]. discriminate. }
    cbn [map distinct] in Hd. apply andb_prop in Hd as [Hnotin Hd].
    apply negb_true_iff in Hnotin.
    assert (Hit := Hitems it (or_introl eq_refl)).
    assert (Hk := queued_item_has_key _ _ Hit).
    pose proof (crawl_item_decreases E it st w0 Hinv Hit) as Hdec.
    pose proof (crawl_item_inv E it st w0 Hinv (queued_item_In _ _ Hit)) as Hinv1.
    destruct (crawl_item_rows E it st w0 Hk)
      as (st1 & status & Hrun & _ & _ & Hkeep & Hframe).
    unfold bind at 1. rewrite Hrun.
    assert (Hitems1 : forall it', In it' rest ->
              queued_item (queue_of (snd (crawl_item E it st w0))) it').
    { intros it' Hin'. destruct (Hitems it' (or_intror Hin')) as (r & Hrow & Hq & Hi).
      exists r. split; [|split; assumption].
      rewrite Hframe; [exact Hrow| |].
      - apply row_of_has_key. now exists r.
      - intros Heq.
        assert (existsb (String.eqb (i_key it)) (map i_key rest) = true).
        { apply existsb_eqb_In. rewrite <- Heq. now apply in_map. }
        congruence. }
    revert Hdec Hinv1 Hitems1. generalize (snd (crawl_item E it st w0)).
    intros w1 Hdec Hinv1 Hitems1.
    unfold bind at 1.
    destruct (heartbeat_clock E (cl_heartbeat_at st1) w1) as (hb & t2 & ->).
    set (w2 := mkWorld (db w1) t2).
    change (queue_of w1) with (queue_of w2) in *.
    destruct (IH (mkCrawlLocals (cl_done st1) (cl_errors st1) hb) w2 Hinv1 Hitems1 Hd)
      as (ex & st' & w' & Hrest & Hex & Hinv' & Hsm).
    exists ex, st', w'. split; [exact Hrest|]. split; [exact Hex|].
    split; [exact Hinv'|]. intros Hexh _.
    destruct rest as [|it2 rest2].
    + cbn [crawl_batch ret] in Hrest. injection Hrest as _ _ <-.
      apply t_step. exact Hdec.
    + eapply t_trans; [apply Hsm; [exact Hexh|discriminate]|apply t_step, Hdec].
Qed.



(* ================================================================== *)
(** ** The run record *)
(* ================================================================== *)








(** *** Rules of total correctness *)



Lemma total_weaken {S A : Type} (Pre Pre' : S -> Prop) (m : nat -> M S A)
    (Post Post' : A -> S -> Prop) (Exc Exc' : S -> Prop) :
  total Pre' m Post' Exc' ->
  (forall s, Pre s -> Pre' s) ->
  (forall a s, Post' a s -> Post a s) ->
  (forall s, Exc' s -> Exc s) ->
  total Pre m Post Exc.
Proof.
  intros Hm Hpre Hpost Hexc s Hs.
  destruct (Hm s (Hpre s Hs)) as (f & r & s' & Hrun & Hr).
  exists f, r, s'. split; [exact Hrun|].
  destruct r; auto.
Qed.

Lemma lift_run {L S A : Type} (m : M S A) (c : L) (s : S) :
  lift m (c, s) = (fst (m s), (c, snd (m s))).
Proof. unfold lift. cbn [fst snd]. now destruct (m s). Qed.

Section MainRules.

Variable E : Env.
Variable run_id : string.










End MainRules.

Section MainTry.

Variable E : Env.
Variable args : Args.
Variable deadline_ts : option Z.
Variable run_id : string.






End MainTry.


(** [main] up to the [try]: with a run id that is not taken, the row of
    the run is inserted and the [try] statement runs on it. *)
Lemma main_unfold (fuel : nat) (E : Env) (args : Args) (w : World) :
  has_run (main_run_id E args w) (runs_of w) = false ->
  main fuel E args w =
  match try_except
          (main_try fuel E args (main_deadline E args w) (main_run_id E args w))
          (main_except E (main_run_id E args w))
          (mkCounters 0 0 0 0, main_begun E args w) with
  | (r, (_, w')) => (r, w')
  end.
Proof.
  unfold main, main_begun, main_run_id, main_deadline, main_run_tick, begin_run.
  unfold runs_of, posts_of, queue_of, set_runs, set_db.
  destruct (max_minutes args) as [m|]; intros Hfresh.
  - unfold bind at 1. unfold bind at 1. rewrite ask_run. cbn [ret].
    unfold bind at 1. unfold bind at 1. rewrite ask_run. cbn [db tick].
    unfold bind at 1. rewrite ask_run. cbn [db tick].
    rewrite Hfresh. reflexivity.
  - unfold bind at 1. cbn [ret].
    unfold bind at 1. unfold bind at 1. rewrite ask_run. cbn [db tick].
    unfold bind at 1. rewrite ask_run. cbn [db tick].
    rewrite Hfresh. reflexivity.
Qed.






Section RunReport.

Variable fuel : nat.
Variable E : Env.
Variable args : Args.
Variable deadline_ts : option Z.
Variable run_id : string.





End RunReport.



(* ================================================================== *)
(** ** What a whole run keeps *)
(* ================================================================== *)

Section WholeRun.

Variable E : Env.
Variable P : World -> Prop.
Hypothesis HP : unit_stable E P.
Hypothesis P_frame : forall w w', P w -> queue_of w' = queue_of w -> P w'.

Lemma frame_keeps_ret {A : Type} (a : A) : frame_keeps P (ret a).
Proof. intros f H. exact H. Qed.

Lemma frame_keeps_bind {A B : Type} (m : M Frame A) (k : A -> M Frame B) :
  frame_keeps P m -> (forall a, frame_keeps P (k a)) -> frame_keeps P (bind m k).
Proof.
  intros Hm Hk f Hf. unfold bind. specialize (Hm f Hf).
  destruct (m f) as [[a|msg|] f']; cbn [snd] in *; try exact Hm.
  now apply Hk.
Qed.

Lemma frame_keeps_try {A : Type} (body : M Frame A) (handler : string -> M Frame A) :
  frame_keeps P body -> (forall msg, frame_keeps P (handler msg)) ->
  frame_keeps P (try_except body handler).
Proof.
  intros Hb Hh f Hf. unfold try_except. specialize (Hb f Hf).
  destruct (body f) as [[a|msg|] f']; cbn [snd] in *; try exact Hb.
  now apply Hh.
Qed.

Lemma frame_keeps_lift {A : Type} (m : M World A) :
  (forall w, P w -> P (snd (m w))) -> frame_keeps P (lift m).
Proof. intros Hm [c w] Hw. rewrite lift_run. cbn [snd] in *. now apply Hm. Qed.

Lemma frame_keeps_assign (g : Counters -> Counters) : frame_keeps P (assign g).
Proof. intros [c w] Hw. exact Hw. Qed.

Lemma frame_keeps_flush (run_id : string) : frame_keeps P (flush_stats run_id).
Proof.
  unfold flush_stats. apply frame_keeps_bind.
  - intros [c w] Hw. exact Hw.
  - intros c. apply frame_keeps_lift. intros w Hw.
    apply (P_frame w); [exact Hw|reflexivity].
Qed.

Lemma end_run_keeps (run_id : string) (w : World) :
  P w -> P (snd (end_run E run_id w)).
Proof. intros Hw. apply (P_frame w); [exact Hw|reflexivity]. Qed.

Lemma deadline_keeps (deadline_ts : option Z) (w : World) :
  P w -> P (snd (deadline_reached E deadline_ts w)).
Proof.
  intros Hw. destruct (deadline_reached_run E deadline_ts w) as (late & t & ->).
  now apply HP.
Qed.

Lemma main_try_keeps (fuel : nat) (args : Args) (deadline_ts : option Z)
    (run_id : string) :
  frame_keeps P (main_try fuel E args deadline_ts run_id).
Proof.
  unfold main_try.
  apply frame_keeps_bind.
  { destruct (recrawl_hubs args); [|apply frame_keeps_ret].
    apply frame_keeps_lift. intros w Hw. now apply HP. }
  intros _. apply frame_keeps_bind.
  { apply frame_keeps_lift. intros w Hw. now apply (ingest_stable E P HP). }
  intros n. apply frame_keeps_bind; [apply frame_keeps_assign|].
  intros _. apply frame_keeps_bind; [apply frame_keeps_flush|].
  intros _. apply frame_keeps_bind.
  { apply frame_keeps_lift. apply deadline_keeps. }
  intros late. apply frame_keeps_bind.
  { destruct (negb late); [|apply frame_keeps_ret].
    apply frame_keeps_bind.
    - apply frame_keeps_lift. intros w Hw.
      now apply (discover_hub_posts_stable E P HP).
    - intros h. apply frame_keeps_bind; [apply frame_keeps_assign|].
      intros _. apply frame_keeps_flush. }
  intros _. apply frame_keeps_bind.
  { apply frame_keeps_lift. apply deadline_keeps. }
  intros late2. apply frame_keeps_bind.
  { destruct (negb late2); [|apply frame_keeps_ret].
    apply frame_keeps_bind.
    - apply frame_keeps_lift. intros w Hw. now apply (crawl_queue_stable E P HP).
    - intros r. apply frame_keeps_bind; [apply frame_keeps_assign|].
      intros _. apply frame_keeps_bind; [apply frame_keeps_assign|].
      intros _. apply frame_keeps_flush. }
  intros _. apply frame_keeps_bind.
  { apply frame_keeps_lift. apply end_run_keeps. }
  intros _. apply frame_keeps_ret.
Qed.

Lemma main_except_keeps (run_id msg : string) :
  frame_keeps P (main_except E run_id msg).
Proof.
  unfold main_except. apply frame_keeps_bind.
  - intros [c w] Hw. exact Hw.
  - intros c. apply frame_keeps_bind.
    + apply frame_keeps_lift. intros w Hw. apply (P_frame w); [exact Hw|reflexivity].
    + intros _. apply frame_keeps_bind; [|intros _; apply frame_keeps_ret].
      apply frame_keeps_lift. apply end_run_keeps.
Qed.

(** A run of [main] keeps what its units of work keep, however it ends
    and whatever the budget. *)
Lemma main_keeps (fuel : nat) (args : Args) (w : World) :
  P w -> P (snd (main fuel E args w)).
Proof.
  intros Hw. unfold main. unfold bind at 1.
  assert (Hdl : exists dl t,
            (match max_minutes args with
             | None => ret None
             | Some m => now <- ask (time_time E) ;; ret (Some (now + m * 60)%Z)
             end) w = (Ok dl, mkWorld (db w) t)).
  { destruct (max_minutes args).
    - do 2 eexists. reflexivity.
    - exists None, (tick w). destruct w. reflexivity. }
  destruct Hdl as (dl & t & ->).
  assert (Hw0 : P (mkWorld (db w) t)) by now apply HP.
  unfold bind at 1, begin_run. unfold bind at 1. rewrite ask_run.
  unfold bind at 1. rewrite ask_run. cbn [db tick].
  destruct (has_run _ _); [exact (proj1 HP _ _ Hw0)|].
  match goal with
  | |- context [try_except ?b ?h ?f] =>
      pose proof (frame_keeps_try b h (main_try_keeps fuel args dl _)
                    (main_except_keeps _) f) as Hk;
      destruct (try_except b h f) as [r [c w']]
  end.
  cbn [snd] in *. apply Hk. apply (P_frame (mkWorld (db w) t)); [exact Hw0|reflexivity].
Qed.

End WholeRun.

(** The state in which a run of [main] leaves the store is reachable. *)
Lemma main_reachable (E : Env) (fuel : nat) (args : Args) (w : World) :
  reachable E w -> reachable E (snd (main fuel E args w)).
Proof.
  apply main_keeps.
  - apply reachable_stable.
  - intros w1 w2 H Hq. now apply (reach_frame E w1).
Qed.

(* ================================================================== *)
(** ** The theorems at work on the sample environment *)
(* ================================================================== *)

Example normalize_example :
  normalize_reddit_url "  http://old.reddit.com/r/Superstonk/comments/abcde/t "
  = "https://www.reddit.com/r/Superstonk/comments/abcde/t".
Proof. reflexivity. Qed.

Example extract_urls_example :
  extract_urls "see https://redd.it/abc123, and (http://a.b/c). HTTPS://X.Y!"
  = ["HTTPS://X.Y"; "http://a.b/c"; "https://redd.it/abc123"].
Proof. reflexivity. Qed.

Example submission_id_example :
  submission_id_from_url "https://www.reddit.com/r/S/comments/ab/comments/abcdefghij/"
  = Some "abcdefgh".
Proof. reflexivity. Qed.

(** A short link has its id in the path, not [redd.it/]: on the sample
    parser it is not taken for a submission URL. *)
Example short_link_example :
  is_reddit_submission_url sample_urlparse "https://redd.it/abc123" = false
  /\ is_reddit_submission_url sample_urlparse
       "https://www.reddit.com/r/Superstonk/comments/abc123/t" = true
  /\ is_reddit_submission_url sample_urlparse "https://[bad/comments/x" = false.
Proof. repeat split; reflexivity. Qed.

Example insert_post_example :
  fst (insert_post stored_post seen_world) = Ok false
  /\ fst (insert_post stored_post new_world) = Ok true.
Proof. split; reflexivity. Qed.

Example run_example :
  fst (main 10 sampleE sample_args new_world) = Ok 0%Z
  /\ map (fun r => (q_key r, q_depth r, q_status r)) (queue_of world_after_run)
     = [("lnk02", 1%Z, error); ("lnk01", 1%Z, done); ("hub01", 0%Z, done);
        ("cmt01", 1%Z, done); ("cmt02", 1%Z, done)]
  /\ map run_counters (runs_of world_after_run) = [mkCounters 1 7 4 1].
Proof. repeat split; vm_compute; reflexivity. Qed.

Example fatal_run_example :
  fst (main 10 failingE sample_args new_world) = Ok 1%Z
  /\ map run_counters (runs_of (snd (main 10 failingE sample_args new_world)))
     = [mkCounters 0 0 0 1]
  /\ map p_id (posts_of (snd (main 10 failingE sample_args new_world))) = ["fla01"].
Proof. repeat split; vm_compute; reflexivity. Qed.

Lemma world_after_run_reachable : reachable sampleE world_after_run.
Proof. apply main_reachable, reach_new. Qed.

Lemma depth_bound_witness :
  reachable sampleE world_after_run
  /\ forallb (fun r => (q_depth r <=? MAX_CRAWL_DEPTH)%Z) (queue_of world_after_run)
     = true.
Proof.
  split; [exact world_after_run_reachable|].
  apply forallb_forall. intros r Hr. apply Z.leb_le.
  exact (proj1 (depth_bound sampleE world_after_run world_after_run_reachable) r Hr).
Defined.

Lemma hub_rows_at_depth_zero_witness :
  reachable sampleE world_after_run
  /\ forallb (fun r => implb (q_is_hub r =? 1)%Z (q_depth r =? 0)%Z)
       (queue_of world_after_run) = true.
Proof.
  split; [exact world_after_run_reachable|].
  apply forallb_forall. intros r Hr.
  destruct (q_is_hub r =? 1)%Z eqn:Hh; [|reflexivity].
  apply Z.eqb_eq in Hh. apply Z.eqb_eq.
  exact (proj1 (hub_rows_at_depth_zero sampleE world_after_run
                  world_after_run_reachable) r Hr Hh).
Defined.




Lemma queue_add_existing_key_witness :
  keys_unique (queue_of three_world) = true
  /\ In (row_of_id "lnk02" 2) (queue_of three_world)
  /\ (let res := queue_add sampleE (q_key (row_of_id "lnk02" 2))
                   "https://redd.it/lnk02" 3 1 1 three_world in
      fst res = Ok tt
      /\ db (snd res) = db three_world
      /\ rows_with_key (q_key (row_of_id "lnk02" 2)) (queue_of (snd res))
         = [row_of_id "lnk02" 2]).
Proof.
  assert (Hu : keys_unique (queue_of three_world) = true) by reflexivity.
  assert (Hin : In (row_of_id "lnk02" 2) (queue_of three_world)).
  { right. left. reflexivity. }
  split; [exact Hu|]. split; [exact Hin|].
  exact (queue_add_existing_key sampleE "https://redd.it/lnk02" 3 1 1
           three_world (row_of_id "lnk02" 2) Hu Hin).
Defined.

Lemma flair_scan_stops_at_dup_streak_witness :
  exists st' w',
    (forall rest,
       flair_scan sampleE None (listing_app duplicates rest)
         (mkFlairLocals 0 0 0 0) seen_world = (Ok (Broke, st'), w'))
    /\ seen st' = (seen (mkFlairLocals 0 0 0 0) + STOP_DUP_STREAK)%Z
    /\ dup_streak st' = STOP_DUP_STREAK
    /\ inserted_count st' = inserted_count (mkFlairLocals 0 0 0 0)
    /\ posts_of w' = posts_of seen_world.
Proof.
  apply (flair_scan_stops_at_dup_streak sampleE duplicates
           (mkFlairLocals 0 0 0 0) seen_world).
  - vm_compute. reflexivity.
  - reflexivity.
  - vm_compute. reflexivity.
Defined.

Lemma short_link_is_classified_false_witness :
  is_reddit_submission_url sample_urlparse "https://redd.it/abc123" = false
  /\ submission_id_from_url "https://redd.it/abc123" = Some "abc123".
Proof.
  apply (short_link_is_classified_false sample_urlparse).
  vm_compute. reflexivity.
Defined.

(* ================================================================== *)
(** ** URL extraction: shape of the results *)
(* ================================================================== *)

Lemma forall_bool_spec (f : bool -> bool) :
  forall_bool f = true -> forall b, f b = true.
Proof.
  unfold forall_bool. intros H b. apply andb_prop in H as [Ht Hf].
  destruct b; assumption.
Qed.

Lemma forall_ascii_spec (f : ascii -> bool) :
  forall_ascii f = true -> forall c, f c = true.
Proof.
  unfold forall_ascii. intros H [b0 b1 b2 b3 b4 b5 b6 b7].
  pose proof (forall_bool_spec _ H b0) as H0. cbv beta in H0.
  pose proof (forall_bool_spec _ H0 b1) as H1. cbv beta in H1.
  pose proof (forall_bool_spec _ H1 b2) as H2. cbv beta in H2.
  pose proof (forall_bool_spec _ H2 b3) as H3. cbv beta in H3.
  pose proof (forall_bool_spec _ H3 b4) as H4. cbv beta in H4.
  pose proof (forall_bool_spec _ H4 b5) as H5. cbv beta in H5.
  pose proof (forall_bool_spec _ H5 b6) as H6. cbv beta in H6.
  exact (forall_bool_spec _ H6 b7).
Qed.

Lemma append_assoc (a b c : string) : ((a ++ b) ++ c = a ++ (b ++ c))%string.
Proof. induction a as [|x a IH]; simpl; [reflexivity | now rewrite IH]. Qed.

Lemma take_drop (n : nat) (s : string) : (take n s ++ drop n s = s)%string.
Proof.
  revert s. induction n as [|n IH]; intros s; simpl; [reflexivity|].
  destruct s as [|c t]; simpl; [reflexivity | now rewrite IH].
Qed.

Lemma take_while_prefix (ok : ascii -> bool) (n : nat) (s : string) :
  exists post, (s = take_while ok n s ++ post)%string.
Proof.
  revert s. induction n as [|n IH]; intros s; simpl; [now exists s|].
  destruct s as [|c t]; [now exists ""|].
  destruct (ok c); [|now exists (String c t)].
  destruct (IH t) as [post Hp]. exists post. simpl. now rewrite <- Hp.
Qed.

Lemma take_while_all (ok : ascii -> bool) (n : nat) (s : string) :
  all_chars ok (take_while ok n s) = true.
Proof.
  revert s. induction n as [|n IH]; intros s; simpl; [reflexivity|].
  destruct s as [|c t]; [reflexivity|].
  destruct (ok c) eqn:Hc; [|reflexivity]. simpl. now rewrite Hc, IH.
Qed.

Lemma take_while_length (ok : ascii -> bool) (n : nat) (s : string) :
  (String.length (take_while ok n s) <= n)%nat.
Proof.
  revert s. induction n as [|n IH]; intros s; simpl; [lia|].
  destruct s as [|c t]; simpl; [lia|].
  destruct (ok c); simpl; [specialize (IH t); lia | lia].
Qed.

Lemma take_while_id (ok : ascii -> bool) (n : nat) (s : string) :
  all_chars ok s = true -> (String.length s <= n)%nat -> take_while ok n s = s.
Proof.
  revert n. induction s as [|c t IH]; intros n Hall Hlen.
  - destruct n; reflexivity.
  - simpl in Hall, Hlen. apply andb_prop in Hall as [Hc Ht].
    destruct n as [|n]; [lia|]. simpl. rewrite Hc. f_equal. apply IH; [assumption | lia].
Qed.

Lemma all_chars_app (ok : ascii -> bool) (a b : string) :
  all_chars ok (a ++ b) = all_chars ok a && all_chars ok b.
Proof.
  induction a as [|x a IH]; simpl; [reflexivity|].
  now rewrite IH, andb_assoc.
Qed.

Lemma rstrip_chars_prefix (d : ascii -> bool) (s : string) :
  exists post, (s = rstrip_chars d s ++ post)%string.
Proof.
  induction s as [|c t [post IH]]; [now exists ""|].
  simpl. destruct (rstrip_chars d t) as [|x y] eqn:Hr.
  - destruct (d c).
    + now exists (String c t).
    + exists t. reflexivity.
  - exists post. simpl. simpl in IH. now rewrite <- IH.
Qed.

Lemma rstrip_chars_last (d : ascii -> bool) (s : string) (c : ascii) :
  last_char (rstrip_chars d s) = Some c -> d c = false.
Proof.
  induction s as [|a t IH]; simpl; [discriminate|].
  destruct (rstrip_chars d t) as [|x y] eqn:Hr.
  - destruct (d a) eqn:Ha; simpl; [discriminate|].
    intros H. injection H as <-. exact Ha.
  - intros H. apply IH. exact H.
Qed.

Lemma rstrip_chars_all (ok d : ascii -> bool) (s : string) :
  all_chars ok s = true -> all_chars ok (rstrip_chars d s) = true.
Proof.
  intros H. destruct (rstrip_chars_prefix d s) as [post Hp].
  rewrite Hp, all_chars_app in H. now apply andb_prop in H as [H _].
Qed.

Lemma rstrip_chars_fixed (d : ascii -> bool) (s : string) :
  (forall c, last_char s = Some c -> d c = false) -> rstrip_chars d s = s.
Proof.
  induction s as [|a t IH]; intros H; [reflexivity|].
  simpl. destruct t as [|x y].
  - simpl. rewrite (H a eq_refl). reflexivity.
  - rewrite IH by (intros c Hc; apply H; exact Hc).
    reflexivity.
Qed.

(** Stripping at the right end keeps a prefix that ends in a character
    which is not stripped. *)
Lemma rstrip_chars_keeps (d : ascii -> bool) (p s : string) :
  end_kept d p = true -> startswith_ci p s = true ->
  startswith_ci p (rstrip_chars d s) = true.
Proof.
  revert s. induction p as [|a p IH]; intros s Hk Hs; [reflexivity|].
  destruct s as [|b s]; [discriminate|].
  simpl in Hs. apply andb_prop in Hs as [Hab Hs].
  destruct p as [|a' p'].
  - unfold end_kept in Hk. simpl in Hk.
    pose proof (forall_ascii_spec _ Hk b) as Hb. cbv beta in Hb.
    rewrite Hab in Hb. simpl in Hb. apply negb_true_iff in Hb.
    simpl. destruct (rstrip_chars d s); [rewrite Hb|]; simpl; now rewrite Hab.
  - assert (Hk' : end_kept d (String a' p') = true) by exact Hk.
    specialize (IH s Hk' Hs).
    simpl. destruct (rstrip_chars d s) as [|x y] eqn:Hr.
    + simpl in IH. discriminate.
    + cbn [startswith_ci]. rewrite Hab. exact IH.
Qed.

Lemma startswith_ci_app (p s t : string) :
  startswith_ci p s = true -> startswith_ci p (s ++ t) = true.
Proof.
  revert s. induction p as [|a p IH]; intros s H; [reflexivity|].
  destruct s as [|b s]; [discriminate|]. simpl in *.
  apply andb_prop in H as [H1 H2]. now rewrite H1, IH.
Qed.

Lemma startswith_ci_take (p s : string) :
  startswith_ci p s = true -> startswith_ci p (take (String.length p) s) = true.
Proof.
  revert s. induction p as [|a p IH]; intros s H; [reflexivity|].
  destruct s as [|b s]; [discriminate|]. simpl in *.
  apply andb_prop in H as [H1 H2]. now rewrite H1, IH.
Qed.

Lemma all_chars_take_scheme (p s : string) :
  all_chars url_char p = true ->
  forall_ascii (fun a => forall_ascii (fun b =>
     implb (url_char a && Ascii.eqb (ascii_lower a) (ascii_lower b)) (url_char b))) = true ->
  startswith_ci p s = true -> all_chars url_char (take (String.length p) s) = true.
Proof.
  intros Hp Hall. revert s Hp. induction p as [|a p IH]; intros s Hp H; [reflexivity|].
  destruct s as [|b s]; [discriminate|]. simpl in *.
  apply andb_prop in H as [H1 H2]. apply andb_prop in Hp as [Ha Hp].
  pose proof (forall_ascii_spec _ (forall_ascii_spec _ Hall a) b) as Hb. cbv beta in Hb.
  rewrite Ha, H1 in Hb. simpl in Hb. rewrite Hb. simpl. now apply IH.
Qed.

Lemma url_char_ci : 
  forall_ascii (fun a => forall_ascii (fun b =>
     implb (url_char a && Ascii.eqb (ascii_lower a) (ascii_lower b)) (url_char b))) = true.
Proof. vm_compute. reflexivity. Qed.

Lemma match_url_scheme (p s : string) :
  all_chars url_char p = true -> startswith_ci p s = true ->
  let tok := take_while url_char (String.length s) (drop (String.length p) s) in
  let m := (take (String.length p) s ++ tok)%string in
  startswith_ci p m = true /\ all_chars url_char m = true
  /\ exists post, (s = m ++ post)%string.
Proof.
  intros Hp Hs tok m. split; [|split].
  - apply startswith_ci_app, startswith_ci_take, Hs.
  - unfold m. rewrite all_chars_app.
    rewrite (all_chars_take_scheme p s Hp url_char_ci Hs).
    apply take_while_all.
  - destruct (take_while_prefix url_char (String.length s) (drop (String.length p) s))
      as [post Hpost].
    exists post. unfold m. rewrite append_assoc. fold tok in Hpost.
    rewrite <- Hpost. symmetry. apply take_drop.
Qed.

Lemma match_url_shape (s m : string) :
  match_url s = Some m ->
  (startswith_ci "http://" m = true \/ startswith_ci "https://" m = true)
  /\ all_chars url_char m = true
  /\ exists post, (s = m ++ post)%string.
Proof.
  unfold match_url.
  destruct (startswith_ci "https://" s) eqn:H8.
  - destruct (match_url_scheme "https://" s eq_refl H8) as (H1 & H2 & H3).
    change (String.length "https://") with 8%nat in H1, H2, H3.
    destruct (take_while url_char (String.length s) (drop 8 s)); [discriminate|].
    intros H. injection H as <-. split; [right; exact H1 | split; assumption].
  - destruct (startswith_ci "http://" s) eqn:H7; [|discriminate].
    destruct (match_url_scheme "http://" s eq_refl H7) as (H1 & H2 & H3).
    change (String.length "http://") with 7%nat in H1, H2, H3.
    destruct (take_while url_char (String.length s) (drop 7 s)); [discriminate|].
    intros H. injection H as <-. split; [left; exact H1 | split; assumption].
Qed.

Lemma occurs_in_prefix (u s post : string) :
  (s = u ++ post)%string -> occurs_in u s.
Proof. intros ->. now exists "", post. Qed.

Lemma occurs_in_cons (u : string) (c : ascii) (t : string) :
  occurs_in u t -> occurs_in u (String c t).
Proof. intros (pre & post & ->). now exists (String c pre), post. Qed.

Lemma occurs_in_trim (u m s : string) :
  (exists post, (m = u ++ post)%string) -> occurs_in m s -> occurs_in u s.
Proof.
  intros (post & ->) (pre & post' & ->).
  exists pre, (post ++ post')%string. now rewrite append_assoc.
Qed.

Lemma finditer_urls_shape (s : string) :
  forall skip m, In m (finditer_urls skip s) ->
  (startswith_ci "http://" m = true \/ startswith_ci "https://" m = true)
  /\ all_chars url_char m = true /\ occurs_in m s.
Proof.
  induction s as [|c t IH]; intros skip m Hin; [destruct Hin|].
  cbn [finditer_urls] in Hin.
  assert (Hrest : forall k, In m (finditer_urls k t) ->
    (startswith_ci "http://" m = true \/ startswith_ci "https://" m = true)
    /\ all_chars url_char m = true /\ occurs_in m (String c t)).
  { intros k Hk. destruct (IH k m Hk) as (H1 & H2 & H3).
    split; [exact H1 | split; [exact H2 | now apply occurs_in_cons]]. }
  destruct skip as [|k]; [|now apply (Hrest k)].
  destruct (match_url (String c t)) as [m0|] eqn:Hm; [|now apply (Hrest 0%nat)].
  destruct Hin as [<- | Hin]; [|now apply (Hrest _ Hin)].
  destruct (match_url_shape _ _ Hm) as (H1 & H2 & post & H3).
  split; [exact H1 | split; [exact H2 | now apply (occurs_in_prefix _ _ post)]].
Qed.

(* ------------------------------------------------------------------ *)
(** *** [sorted(set(...))] *)

Lemma ascii_compare_trans (a b c : ascii) :
  Ascii.compare a b = Lt -> Ascii.compare b c = Lt -> Ascii.compare a c = Lt.
Proof.
  unfold Ascii.compare. rewrite !N.compare_lt_iff. apply N.lt_trans.
Qed.

Lemma ascii_compare_eq (a b : ascii) : Ascii.compare a b = Eq -> a = b.
Proof.
  unfold Ascii.compare. rewrite N.compare_eq_iff. intros H.
  rewrite <- (ascii_N_embedding a), <- (ascii_N_embedding b). now rewrite H.
Qed.

Lemma str_lt_trans (a b c : string) : str_lt a b -> str_lt b c -> str_lt a c.
Proof.
  unfold str_lt. revert b c.
  induction a as [|x a IH]; intros [|y b] [|z c]; simpl; try easy.
  destruct (Ascii.compare x y) eqn:Hxy; try discriminate;
  destruct (Ascii.compare y z) eqn:Hyz; try discriminate; intros H1 H2.
  - apply ascii_compare_eq in Hxy, Hyz. subst.
    replace (Ascii.compare z z) with Eq
      by (symmetry; unfold Ascii.compare; apply N.compare_refl).
    now apply (IH b c).
  - apply ascii_compare_eq in Hxy. subst. now rewrite Hyz.
  - apply ascii_compare_eq in Hyz. subst. now rewrite Hxy.
  - now rewrite (ascii_compare_trans _ _ _ Hxy Hyz).
Qed.

Lemma insert_sorted_In (x y : string) (l : list string) :
  In y (insert_sorted x l) <-> y = x \/ In y l.
Proof.
  induction l as [|z l IH]; simpl; [intuition|].
  destruct (String.compare x z) eqn:Hc; simpl.
  - apply String.compare_eq_iff in Hc. subst. intuition.
  - intuition.
  - rewrite IH. intuition.
Qed.

Lemma sorted_set_In (y : string) (l : list string) :
  In y (sorted_set l) <-> In y l.
Proof.
  induction l as [|x l IH]; simpl; [reflexivity|].
  rewrite insert_sorted_In, IH. intuition.
Qed.

Lemma insert_sorted_increasing (x : string) (l : list string) :
  increasing l -> increasing (insert_sorted x l).
Proof.
  induction l as [|z l IH]; intros Hl; simpl.
  - split; [intros y []|exact I].
  - destruct Hl as [Hz Hl]. destruct (String.compare x z) eqn:Hc.
    + split; assumption.
    + split; [|split; assumption].
      intros y [<- | Hy]; [exact Hc|].
      apply (str_lt_trans x z y); [exact Hc | now apply Hz].
    + split; [|now apply IH].
      intros y Hy. apply insert_sorted_In in Hy as [-> | Hy]; [|now apply Hz].
      unfold str_lt. rewrite String.compare_antisym, Hc. reflexivity.
Qed.

Lemma sorted_set_increasing (l : list string) : increasing (sorted_set l).
Proof.
  induction l as [|x l IH]; simpl; [exact I|].
  now apply insert_sorted_increasing.
Qed.

Lemma extract_urls_In (text u : string) :
  In u (extract_urls text) ->
  exists m, In m (finditer_urls 0 text) /\ u = rstrip_chars trailing_punct m.
Proof.
  unfold extract_urls. destruct text as [|c t]; [intros []|].
  rewrite sorted_set_In, in_map_iff. intros (m & <- & Hm). now exists m.
Qed.

(** X1. Every string that [extract_urls] returns starts with [http://] or
    [https://] (in any case), holds no white space and none of [)], [>],
    []], does not end in one of [.,;!], and occurs in the text. *)
Theorem extract_urls_shape (text u : string) :
  In u (extract_urls text) -> url_shaped u /\ occurs_in u text.
Proof.
  intros H. apply extract_urls_In in H as (m & Hm & ->).
  apply finditer_urls_shape in Hm as (Hscheme & Hall & Hocc).
  split; [split; [|split]|].
  - destruct Hscheme as [H | H]; [left | right];
      (apply rstrip_chars_keeps; [vm_compute; reflexivity | exact H]).
  - now apply rstrip_chars_all.
  - apply rstrip_chars_last.
  - apply (occurs_in_trim _ m); [apply rstrip_chars_prefix | exact Hocc].
Qed.

Lemma extract_urls_shape_witness :
  url_shaped "https://www.reddit.com/r/Superstonk/comments/abc123/dd"
  /\ occurs_in "https://www.reddit.com/r/Superstonk/comments/abc123/dd"
       "(see https://www.reddit.com/r/Superstonk/comments/abc123/dd.)".
Proof.
  apply (extract_urls_shape
           "(see https://www.reddit.com/r/Superstonk/comments/abc123/dd.)").
  vm_compute. left. reflexivity.
Defined.

(* ------------------------------------------------------------------ *)
(** *** A URL is extracted from itself *)

Lemma drop_length (n : nat) (s : string) :
  String.length (drop n s) = (String.length s - n)%nat.
Proof.
  revert s. induction n as [|n IH]; intros s; simpl; [lia|].
  destruct s as [|c t]; simpl; [reflexivity | apply IH].
Qed.

Lemma all_chars_drop (ok : ascii -> bool) (n : nat) (s : string) :
  all_chars ok s = true -> all_chars ok (drop n s) = true.
Proof.
  intros H. rewrite <- (take_drop n s), all_chars_app in H.
  now apply andb_prop in H as [_ H].
Qed.

Lemma finditer_urls_skip (s : string) (k : nat) :
  (String.length s <= k)%nat -> finditer_urls k s = [].
Proof.
  revert k. induction s as [|c t IH]; intros k Hk; [reflexivity|].
  simpl in Hk. destruct k as [|k]; [lia|]. cbn [finditer_urls]. apply IH. lia.
Qed.

Lemma match_url_whole (u : string) :
  all_chars url_char u = true ->
  ((if startswith_ci "https://" u then 8 else 7) < String.length u)%nat ->
  (startswith_ci "http://" u = true \/ startswith_ci "https://" u = true) ->
  match_url u = Some u.
Proof.
  intros Hall Hlen Hs. unfold match_url.
  assert (Htok : forall n, (n < String.length u)%nat ->
    match take_while url_char (String.length u) (drop n u) with
    | "" => None
    | String _ _ =>
        Some (take n u ++ take_while url_char (String.length u) (drop n u))%string
    end = Some u).
  { intros n Hn.
    rewrite take_while_id
      by (try (apply all_chars_drop; exact Hall); rewrite drop_length; lia).
    pose proof (drop_length n u) as Hd. pose proof (take_drop n u) as Htd.
    destruct (drop n u) as [|x y]; [simpl in Hd; lia|].
    now rewrite Htd. }
  destruct (startswith_ci "https://" u) eqn:H8; [now apply Htok|].
  destruct Hs as [H7 | H]; [|discriminate].
  rewrite H7. now apply Htok.
Qed.

(** X2. A string of the shape of a URL with something after its scheme is
    what [extract_urls] finds in it, and nothing else. *)
Theorem extract_urls_of_url (u : string) :
  url_shaped u ->
  ((if startswith_ci "https://" u then 8 else 7) < String.length u)%nat ->
  extract_urls u = [u].
Proof.
  intros (Hs & Hall & Hlast) Hlen.
  pose proof (match_url_whole u Hall Hlen Hs) as Hm.
  destruct u as [|c t]; [simpl in Hlen; destruct (startswith_ci _ _); lia|].
  unfold extract_urls. cbn [finditer_urls]. rewrite Hm.
  rewrite finditer_urls_skip by (simpl; lia).
  cbn [map]. rewrite (rstrip_chars_fixed _ _ Hlast).
  reflexivity.
Qed.

Lemma url_shaped_intro (u : string) :
  (startswith_ci "http://" u || startswith_ci "https://" u) = true ->
  all_chars url_char u = true ->
  match last_char u with Some c => trailing_punct c | None => false end = false ->
  url_shaped u.
Proof.
  intros H1 H2 H3. split; [|split; [exact H2|]].
  - apply orb_prop in H1. exact H1.
  - intros c Hc. now rewrite Hc in H3.
Qed.

Lemma extract_urls_of_url_witness :
  extract_urls "HTTP://old.reddit.com/r/Superstonk/comments/abc123/dd_(part_1"
  = ["HTTP://old.reddit.com/r/Superstonk/comments/abc123/dd_(part_1"].
Proof.
  apply (extract_urls_of_url
           "HTTP://old.reddit.com/r/Superstonk/comments/abc123/dd_(part_1").
  - apply url_shaped_intro; vm_compute; reflexivity.
  - vm_compute. lia.
Defined.

(* ------------------------------------------------------------------ *)
(** *** The id in a URL *)

Lemma search_id_found (marker u g : string) :
  search_id marker u = Some g ->
  exists pre post,
    u = (pre ++ post)%string
    /\ startswith_ci marker post = true
    /\ g = take_while is_alnum_ci 8 (drop (String.length marker) post)
    /\ (5 <= String.length g)%nat.
Proof.
  induction u as [|c t IH]; cbn [search_id].
  - destruct (startswith_ci marker "") eqn:Hs.
    + destruct (5 <=? String.length (take_while is_alnum_ci 8
                                        (drop (String.length marker) "")))%nat eqn:H5;
        [|discriminate].
      intros H. injection H as <-. exists "", "".
      repeat split; [exact Hs | now apply Nat.leb_le].
    + discriminate.
  - destruct (startswith_ci marker (String c t)) eqn:Hs.
    + destruct (5 <=? String.length (take_while is_alnum_ci 8
                       (drop (String.length marker) (String c t))))%nat eqn:H5.
      * intros H. injection H as <-. exists "", (String c t).
        repeat split; [exact Hs | now apply Nat.leb_le].
      * intros H. destruct (IH H) as (pre & post & -> & H1 & H2 & H3).
        exists (String c pre), post. repeat split; assumption.
    + intros H. destruct (IH H) as (pre & post & -> & H1 & H2 & H3).
      exists (String c pre), post. repeat split; assumption.
Qed.

(** X3. On a URL of code points below 256 (the strings of this model),
    an id that [submission_id_from_url] returns is five to eight
    characters long, each an ASCII letter or digit, and stands in the
    URL right after [/comments/] or [redd.it/] (in either case of their
    letters): as many letters and digits as there are, up to eight. *)
Theorem submission_id_from_url_shape (u g : string) :
  submission_id_from_url u = Some g ->
  (5 <= String.length g <= 8)%nat
  /\ all_chars is_alnum_ci g = true
  /\ exists pre post marker,
       u = (pre ++ post)%string
       /\ (marker = "/comments/" \/ marker = "redd.it/")
       /\ startswith_ci marker post = true
       /\ g = take_while is_alnum_ci 8 (drop (String.length marker) post).
Proof.
  unfold submission_id_from_url. intros H.
  assert (Hm : exists marker, (marker = "/comments/" \/ marker = "redd.it/")
                               /\ search_id marker u = Some g).
  { destruct (search_id "/comments/" u) as [g'|] eqn:H1.
    - exists "/comments/". split; [now left | congruence].
    - exists "redd.it/". split; [now right | exact H]. }
  destruct Hm as (marker & Hmk & Hs).
  destruct (search_id_found _ _ _ Hs) as (pre & post & Hu & Hp & Hg & H5).
  split; [|split].
  - split; [exact H5|]. rewrite Hg. apply take_while_length.
  - rewrite Hg. apply take_while_all.
  - exists pre, post, marker. repeat split; assumption.
Qed.

Lemma submission_id_from_url_shape_witness :
  (5 <= String.length "AbC123xy" <= 8)%nat
  /\ all_chars is_alnum_ci "AbC123xy" = true
  /\ exists pre post marker,
       "https://REDD.IT/AbC123xyz?share=1" = (pre ++ post)%string
       /\ (marker = "/comments/" \/ marker = "redd.it/")
       /\ startswith_ci marker post = true
       /\ "AbC123xy" = take_while is_alnum_ci 8 (drop (String.length marker) post).
Proof.
  apply (submission_id_from_url_shape "https://REDD.IT/AbC123xyz?share=1").
  vm_compute. reflexivity.
Defined.

(* ------------------------------------------------------------------ *)
(** *** Fixed points of [normalize_reddit_url] *)

Lemma normalize_normal (u : string) :
  normalize_reddit_url (normalize_reddit_url u) = normalize_reddit_url u.
Proof.
  destruct (normalize_result u) as (H1 & H2 & H3 & H4 & H5).
  now apply normalize_fixed.
Qed.

(** X4. [normalize_reddit_url] returns a string unchanged exactly when the
    string has no white space at either end, does not start with
    [http://], does not contain [old.reddit.com], and starts with
    [https://] if it contains [reddit.com]. *)
Theorem normalize_reddit_url_fixed_points (u : string) :
  normalize_reddit_url u = u <->
  head_ok u = true /\ ends_ok u = true
  /\ startswith "http://" u = false
  /\ contains "old.reddit.com" u = false
  /\ (contains "reddit.com" u = true -> startswith "https://" u = true).
Proof.
  split.
  - intros H. pose proof (normalize_result u) as Hr. cbv zeta in Hr.
    rewrite H in Hr. exact Hr.
  - intros (H1 & H2 & H3 & H4 & H5). now apply normalize_fixed.
Qed.

(* ------------------------------------------------------------------ *)
(** *** The links of the best comments *)

Lemma reddit_links_in_In (E : Env) (body nu : string) :
  In nu (reddit_links_in E body) <->
  exists u, In u (extract_urls body)
            /\ is_reddit_submission_url (urlparse E) u = true
            /\ nu = normalize_reddit_url u.
Proof.
  unfold reddit_links_in. rewrite in_map_iff. split.
  - intros (u & <- & Hu). apply filter_In in Hu as [H1 H2]. now exists u.
  - intros (u & H1 & H2 & ->). exists u. split; [reflexivity|].
    apply filter_In. now split.
Qed.

Lemma comment_links_In (E : Env) (rd : Z) (mr : nat) (top : Comment) (nu : string) :
  In nu (comment_links E rd mr top) <->
  exists body,
    In body (c_body top ::
             (if (1 <=? rd)%Z then
                match c_replies top with
                | Got replies => firstn mr replies
                | Failed _ => []
                end
              else []))
    /\ In nu (reddit_links_in E body).
Proof.
  unfold comment_links. rewrite in_app_iff. split.
  - intros [H | H].
    + exists (c_body top). split; [now left | exact H].
    + destruct (1 <=? rd)%Z; [|destruct H].
      destruct (c_replies top) as [replies|msg]; [|destruct H].
      apply in_flat_map in H as (body & Hb & Hn).
      exists body. split; [now right | exact Hn].
  - intros (body & [<- | Hb] & Hn); [now left|]. right.
    destruct (1 <=? rd)%Z; [|destruct Hb].
    destruct (c_replies top) as [replies|msg]; [|destruct Hb].
    apply in_flat_map. now exists body.
Qed.

(** X5. [extract_reddit_links_from_best_comments] leaves the store alone.
    When the comments cannot be read it raises that error.  Otherwise it
    returns, in strictly increasing order, exactly the normalised forms of
    the submission URLs found in the bodies it reads: the first [top_n]
    comments and, from reply depth 1 on, the first [max_replies_per_top]
    replies of each comment whose replies can be read. *)
Theorem best_comment_links_spec (E : Env) (s : Submission) (top_n : nat) (rd : Z)
    (mr : nat) (w : World) :
  match s_comments s with
  | Failed msg =>
      extract_reddit_links_from_best_comments E s top_n rd mr w = (Raise msg, w)
  | Got comments =>
      exists links,
        extract_reddit_links_from_best_comments E s top_n rd mr w = (Ok links, w)
        /\ increasing links
        /\ forall nu, In nu links <->
             exists body u,
               In body (bodies_read top_n rd mr comments)
               /\ In u (extract_urls body)
               /\ is_reddit_submission_url (urlparse E) u = true
               /\ nu = normalize_reddit_url u
  end.
Proof.
  unfold extract_reddit_links_from_best_comments.
  destruct (s_comments s) as [comments|msg]; [|reflexivity].
  eexists. split; [reflexivity|]. split; [apply sorted_set_increasing|].
  intros nu. rewrite sorted_set_In, in_flat_map. unfold bodies_read. split.
  - intros (top & Htop & Hnu). apply comment_links_In in Hnu as (body & Hb & Hnu).
    apply reddit_links_in_In in Hnu as (u & H1 & H2 & H3).
    exists body, u. split; [|now repeat split].
    apply in_flat_map. now exists top.
  - intros (body & u & Hb & H1 & H2 & H3).
    apply in_flat_map in Hb as (top & Htop & Hb).
    exists top. split; [exact Htop|].
    apply comment_links_In. exists body. split; [exact Hb|].
    apply reddit_links_in_In. now exists u.
Qed.

(* ================================================================== *)
(** ** The store operations *)
(* ================================================================== *)

Lemma leb_trans (a b c : string) :
  String.leb a b = true -> String.leb b c = true -> String.leb a c = true.
Proof.
  unfold String.leb.
  destruct (String.compare a b) eqn:Hab; try discriminate;
  destruct (String.compare b c) eqn:Hbc; try discriminate; intros _ _.
  - apply String.compare_eq_iff in Hab. subst. now rewrite Hbc.
  - apply String.compare_eq_iff in Hab. subst. now rewrite Hbc.
  - apply String.compare_eq_iff in Hbc. subst. now rewrite Hab.
  - assert (H : str_lt a c) by now apply (str_lt_trans a b c).
    unfold str_lt in H. now rewrite H.
Qed.

Lemma insert_by_added_In (r y : QueueRow) (l : list QueueRow) :
  In y (insert_by_added r l) <-> y = r \/ In y l.
Proof.
  induction l as [|x l IH]; simpl; [intuition|].
  destruct (String.leb (q_added_at_utc r) (q_added_at_utc x)); simpl.
  - intuition.
  - rewrite IH. intuition.
Qed.

Lemma insert_by_added_sorted (r : QueueRow) (l : list QueueRow) :
  by_added l -> by_added (insert_by_added r l).
Proof.
  induction l as [|x l IH]; intros Hl; simpl.
  - split; [intros y []|exact I].
  - destruct Hl as [Hx Hl].
    destruct (String.leb (q_added_at_utc r) (q_added_at_utc x)) eqn:Hrx.
    + split; [|split; assumption].
      intros y [<- | Hy]; [exact Hrx|].
      apply (leb_trans _ (q_added_at_utc x)); [exact Hrx | now apply Hx].
    + split; [|now apply IH].
      intros y Hy. apply insert_by_added_In in Hy as [-> | Hy]; [|now apply Hx].
      destruct (String.leb_total (q_added_at_utc r) (q_added_at_utc x)) as [H | H];
        [congruence | exact H].
Qed.

Lemma order_by_added_sorted (l : list QueueRow) : by_added (order_by_added l).
Proof.
  induction l as [|x l IH]; simpl; [exact I|].
  now apply insert_by_added_sorted.
Qed.

Lemma order_by_added_In (l : list QueueRow) (r : QueueRow) :
  In r (order_by_added l) <-> In r l.
Proof.
  induction l as [|x l IH]; simpl; [reflexivity|].
  rewrite insert_by_added_In, IH. intuition.
Qed.

Lemma by_added_app (a b : list QueueRow) :
  by_added (a ++ b) ->
  by_added a
  /\ forall x y, In x a -> In y b ->
       String.leb (q_added_at_utc x) (q_added_at_utc y) = true.
Proof.
  induction a as [|z a IH]; simpl.
  - intros _. split; [exact I | intros x y []].
  - intros [Hz H]. destruct (IH H) as [Ha Hab]. split.
    + split; [|exact Ha]. intros y Hy. apply Hz, in_or_app. now left.
    + intros x y [<- | Hx] Hy; [|now apply Hab].
      apply Hz, in_or_app. now right.
Qed.

(** X6. [queue_pop_batch] changes nothing.  It returns at most
    [batch_size] rows, all of them rows of the queue with status
    [queued], in the order of their [added_at_utc]; a queued row is left
    out only when the batch is full, and then no row of the batch was
    added after it. *)
Theorem queue_pop_batch_spec (batch_size : nat) (w : World) :
  exists rows,
    queue_pop_batch batch_size w = (Ok (map item_of_row rows), w)
    /\ (List.length rows <= batch_size)%nat
    /\ (forall r, In r rows -> In r (queue_of w) /\ q_status r = queued)
    /\ by_added rows
    /\ (forall r, In r (queue_of w) -> q_status r = queued -> ~ In r rows ->
          List.length rows = batch_size
          /\ forall r', In r' rows ->
               String.leb (q_added_at_utc r') (q_added_at_utc r) = true).
Proof.
  exists (pop_rows batch_size (queue_of w)).
  split; [reflexivity|]. unfold pop_rows.
  set (l := order_by_added (filter is_queued (queue_of w))).
  assert (Hl : forall r, In r l <-> In r (queue_of w) /\ q_status r = queued).
  { intros r. unfold l. rewrite order_by_added_In, filter_In.
    unfold is_queued. destruct (q_status r); simpl; intuition congruence. }
  pose proof (order_by_added_sorted (filter is_queued (queue_of w))) as Hs.
  fold l in Hs. rewrite <- (firstn_skipn batch_size l) in Hs.
  apply by_added_app in Hs as [Hs1 Hs2].
  split; [apply firstn_le_length|].
  split; [intros r Hr; apply Hl; now apply (In_firstn batch_size)|].
  split; [exact Hs1|].
  intros r Hin Hq Hout.
  assert (Hr : In r l) by (apply Hl; now split).
  rewrite <- (firstn_skipn batch_size l) in Hr.
  apply in_app_or in Hr as [Hr | Hr]; [contradiction|].
  split.
  - rewrite length_firstn. apply Nat.min_l.
    destruct (Nat.le_gt_cases batch_size (List.length l)) as [H | H]; [exact H|].
    rewrite skipn_all2 in Hr by lia. destruct Hr.
  - intros r' Hr'. now apply Hs2.
Qed.

(** X7. [queue_mark] sets status, error text and update time of the row
    under its key and nothing else: the other rows, the keys and the
    other tables stay as they are, and marking a key that is not in the
    queue changes no row. *)
Theorem queue_mark_spec (E : Env) (key : string) (status : Status)
    (err : option string) (w : World) :
  exists w',
    queue_mark E key status err w = (Ok tt, w')
    /\ posts_of w' = posts_of w
    /\ db_links (db w') = db_links (db w)
    /\ runs_of w' = runs_of w
    /\ map item_of_row (queue_of w') = map item_of_row (queue_of w)
    /\ (forall r, row_of key (queue_of w) = Some r ->
          row_of key (queue_of w')
          = Some (mkQueueRow (q_key r) (q_url r) (q_depth r) status err (q_is_hub r)
                    (q_max_comment_depth r) (q_added_at_utc r)
                    (now_utc_iso E (tick w))))
    /\ (forall key', key' <> key ->
          row_of key' (queue_of w') = row_of key' (queue_of w))
    /\ (has_key key (queue_of w) = false -> queue_of w' = queue_of w).
Proof.
  rewrite queue_mark_run. eexists. split; [reflexivity|].
  unfold posts_of, runs_of, queue_of. cbn [db db_posts db_links db_runs db_crawl_queue].
  repeat split.
  - rewrite map_map. apply map_ext. intros r. unfold mark_row.
    destruct (String.eqb (q_key r) key); reflexivity.
  - intros r Hr. now apply row_of_mark_self.
  - intros key' Hk. now apply row_of_mark_other.
  - apply mark_absent.
Qed.


Lemma stats_row_absent (run_id : string) (a b c d : Z) (rs : list RunRow) :
  has_run run_id rs = false -> map (stats_row run_id a b c d) rs = rs.
Proof.
  induction rs as [|r rs IH]; [reflexivity|].
  cbn [has_run existsb map]. intros H. apply orb_false_elim in H as [Hr Hrs].
  unfold stats_row at 1. rewrite Hr. f_equal. now apply IH.
Qed.

Lemma end_row_absent (run_id now : string) (rs : list RunRow) :
  has_run run_id rs = false -> map (end_row run_id now) rs = rs.
Proof.
  induction rs as [|r rs IH]; [reflexivity|].
  cbn [has_run existsb map]. intros H. apply orb_false_elim in H as [Hr Hrs].
  unfold end_row at 1. rewrite Hr. f_equal. now apply IH.
Qed.

(** X9. The record of a run: after [begin_run] with an id that is new,
    [update_run_stats] with four counts and [end_run], the table [runs]
    is the old table followed by one row with that id, the start time,
    the end time, the notes and the four counts; the other tables are
    unchanged. *)
Theorem run_record_round_trip (E : Env) (notes : string) (a b c d : Z) (w : World) :
  has_run (uuid4 E (tick w)) (runs_of w) = false ->
  exists w1 w2 w3,
    begin_run E notes w = (Ok (uuid4 E (tick w)), w1)
    /\ update_run_stats (uuid4 E (tick w)) a b c d w1 = (Ok tt, w2)
    /\ end_run E (uuid4 E (tick w)) w2 = (Ok tt, w3)
    /\ runs_of w3
       = runs_of w ++
         [mkRunRow (uuid4 E (tick w)) (now_utc_iso E (S (tick w)))
            (Some (now_utc_iso E (S (S (tick w))))) (Some notes) a b c d]
    /\ posts_of w3 = posts_of w
    /\ db_links (db w3) = db_links (db w)
    /\ queue_of w3 = queue_of w.
Proof.
  intros Hnew. unfold runs_of in Hnew.
  unfold begin_run, update_run_stats, end_run, bind, ask, modify, set_runs, set_db.
  cbn [db tick db_runs db_posts db_links db_crawl_queue]. rewrite Hnew.
  do 3 eexists. split; [reflexivity|]. split; [reflexivity|]. split; [reflexivity|].
  unfold runs_of, posts_of, queue_of.
  cbn [db tick db_runs db_posts db_links db_crawl_queue].
  repeat split.
  rewrite !map_app, stats_row_absent, end_row_absent by exact Hnew.
  cbn [map]. unfold stats_row, end_row. cbn [r_run_id].
  rewrite String.eqb_refl. cbn [r_run_id]. rewrite String.eqb_refl. reflexivity.
Qed.

Lemma run_record_round_trip_witness :
  exists w1 w2 w3,
    begin_run sampleE "n" new_world = (Ok (uuid4 sampleE (tick new_world)), w1)
    /\ update_run_stats (uuid4 sampleE (tick new_world)) 1 2 3 4 w1 = (Ok tt, w2)
    /\ end_run sampleE (uuid4 sampleE (tick new_world)) w2 = (Ok tt, w3)
    /\ runs_of w3
       = runs_of new_world ++
         [mkRunRow (uuid4 sampleE (tick new_world))
            (now_utc_iso sampleE (S (tick new_world)))
            (Some (now_utc_iso sampleE (S (S (tick new_world))))) (Some "n") 1 2 3 4]
    /\ posts_of w3 = posts_of new_world
    /\ db_links (db w3) = db_links (db new_world)
    /\ queue_of w3 = queue_of new_world.
Proof.
  apply (run_record_round_trip sampleE "n" 1 2 3 4 new_world).
  vm_compute. reflexivity.
Defined.

(** X10. [begin_run] with an id that the table [runs] holds already
    raises, and the database is as it was. *)
Theorem begin_run_taken_id (E : Env) (notes : string) (w : World) :
  has_run (uuid4 E (tick w)) (runs_of w) = true ->
  exists w',
    begin_run E notes w = (Raise "UNIQUE constraint failed: runs.run_id", w')
    /\ db w' = db w.
Proof.
  intros H. unfold runs_of in H. unfold begin_run, bind, ask.
  cbn [db tick]. rewrite H. eexists. split; reflexivity.
Qed.

Lemma begin_run_taken_id_witness :
  exists w',
    begin_run sampleE "n"
      (mkWorld (mkDB [] [] []
                  [mkRunRow (uuid4 sampleE 0) "t" None None 0 0 0 0]) 0)
    = (Raise "UNIQUE constraint failed: runs.run_id", w')
    /\ db w' = mkDB [] [] [] [mkRunRow (uuid4 sampleE 0) "t" None None 0 0 0 0].
Proof.
  apply (begin_run_taken_id sampleE "n"
           (mkWorld (mkDB [] [] []
                       [mkRunRow (uuid4 sampleE 0) "t" None None 0 0 0 0]) 0)).
  vm_compute. reflexivity.
Defined.

(** X11. [upsert_link] succeeds exactly when the link is there already or
    its post is; it then leaves the link in the table, adding one row at
    the end when the link is new.  Otherwise it raises the foreign key
    error.  Posts, queue and runs are never changed, and nothing is
    changed when the link is there already or the call raises. *)
Theorem upsert_link_spec (E : Env) (post_id url : string) (w : World) :
  exists r w',
    upsert_link E post_id url w = (r, w')
    /\ posts_of w' = posts_of w /\ queue_of w' = queue_of w /\ runs_of w' = runs_of w
    /\ (r = Ok tt <->
        has_link post_id url (db_links (db w)) = true
        \/ has_post post_id (posts_of w) = true)
    /\ (r = Ok tt -> has_link post_id url (db_links (db w')) = true)
    /\ (r <> Ok tt -> r = Raise "FOREIGN KEY constraint failed")
    /\ (has_link post_id url (db_links (db w)) = true \/ r <> Ok tt ->
        db_links (db w') = db_links (db w))
    /\ (has_link post_id url (db_links (db w)) = false -> r = Ok tt ->
        db_links (db w')
        = db_links (db w) ++ [mkLinkRow post_id url (now_utc_iso E (tick w))]).
Proof.
  unfold upsert_link, bind, ask, posts_of, queue_of, runs_of, set_db.
  cbn [db tick].
  destruct (has_link post_id url (db_links (db w))) eqn:Hl.
  - do 2 eexists. split; [reflexivity|]. cbn [db].
    repeat split; try reflexivity; try congruence; auto.
  - destruct (has_post post_id (db_posts (db w))) eqn:Hp.
    + do 2 eexists. split; [reflexivity|]. cbn [db db_posts db_links db_crawl_queue db_runs].
      repeat split; try reflexivity; try congruence; auto.
      * intros _. unfold has_link. rewrite existsb_app. cbn [existsb l_post_id l_url].
        rewrite !String.eqb_refl. now rewrite orb_true_r.
      * intros [H | H]; [discriminate | now contradiction H].
    + do 2 eexists. split; [reflexivity|]. cbn [db].
      repeat split; try reflexivity; try congruence; auto.
      all: try (intros H; discriminate H).
      all: try (intros [H | H]; discriminate H).
Qed.

(* ================================================================== *)
(** ** The rows of the queue: what is added, and how *)
(* ================================================================== *)

Lemma adds_refl (R : QueueRow -> Prop) (w : World) : adds R w w.
Proof. exists []. split; [now rewrite app_nil_r | constructor]. Qed.

Lemma adds_trans (R : QueueRow -> Prop) (x y z : World) :
  adds R x y -> adds R y z -> adds R x z.
Proof.
  intros (a & Ha & Ra) (b & Hb & Rb). exists (a ++ b). split.
  - now rewrite Hb, Ha, app_assoc.
  - apply Forall_app. now split.
Qed.

Lemma same_queue_adds (R : QueueRow -> Prop) (w w' : World) :
  same_queue w w' -> adds R w w'.
Proof.
  intros H. exists []. split; [now rewrite app_nil_r | constructor].
Qed.

Lemma queue_add_adds (R : QueueRow -> Prop) (E : Env) (key url : string)
    (d h m : Z) (w : World) :
  (forall a b, R (mkQueueRow key url d queued None h m a b)) ->
  adds R w (snd (queue_add E key url d h m w)).
Proof.
  intros HR. unfold adds. rewrite queue_add_queue. unfold insert_queue_row.
  cbn [q_key]. destruct (has_key key (queue_of w)).
  - exists []. split; [now rewrite app_nil_r | constructor].
  - eexists. split; [reflexivity|]. constructor; [apply HR | constructor].
Qed.

Lemma link_row_intro (d : Z) (nu a b : string) :
  normalize_reddit_url nu = nu ->
  link_row d (mkQueueRow (queue_key nu) nu (d + 1) queued None 0 0 a b).
Proof. intros H. unfold link_row. cbn. repeat split. exact H. Qed.

Lemma discover_links_adds (E : Env) (post_id : string) (depth : Z)
    (urls : list string) (w : World) :
  adds (link_row depth) w (snd (discover_links E post_id depth urls w)).
Proof.
  revert w. induction urls as [|u rest IH]; intros w.
  - apply adds_refl.
  - cbn [discover_links].
    apply bind_rel; [apply adds_trans| |].
    + intros w0. apply same_queue_adds, upsert_link_same_queue.
    + intros _ w0. apply bind_rel; [apply adds_trans| |].
      * intros w1. destruct (_ && _); [|apply adds_refl].
        apply queue_add_adds. intros a b. apply link_row_intro, normalize_normal.
      * intros _ w1. apply IH.
Qed.

Lemma store_adds (E : Env) (s : Submission) (depth : Z) (w : World) :
  adds (link_row depth) w (snd (store_submission_and_discover E s depth w)).
Proof.
  unfold store_submission_and_discover.
  apply bind_rel; [apply adds_trans| |].
  - intros w0. apply same_queue_adds. reflexivity.
  - intros now w0. apply bind_rel; [apply adds_trans| |].
    + intros w1. apply same_queue_adds, insert_post_same_queue.
    + intros b w1. apply bind_rel; [apply adds_trans| |].
      * intros w2. apply discover_links_adds.
      * intros _ w2. apply adds_refl.
Qed.

Lemma enqueue_best_links_adds (E : Env) (depth : Z) (links : list string) (w : World) :
  (forall nu, In nu links -> normalize_reddit_url nu = nu) ->
  adds (link_row depth) w (snd (enqueue_best_links E depth links w)).
Proof.
  revert w. induction links as [|nu rest IH]; intros w Hn.
  - apply adds_refl.
  - cbn [enqueue_best_links].
    apply bind_rel; [apply adds_trans| |].
    + intros w0. apply queue_add_adds. intros a b.
      apply link_row_intro, Hn. now left.
    + intros _ w0. apply IH. intros x Hx. apply Hn. now right.
Qed.

Lemma extract_best_normal (E : Env) (s : Submission) (top_n : nat) (rd : Z)
    (mr : nat) (w w' : World) (links : list string) :
  extract_reddit_links_from_best_comments E s top_n rd mr w = (Ok links, w') ->
  w' = w /\ forall nu, In nu links -> normalize_reddit_url nu = nu.
Proof.
  unfold extract_reddit_links_from_best_comments.
  destruct (s_comments s) as [comments|msg]; [|discriminate].
  cbn. intros H. injection H as <- <-. split; [reflexivity|].
  intros nu Hnu. apply sorted_set_In, in_flat_map in Hnu as (top & _ & Hnu).
  apply comment_links_In in Hnu as (body & _ & Hnu).
  apply reddit_links_in_In in Hnu as (u & _ & _ & ->).
  apply normalize_normal.
Qed.

Lemma crawl_item_work_adds (E : Env) (it : QItem) (w : World) :
  adds (link_row (i_depth it)) w (snd (crawl_item_work E it w)).
Proof.
  unfold crawl_item_work.
  apply bind_rel; [apply adds_trans| |].
  - intros w0. apply same_queue_adds, fetch_same_queue.
  - intros s w0. apply bind_rel; [apply adds_trans| |].
    + intros w1. apply store_adds.
    + intros _ w1. destruct (_ && _); [|apply adds_refl].
      unfold bind.
      destruct (extract_reddit_links_from_best_comments E s HUB_TOP_LEVEL_COMMENTS
                  (i_max_comment_depth it) HUB_MAX_REPLIES_PER_TOP w1)
        as [[links|msg|] w2] eqn:He.
      * apply extract_best_normal in He as [-> Hn].
        now apply enqueue_best_links_adds.
      * pose proof (extract_best_same_world E s HUB_TOP_LEVEL_COMMENTS
                      (i_max_comment_depth it) HUB_MAX_REPLIES_PER_TOP w1) as Hw.
        rewrite He in Hw. cbn in Hw. subst. apply adds_refl.
      * pose proof (extract_best_same_world E s HUB_TOP_LEVEL_COMMENTS
                      (i_max_comment_depth it) HUB_MAX_REPLIES_PER_TOP w1) as Hw.
        rewrite He in Hw. cbn in Hw. subst. apply adds_refl.
Qed.

Lemma take_length (n : nat) (s : string) : (String.length (take n s) <= n)%nat.
Proof.
  revert s. induction n as [|n IH]; intros s; simpl; [lia|].
  destruct s as [|c t]; simpl; [lia | specialize (IH t); lia].
Qed.

(** One item of the batch: rows are added, then the row of the item is
    marked. *)
Lemma crawl_item_adds (E : Env) (it : QItem) (st : CrawlLocals) (w : World) :
  exists (added : list QueueRow) (status : Status) (err : option string) (now : string),
    queue_of (snd (crawl_item E it st w))
      = map (mark_row (i_key it) status err now) (queue_of w ++ added)
    /\ Forall (link_row (i_depth it)) added
    /\ (may_enqueue it = false -> added = [])
    /\ (status = done /\ err = None
        \/ status = error /\ exists msg, err = Some (take 500 msg)).
Proof.
  destruct (crawl_item_work_adds E it w) as (added & Hq & Hadded).
  assert (Hb : may_enqueue it = false -> added = []).
  { intros Hm. pose proof (crawl_item_work_at_bound E it w Hm) as Hs.
    unfold same_queue in Hs. rewrite Hq in Hs.
    rewrite <- (app_nil_r (queue_of w)) in Hs at 2.
    now apply app_inv_head in Hs. }
  rewrite crawl_item_run.
  destruct (crawl_item_work E it w) as [[[]|msg|] w1] eqn:Hw; cbn [snd] in Hq |- *.
  - rewrite queue_mark_run. exists added, done, None, (now_utc_iso E (tick w1)).
    unfold queue_of at 1. cbn [db db_crawl_queue]. rewrite Hq.
    split; [reflexivity|]. split; [exact Hadded|]. split; [exact Hb|]. now left.
  - rewrite queue_mark_run.
    exists added, error, (Some (take 500 msg)), (now_utc_iso E (tick w1)).
    unfold queue_of at 1. cbn [db db_crawl_queue]. rewrite Hq.
    split; [reflexivity|]. split; [exact Hadded|]. split; [exact Hb|].
    right. split; [reflexivity|]. now exists msg.
  - exfalso. apply (crawl_item_work_finishes E it w). now rewrite Hw.
Qed.

Lemma startswith_app (p s : string) : startswith p (p ++ s) = true.
Proof.
  induction p as [|a p IH]; [reflexivity|].
  simpl. now rewrite Ascii.eqb_refl, IH.
Qed.

Lemma row_shape_mark (key : string) (status : Status) (err : option string)
    (now : string) (r : QueueRow) :
  row_shape r -> row_shape (mark_row key status err now r).
Proof.
  unfold mark_row. destruct (String.eqb (q_key r) key); [|trivial].
  unfold row_shape. cbn. trivial.
Qed.

Lemma row_shape_requeue (now : string) (r : QueueRow) :
  row_shape r -> row_shape (requeue_hub now r).
Proof.
  unfold requeue_hub. destruct (q_is_hub r =? 1)%Z; [|trivial].
  unfold row_shape. cbn. trivial.
Qed.

Lemma link_row_shape (d : Z) (r : QueueRow) :
  (0 <= d)%Z -> link_row d r -> row_shape r.
Proof.
  intros Hd (H1 & H2 & H3 & _ & _ & H6 & H7). right.
  repeat split; try assumption. lia.
Qed.

Lemma row_shape_depth (r : QueueRow) : row_shape r -> (0 <= q_depth r)%Z.
Proof. intros [(_ & H & _) | (_ & H & _)]; lia. Qed.

(** X12. In every state of [crawl_queue] that the pipeline reaches, a row
    is of one of two kinds.  A hub: [is_hub] 1, depth 0, comment depth
    HUB_REPLY_DEPTH, its URL a permalink under [https://www.reddit.com].
    Or a link: [is_hub] 0, depth 1 or more, comment depth 0, its URL
    normalised and its key the id found in the URL or else the URL. *)
Theorem queue_rows_shape (E : Env) (w : World) :
  reachable E w -> Forall row_shape (queue_of w).
Proof.
  induction 1 as [t|s w H IH|s w H IH|it st w H IH Hin|w H IH|w w' H IH Heq].
  - constructor.
  - destruct (store_adds E s 0 w) as (added & -> & Hadded).
    apply Forall_app. split; [exact IH|].
    eapply Forall_impl; [|exact Hadded]. intros r. now apply link_row_shape.
  - rewrite queue_add_queue. unfold insert_queue_row.
    destruct (has_key _ _); [exact IH|].
    apply Forall_app. split; [exact IH|]. constructor; [|constructor].
    left. repeat split; first [reflexivity | apply startswith_app].
  - destruct (crawl_item_adds E it st w) as (added & status & err & now & -> & Hadded & _).
    apply Forall_forall. intros r Hr. apply in_map_iff in Hr as (r0 & <- & Hr0).
    apply row_shape_mark. apply in_app_or in Hr0 as [Hr0 | Hr0].
    + exact (proj1 (Forall_forall _ _) IH r0 Hr0).
    + apply (link_row_shape (i_depth it)).
      * apply in_map_iff in Hin as (ri & <- & Hri). cbn [i_depth item_of_row].
        apply row_shape_depth. exact (proj1 (Forall_forall _ _) IH ri Hri).
      * exact (proj1 (Forall_forall _ _) Hadded r0 Hr0).
  - rewrite queue_reset_hubs_run. unfold queue_of at 1. cbn [db db_crawl_queue].
    apply Forall_forall. intros r Hr. apply in_map_iff in Hr as (r0 & <- & Hr0).
    apply row_shape_requeue. exact (proj1 (Forall_forall _ _) IH r0 Hr0).
  - now rewrite Heq.
Qed.

Lemma queue_rows_shape_witness :
  reachable sampleE world_after_run /\ Forall row_shape (queue_of world_after_run).
Proof.
  split; [exact world_after_run_reachable|].
  exact (queue_rows_shape sampleE world_after_run world_after_run_reachable).
Defined.

(* ------------------------------------------------------------------ *)
(** *** Status and error text *)

Lemma link_row_state (d : Z) (r : QueueRow) : link_row d r -> row_state r.
Proof.
  intros (_ & _ & _ & Hs & He & _). unfold row_state. rewrite Hs, He.
  split; [now left | discriminate].
Qed.

Lemma row_state_mark (key : string) (status : Status) (err : option string)
    (now : string) (r : QueueRow) :
  (status = done /\ err = None
   \/ status = error /\ exists msg, err = Some (take 500 msg)) ->
  row_state r -> row_state (mark_row key status err now r).
Proof.
  intros Hm Hr. unfold mark_row. destruct (String.eqb (q_key r) key); [|exact Hr].
  unfold row_state. cbn [q_status q_last_error q_is_hub].
  destruct Hm as [[-> ->] | [-> [msg ->]]].
  - split; [reflexivity | discriminate].
  - split; [discriminate|]. intros e He.
    replace e with (take 500 msg) by congruence. apply take_length.
Qed.

Lemma row_state_requeue (now : string) (r : QueueRow) :
  row_state r -> row_state (requeue_hub now r).
Proof.
  intros Hr. unfold requeue_hub.
  destruct (q_is_hub r =? 1)%Z eqn:Hh; [|exact Hr].
  apply Z.eqb_eq in Hh. destruct Hr as [_ Hlen].
  unfold row_state. cbn [q_status q_last_error q_is_hub].
  split; [now right | exact Hlen].
Qed.

(** X13. In every state of [crawl_queue] that the pipeline reaches,
    status and error text of a row go together: a row [done] has no
    error text, a row [error] has one, a queued row has none unless it
    is a hub that was put back in the queue; and an error text is at most
    500 characters long. *)
Theorem queue_rows_state (E : Env) (w : World) :
  reachable E w -> Forall row_state (queue_of w).
Proof.
  induction 1 as [t|s w H IH|s w H IH|it st w H IH Hin|w H IH|w w' H IH Heq].
  - constructor.
  - destruct (store_adds E s 0 w) as (added & -> & Hadded).
    apply Forall_app. split; [exact IH|].
    eapply Forall_impl; [|exact Hadded]. intros r. apply link_row_state.
  - rewrite queue_add_queue. unfold insert_queue_row.
    destruct (has_key _ _); [exact IH|].
    apply Forall_app. split; [exact IH|]. constructor; [|constructor].
    unfold row_state. cbn. split; [now left | discriminate].
  - destruct (crawl_item_adds E it st w)
      as (added & status & err & now & -> & Hadded & _ & Hm).
    apply Forall_forall. intros r Hr. apply in_map_iff in Hr as (r0 & <- & Hr0).
    apply row_state_mark; [exact Hm|]. apply in_app_or in Hr0 as [Hr0 | Hr0].
    + exact (proj1 (Forall_forall _ _) IH r0 Hr0).
    + apply (link_row_state (i_depth it)).
      exact (proj1 (Forall_forall _ _) Hadded r0 Hr0).
  - rewrite queue_reset_hubs_run. unfold queue_of at 1. cbn [db db_crawl_queue].
    apply Forall_forall. intros r Hr. apply in_map_iff in Hr as (r0 & <- & Hr0).
    apply row_state_requeue. exact (proj1 (Forall_forall _ _) IH r0 Hr0).
  - now rewrite Heq.
Qed.

Lemma queue_rows_state_witness :
  reachable failingE (snd (main 10 failingE sample_args new_world))
  /\ Forall row_state (queue_of (snd (main 10 failingE sample_args new_world))).
Proof.
  assert (H : reachable failingE (snd (main 10 failingE sample_args new_world)))
    by apply main_reachable, reach_new.
  split; [exact H|].
  exact (queue_rows_state failingE _ H).
Defined.

(* ================================================================== *)
(** ** Tables only grow *)
(* ================================================================== *)

Lemma extends_refl (w : World) : extends w w.
Proof. repeat split; exists []; now rewrite app_nil_r. Qed.

Lemma extends_trans (x y z : World) : extends x y -> extends y z -> extends x z.
Proof.
  intros ((a1 & H1) & (a2 & H2) & (a3 & H3)) ((b1 & G1) & (b2 & G2) & (b3 & G3)).
  split; [|split].
  - exists (a1 ++ b1). now rewrite G1, H1, app_assoc.
  - exists (a2 ++ b2). now rewrite G2, H2, app_assoc.
  - exists (a3 ++ b3). now rewrite G3, H3, app_assoc.
Qed.

Lemma extends_same_db (w w' : World) : db w' = db w -> extends w w'.
Proof.
  intros H. unfold extends, posts_of, queue_of. rewrite H.
  repeat split; exists []; now rewrite app_nil_r.
Qed.

Lemma ask_extends {A : Type} (oracle : nat -> A) (w : World) :
  extends w (snd (ask oracle w)).
Proof. now apply extends_same_db. Qed.

Lemma insert_post_extends (row : PostRow) (w : World) :
  extends w (snd (insert_post row w)).
Proof.
  unfold insert_post. destruct (has_post _ _); [apply extends_refl|].
  unfold extends, posts_of, queue_of, set_db. cbn.
  split; [now exists [row]|].
  split; exists []; now rewrite app_nil_r.
Qed.

Lemma upsert_link_extends (E : Env) (post_id url : string) (w : World) :
  extends w (snd (upsert_link E post_id url w)).
Proof.
  unfold upsert_link, bind, ask. cbn [db tick].
  destruct (has_link _ _ _); [now apply extends_same_db|].
  destruct (has_post _ _); [|now apply extends_same_db].
  unfold extends, posts_of, queue_of, set_db. cbn.
  split; [exists []; now rewrite app_nil_r|].
  split; [eexists; reflexivity|].
  exists []; now rewrite app_nil_r.
Qed.

Lemma queue_add_extends (E : Env) (key url : string) (d h m : Z) (w : World) :
  extends w (snd (queue_add E key url d h m w)).
Proof.
  rewrite queue_add_run. unfold extends, posts_of, queue_of. cbn.
  split; [exists []; now rewrite app_nil_r|].
  split; [exists []; now rewrite app_nil_r|].
  unfold insert_queue_row. destruct (has_key _ _).
  - exists []. now rewrite app_nil_r.
  - rewrite map_app. eexists. reflexivity.
Qed.

Lemma item_of_mark_row (key : string) (status : Status) (err : option string)
    (now : string) (q : list QueueRow) :
  map item_of_row (map (mark_row key status err now) q) = map item_of_row q.
Proof.
  rewrite map_map. apply map_ext. intros r. unfold mark_row.
  destruct (String.eqb (q_key r) key); reflexivity.
Qed.

Lemma item_of_requeue_hub (now : string) (q : list QueueRow) :
  map item_of_row (map (requeue_hub now) q) = map item_of_row q.
Proof.
  rewrite map_map. apply map_ext. intros r. unfold requeue_hub.
  destruct (q_is_hub r =? 1)%Z; reflexivity.
Qed.

Lemma queue_mark_extends (E : Env) (key : string) (status : Status)
    (err : option string) (w : World) :
  extends w (snd (queue_mark E key status err w)).
Proof.
  rewrite queue_mark_run. unfold extends, posts_of, queue_of. cbn.
  split; [exists []; now rewrite app_nil_r|].
  split; [exists []; now rewrite app_nil_r|].
  exists []. now rewrite app_nil_r, item_of_mark_row.
Qed.

Lemma queue_reset_hubs_extends (E : Env) (w : World) :
  extends w (snd (queue_reset_hubs E w)).
Proof.
  rewrite queue_reset_hubs_run. unfold extends, posts_of, queue_of. cbn.
  split; [exists []; now rewrite app_nil_r|].
  split; [exists []; now rewrite app_nil_r|].
  exists []. now rewrite app_nil_r, item_of_requeue_hub.
Qed.

Lemma discover_links_extends (E : Env) (post_id : string) (depth : Z)
    (urls : list string) (w : World) :
  extends w (snd (discover_links E post_id depth urls w)).
Proof.
  revert w. induction urls as [|u rest IH]; intros w.
  - apply extends_refl.
  - cbn [discover_links].
    apply bind_rel; [apply extends_trans| |].
    + intros w0. apply upsert_link_extends.
    + intros _ w0. apply bind_rel; [apply extends_trans| |].
      * intros w1. destruct (_ && _); [apply queue_add_extends|apply extends_refl].
      * intros _ w1. apply IH.
Qed.

Lemma store_extends (E : Env) (s : Submission) (depth : Z) (w : World) :
  extends w (snd (store_submission_and_discover E s depth w)).
Proof.
  unfold store_submission_and_discover.
  apply bind_rel; [apply extends_trans| |].
  - intros w0. apply ask_extends.
  - intros now w0. apply bind_rel; [apply extends_trans| |].
    + intros w1. apply insert_post_extends.
    + intros b w1. apply bind_rel; [apply extends_trans| |].
      * intros w2. apply discover_links_extends.
      * intros _ w2. apply extends_refl.
Qed.

Lemma enqueue_best_links_extends (E : Env) (depth : Z) (links : list string) (w : World) :
  extends w (snd (enqueue_best_links E depth links w)).
Proof.
  revert w. induction links as [|nu rest IH]; intros w.
  - apply extends_refl.
  - cbn [enqueue_best_links].
    apply bind_rel; [apply extends_trans| |].
    + intros w0. apply queue_add_extends.
    + intros _ w0. apply IH.
Qed.

Lemma crawl_item_work_extends (E : Env) (it : QItem) (w : World) :
  extends w (snd (crawl_item_work E it w)).
Proof.
  unfold crawl_item_work.
  apply bind_rel; [apply extends_trans| |].
  - intros w0. apply extends_same_db. unfold bind. rewrite ask_run.
    destruct (reddit_submission E (tick w0) (item_sid it) (i_url it)); reflexivity.
  - intros s w0. apply bind_rel; [apply extends_trans| |].
    + intros w1. apply store_extends.
    + intros _ w1. destruct (_ && _); [|apply extends_refl].
      apply bind_rel; [apply extends_trans| |].
      * intros w2. rewrite extract_best_same_world. apply extends_refl.
      * intros links w2. apply enqueue_best_links_extends.
Qed.

Lemma crawl_item_extends (E : Env) (it : QItem) (st : CrawlLocals) (w : World) :
  extends w (snd (crawl_item E it st w)).
Proof.
  rewrite crawl_item_run. pose proof (crawl_item_work_extends E it w) as H.
  destruct (crawl_item_work E it w) as [[[]|msg|] w1]; cbn [snd] in *.
  - apply (extends_trans w w1); [exact H | apply queue_mark_extends].
  - apply (extends_trans w w1); [exact H | apply queue_mark_extends].
  - exact H.
Qed.

Lemma extends_stable (E : Env) (w0 : World) : unit_stable E (extends w0).
Proof.
  unfold unit_stable. split; [|split; [|split; [|split]]].
  - intros w t H. apply (extends_trans w0 w); [exact H|]. now apply extends_same_db.
  - intros s w H. apply (extends_trans w0 w); [exact H | apply store_extends].
  - intros s w H. apply (extends_trans w0 w); [exact H | apply queue_add_extends].
  - intros it st w H _. apply (extends_trans w0 w); [exact H | apply crawl_item_extends].
  - intros w H. apply (extends_trans w0 w); [exact H | apply queue_reset_hubs_extends].
Qed.

(** What a table that only grows keeps. *)
Lemma has_key_items (key : string) (q : list QueueRow) :
  has_key key q = existsb (fun it => String.eqb (i_key it) key) (map item_of_row q).
Proof.
  unfold has_key. induction q as [|r q IH]; [reflexivity|].
  cbn [map existsb]. now rewrite IH.
Qed.

Lemma extends_has_key (w w' : World) (key : string) :
  extends w w' -> has_key key (queue_of w) = true -> has_key key (queue_of w') = true.
Proof.
  intros (_ & _ & l & H). rewrite !has_key_items, H, existsb_app.
  intros ->. reflexivity.
Qed.

Lemma extends_has_post (w w' : World) (id : string) :
  extends w w' -> has_post id (posts_of w) = true -> has_post id (posts_of w') = true.
Proof.
  intros ((l & H) & _). unfold has_post. rewrite H, existsb_app.
  intros ->. reflexivity.
Qed.

Lemma extends_has_link (w w' : World) (post_id url : string) :
  extends w w' -> has_link post_id url (db_links (db w)) = true ->
  has_link post_id url (db_links (db w')) = true.
Proof.
  intros (_ & (l & H) & _). unfold has_link. rewrite H, existsb_app.
  intros ->. reflexivity.
Qed.

Section WholeRunTables.

Variable E : Env.
Variable P : World -> Prop.
Hypothesis HP : unit_stable E P.
Hypothesis P_tables :
  forall w w', P w -> posts_of w' = posts_of w ->
               db_links (db w') = db_links (db w) ->
               queue_of w' = queue_of w -> P w'.

Lemma flush_keeps_tables (run_id : string) : frame_keeps P (flush_stats run_id).
Proof.
  unfold flush_stats. apply frame_keeps_bind.
  - intros [c w] Hw. exact Hw.
  - intros c. apply frame_keeps_lift. intros w Hw.
    apply (P_tables w); [exact Hw|reflexivity..].
Qed.

Lemma end_run_keeps_tables (run_id : string) (w : World) :
  P w -> P (snd (end_run E run_id w)).
Proof. intros Hw. apply (P_tables w); [exact Hw|reflexivity..]. Qed.

Lemma main_try_keeps_tables (fuel : nat) (args : Args) (deadline_ts : option Z)
    (run_id : string) :
  frame_keeps P (main_try fuel E args deadline_ts run_id).
Proof.
  unfold main_try.
  apply frame_keeps_bind.
  { destruct (recrawl_hubs args); [|apply frame_keeps_ret].
    apply frame_keeps_lift. intros w Hw. now apply HP. }
  intros _. apply frame_keeps_bind.
  { apply frame_keeps_lift. intros w Hw. now apply (ingest_stable E P HP). }
  intros n. apply frame_keeps_bind; [apply frame_keeps_assign|].
  intros _. apply frame_keeps_bind; [apply flush_keeps_tables|].
  intros _. apply frame_keeps_bind.
  { apply frame_keeps_lift. now apply deadline_keeps. }
  intros late. apply frame_keeps_bind.
  { destruct (negb late); [|apply frame_keeps_ret].
    apply frame_keeps_bind.
    - apply frame_keeps_lift. intros w Hw.
      now apply (discover_hub_posts_stable E P HP).
    - intros h. apply frame_keeps_bind; [apply frame_keeps_assign|].
      intros _. apply flush_keeps_tables. }
  intros _. apply frame_keeps_bind.
  { apply frame_keeps_lift. now apply deadline_keeps. }
  intros late2. apply frame_keeps_bind.
  { destruct (negb late2); [|apply frame_keeps_ret].
    apply frame_keeps_bind.
    - apply frame_keeps_lift. intros w Hw. now apply (crawl_queue_stable E P HP).
    - intros r. apply frame_keeps_bind; [apply frame_keeps_assign|].
      intros _. apply frame_keeps_bind; [apply frame_keeps_assign|].
      intros _. apply flush_keeps_tables. }
  intros _. apply frame_keeps_bind.
  { apply frame_keeps_lift. apply end_run_keeps_tables. }
  intros _. apply frame_keeps_ret.
Qed.

Lemma main_except_keeps_tables (run_id msg : string) :
  frame_keeps P (main_except E run_id msg).
Proof.
  unfold main_except. apply frame_keeps_bind.
  - intros [c w] Hw. exact Hw.
  - intros c. apply frame_keeps_bind.
    + apply frame_keeps_lift. intros w Hw.
      apply (P_tables w); [exact Hw|reflexivity..].
    + intros _. apply frame_keeps_bind; [|intros _; apply frame_keeps_ret].
      apply frame_keeps_lift. apply end_run_keeps_tables.
Qed.

(** A run of [main] keeps what its units of work keep and what does not
    depend on the table of runs, however it ends and whatever the
    budget. *)
Lemma main_keeps_tables (fuel : nat) (args : Args) (w : World) :
  P w -> P (snd (main fuel E args w)).
Proof.
  intros Hw. unfold main. unfold bind at 1.
  assert (Hdl : exists dl t,
            (match max_minutes args with
             | None => ret None
             | Some m => now <- ask (time_time E) ;; ret (Some (now + m * 60)%Z)
             end) w = (Ok dl, mkWorld (db w) t)).
  { destruct (max_minutes args).
    - do 2 eexists. reflexivity.
    - exists None, (tick w). destruct w. reflexivity. }
  destruct Hdl as (dl & t & ->).
  assert (Hw0 : P (mkWorld (db w) t)) by now apply HP.
  unfold bind at 1, begin_run. unfold bind at 1. rewrite ask_run.
  unfold bind at 1. rewrite ask_run. cbn [db tick].
  destruct (has_run _ _); [exact (proj1 HP _ _ Hw0)|].
  match goal with
  | |- context [try_except ?b ?h ?f] =>
      pose proof (frame_keeps_try P b h (main_try_keeps_tables fuel args dl _)
                    (main_except_keeps_tables _) f) as Hk;
      destruct (try_except b h f) as [r [c w']]
  end.
  cbn [snd] in *. apply Hk.
  apply (P_tables (mkWorld (db w) t)); [exact Hw0|reflexivity..].
Qed.

End WholeRunTables.

(** X14. A run of [main], however it ends and whatever its arguments,
    only adds rows at the end of [posts], [links] and [crawl_queue]: the
    posts and links that were there are unchanged, no row of the queue is
    removed, and of a row of the queue only status, error text and update
    time can change. *)
Theorem main_only_appends (fuel : nat) (E : Env) (args : Args) (w : World) :
  extends w (snd (main fuel E args w)).
Proof.
  apply (main_keeps_tables E (extends w)).
  - apply extends_stable.
  - intros w1 w2 (H1 & H2 & H3) E1 E2 E3. unfold extends.
    rewrite E1, E2, E3. now repeat split.
  - apply extends_refl.
Qed.

(* ================================================================== *)
(** ** Storing a submission *)
(* ================================================================== *)

Lemma bind_ok {S A B : Type} (m : M S A) (k : A -> M S B) (s : S) (a : A) :
  fst (m s) = Ok a -> bind m k s = k a (snd (m s)).
Proof. unfold bind. destruct (m s) as [r s']. cbn. now intros ->. Qed.

Lemma upsert_link_has_link (E : Env) (post_id url : string) (w : World) :
  has_post post_id (posts_of w) = true ->
  has_link post_id url (db_links (db (snd (upsert_link E post_id url w)))) = true.
Proof.
  unfold posts_of, upsert_link, bind, ask. cbn [db tick]. intros Hp.
  destruct (has_link post_id url (db_links (db w))) eqn:Hl; [exact Hl|].
  rewrite Hp. unfold set_db, has_link. cbn. rewrite existsb_app. cbn.
  rewrite !String.eqb_refl. now rewrite orb_true_r.
Qed.

Lemma queue_add_has_key (E : Env) (key url : string) (d h m : Z) (w : World) :
  has_key key (queue_of (snd (queue_add E key url d h m w))) = true.
Proof.
  rewrite queue_add_queue. unfold insert_queue_row. cbn [q_key].
  destruct (has_key key (queue_of w)) eqn:Hk; [exact Hk|].
  rewrite has_key_app. cbn. rewrite String.eqb_refl. now rewrite orb_true_r.
Qed.

(** What the loop over the URLs of a submission leaves in the store. *)
Lemma discover_links_records (E : Env) (post_id : string) (depth : Z)
    (urls : list string) (w : World) :
  has_post post_id (posts_of w) = true ->
  forall u, In u urls ->
    has_link post_id u
      (db_links (db (snd (discover_links E post_id depth urls w)))) = true
    /\ ((depth <? MAX_CRAWL_DEPTH)%Z && is_reddit_submission_url (urlparse E) u = true ->
        has_key (queue_key (normalize_reddit_url u))
          (queue_of (snd (discover_links E post_id depth urls w))) = true).
Proof.
  revert w. induction urls as [|x rest IH]; intros w Hp u Hu; [destruct Hu|].
  cbn [discover_links].
  rewrite (bind_ok _ _ _ tt (upsert_link_ok E post_id x w Hp)).
  set (w1 := snd (upsert_link E post_id x w)).
  assert (Hp1 : has_post post_id (posts_of w1) = true).
  { unfold w1. now rewrite (upsert_link_same_posts E post_id x w). }
  assert (Hl1 : has_link post_id x (db_links (db w1)) = true)
    by now apply upsert_link_has_link.
  set (step := if (depth <? MAX_CRAWL_DEPTH)%Z && is_reddit_submission_url (urlparse E) x
               then queue_add E (queue_key (normalize_reddit_url x))
                      (normalize_reddit_url x) (depth + 1) 0 0
               else ret tt).
  assert (Hok : fst (step w1) = Ok tt).
  { unfold step. destruct (_ && _); [apply queue_add_ok | reflexivity]. }
  rewrite (bind_ok _ _ _ tt Hok).
  set (w2 := snd (step w1)).
  assert (Hx : extends w1 w2).
  { unfold w2, step. destruct (_ && _); [apply queue_add_extends | apply extends_refl]. }
  assert (Hp2 : has_post post_id (posts_of w2) = true)
    by now apply (extends_has_post w1).
  pose proof (discover_links_extends E post_id depth rest w2) as Hrest.
  destruct Hu as [<- | Hu]; [|now apply IH].
  split.
  - apply (extends_has_link w2); [exact Hrest|].
    now apply (extends_has_link w1).
  - intros Hg. apply (extends_has_key w2); [exact Hrest|].
    unfold w2, step. rewrite Hg. apply queue_add_has_key.
Qed.

Lemma submission_urls_In (s : Submission) (u : string) :
  In u (submission_urls s) <->
  In u (extract_urls (or_empty (s_title s)))
  \/ In u (extract_urls (or_empty (s_selftext s)))
  \/ In u (extract_urls (or_empty (s_url s))).
Proof. unfold submission_urls. now rewrite sorted_set_In, !in_app_iff. Qed.

Lemma store_unfold (E : Env) (s : Submission) (depth : Z) (w : World) :
  exists w1,
    has_post (s_id s) (posts_of w1) = true
    /\ extends w w1
    /\ posts_of w1
       = posts_of w ++
         (if has_post (s_id s) (posts_of w) then []
          else [mkPostRow (s_id s) (s_subreddit s) (s_created_utc s)
                  (ts_to_iso E (s_created_utc s)) (s_title s) (s_selftext s)
                  (s_score s) (s_num_comments s)
                  ("https://www.reddit.com" ++ s_permalink s)%string
                  (s_url s) (s_link_flair_text s) (s_author s)
                  (now_utc_iso E (tick w))])
    /\ (has_post (s_id s) (posts_of w) = true -> db w1 = db w)
    /\ store_submission_and_discover E s depth w
       = (Ok (negb (has_post (s_id s) (posts_of w))),
          snd (discover_links E (s_id s) depth (submission_urls s) w1)).
Proof.
  unfold store_submission_and_discover, bind at 1. rewrite ask_run.
  unfold bind at 1, insert_post. cbn [p_id db tick]. unfold posts_of.
  destruct (has_post (s_id s) (db_posts (db w))) eqn:Hp.
  - exists (mkWorld (db w) (S (tick w))). cbn [db].
    split; [exact Hp|]. split; [now apply extends_same_db|].
    split; [now rewrite app_nil_r|]. split; [reflexivity|].
    unfold bind.
    pose proof (discover_links_ok E (s_id s) depth (submission_urls s)
                  (mkWorld (db w) (S (tick w))) Hp) as Hok.
    destruct (discover_links E (s_id s) depth (submission_urls s) _) as [r w2].
    cbn in Hok. subst r. reflexivity.
  - eexists. split; [|split; [|split; [|split]]].
    5: { unfold bind.
         match goal with
         | |- context [discover_links E ?p ?d ?l ?x] =>
             assert (Hok : fst (discover_links E p d l x) = Ok tt);
             [|destruct (discover_links E p d l x) as [r w2] eqn:Hd; cbn in Hok; subst r;
               transitivity (Ok true, snd (discover_links E p d l x));
               [now rewrite Hd | reflexivity]]
         end.
         apply discover_links_ok. unfold posts_of, set_db, has_post. cbn.
         rewrite existsb_app. cbn. rewrite String.eqb_refl. now rewrite orb_true_r. }
    + unfold set_db, has_post. cbn. rewrite existsb_app. cbn.
      rewrite String.eqb_refl. now rewrite orb_true_r.
    + unfold extends, posts_of, queue_of, set_db. cbn.
      split; [eexists; reflexivity|]. split; exists []; now rewrite app_nil_r.
    + reflexivity.
    + discriminate.
Qed.

Lemma store_records (E : Env) (s : Submission) (depth : Z) (w : World) :
  let w' := snd (store_submission_and_discover E s depth w) in
  has_post (s_id s) (posts_of w') = true
  /\ forall u, In u (submission_urls s) ->
       has_link (s_id s) u (db_links (db w')) = true
       /\ ((depth <? MAX_CRAWL_DEPTH)%Z && is_reddit_submission_url (urlparse E) u = true ->
           has_key (queue_key (normalize_reddit_url u)) (queue_of w') = true).
Proof.
  destruct (store_unfold E s depth w) as (w1 & Hp & _ & _ & _ & Hs).
  cbv zeta. rewrite Hs. cbn [snd]. split.
  - apply (extends_has_post w1); [apply discover_links_extends | exact Hp].
  - intros u Hu. now apply discover_links_records.
Qed.

(** X15. After [store_submission_and_discover] the post is in [posts],
    and for every URL found in its title, its text or its link there is a
    row in [links]; below MAX_CRAWL_DEPTH, every such URL that is a
    submission URL has a row in [crawl_queue] under the key of its
    normalised form. *)
Theorem store_records_links (E : Env) (s : Submission) (depth : Z) (w : World) :
  let w' := snd (store_submission_and_discover E s depth w) in
  has_post (s_id s) (posts_of w') = true
  /\ forall u,
       In u (extract_urls (or_empty (s_title s)))
       \/ In u (extract_urls (or_empty (s_selftext s)))
       \/ In u (extract_urls (or_empty (s_url s))) ->
       has_link (s_id s) u (db_links (db w')) = true
       /\ ((depth <? MAX_CRAWL_DEPTH)%Z = true ->
           is_reddit_submission_url (urlparse E) u = true ->
           has_key (queue_key (normalize_reddit_url u)) (queue_of w') = true).
Proof.
  destruct (store_records E s depth w) as [Hp Hu]. cbv zeta. split; [exact Hp|].
  intros u Hin. apply submission_urls_In in Hin.
  destruct (Hu u Hin) as [Hl Hk]. split; [exact Hl|].
  intros Hd Hr. apply Hk. now rewrite Hd, Hr.
Qed.

Lemma db_eta (d : DB) :
  mkDB (db_posts d) (db_links d) (db_crawl_queue d) (db_runs d) = d.
Proof. destruct d. reflexivity. Qed.

(** The loop over URLs that are all recorded changes no table. *)
Lemma discover_links_noop (E : Env) (post_id : string) (depth : Z) (urls : list string) :
  forall w,
    (forall u, In u urls ->
       has_link post_id u (db_links (db w)) = true
       /\ ((depth <? MAX_CRAWL_DEPTH)%Z && is_reddit_submission_url (urlparse E) u = true ->
           has_key (queue_key (normalize_reddit_url u)) (queue_of w) = true)) ->
    exists t, discover_links E post_id depth urls w = (Ok tt, mkWorld (db w) t).
Proof.
  induction urls as [|x rest IH]; intros w H.
  - exists (tick w). destruct w. reflexivity.
  - destruct (H x (or_introl eq_refl)) as [Hl Hk].
    cbn [discover_links]. unfold bind at 1.
    assert (Hu : upsert_link E post_id x w = (Ok tt, mkWorld (db w) (S (tick w)))).
    { unfold upsert_link, bind, ask. cbn [db tick]. now rewrite Hl. }
    rewrite Hu. unfold bind at 1.
    assert (Hstep : exists t1,
      (if (depth <? MAX_CRAWL_DEPTH)%Z && is_reddit_submission_url (urlparse E) x
       then queue_add E (queue_key (normalize_reddit_url x))
              (normalize_reddit_url x) (depth + 1) 0 0
       else ret tt) (mkWorld (db w) (S (tick w))) = (Ok tt, mkWorld (db w) t1)).
    { destruct (_ && _) eqn:Hg.
      - rewrite queue_add_run. unfold posts_of, queue_of, runs_of. cbn [db tick].
        rewrite insert_queue_row_present by (cbn [q_key]; now apply Hk).
        rewrite db_eta. now eexists.
      - now eexists. }
    destruct Hstep as (t1 & ->).
    apply (IH (mkWorld (db w) t1)). intros u Hu'. apply H. now right.
Qed.

(** X16. Storing a submission a second time at the same depth changes no
    table, whatever happened to the clock in between, and reports that
    the post was there. *)
Theorem store_twice (E : Env) (s : Submission) (depth : Z) (w : World) (t : nat) :
  let w1 := snd (store_submission_and_discover E s depth w) in
  exists w2,
    store_submission_and_discover E s depth (mkWorld (db w1) t) = (Ok false, w2)
    /\ db w2 = db w1.
Proof.
  cbv zeta. destruct (store_records E s depth w) as [Hp Hu]. cbv zeta in Hp, Hu.
  set (w1 := snd (store_submission_and_discover E s depth w)) in *.
  destruct (store_unfold E s depth (mkWorld (db w1) t)) as (w0 & _ & _ & _ & Hdb & Hs).
  unfold posts_of in Hs, Hdb. cbn [db] in Hs, Hdb.
  unfold posts_of in Hp. rewrite Hp in Hs. specialize (Hdb Hp).
  destruct (discover_links_noop E (s_id s) depth (submission_urls s) w0) as (t' & Hn).
  { unfold queue_of. rewrite Hdb. exact Hu. }
  rewrite Hs, Hn. cbn [snd negb]. eexists. split; [reflexivity|]. exact Hdb.
Qed.

(* ================================================================== *)
(** ** What the phases count *)
(* ================================================================== *)

Lemma store_count (E : Env) (s : Submission) (depth : Z) (w : World) :
  exists b w',
    store_submission_and_discover E s depth w = (Ok b, w')
    /\ Z.of_nat (List.length (posts_of w'))
       = (Z.of_nat (List.length (posts_of w)) + (if b then 1 else 0))%Z.
Proof.
  destruct (store_unfold E s depth w) as (w1 & _ & _ & Hposts & _ & Hs).
  do 2 eexists. split; [exact Hs|].
  rewrite (discover_links_same_posts E (s_id s) depth (submission_urls s) w1), Hposts.
  rewrite length_app. destruct (has_post (s_id s) (posts_of w)); cbn; lia.
Qed.

Lemma flair_scan_count (E : Env) (deadline_ts : option Z) (results : listing) :
  forall st w ex st' w',
    flair_scan E deadline_ts results st w = (Ok (ex, st'), w') ->
    (Z.of_nat (List.length (posts_of w')) - inserted_count st'
     = Z.of_nat (List.length (posts_of w)) - inserted_count st)%Z.
Proof.
  induction results as [|s rest IH|msg]; intros st w ex st' w'.
  - cbn. intros H. injection H as _ <- <-. reflexivity.
  - cbn [flair_scan]. unfold bind at 1.
    destruct (deadline_reached_run E deadline_ts w) as (late & t & ->).
    destruct late; [intros H; injection H as _ <- <-; reflexivity|].
    unfold bind at 1.
    destruct (store_count E s 0 (mkWorld (db w) t)) as (b & w1 & -> & Hc).
    unfold bind at 1.
    destruct (heartbeat_clock E (heartbeat_at st) w1) as (hb & t2 & ->).
    unfold posts_of in Hc. cbn [db] in Hc.
    destruct (STOP_DUP_STREAK <=? _)%Z.
    + intros H. injection H as _ <- <-. unfold posts_of. cbn [db inserted_count].
      unfold posts_of in Hc. destruct b; lia.
    + intros H. apply IH in H. unfold posts_of in H |- *. cbn [db inserted_count] in H.
      unfold posts_of in Hc. destruct b; lia.
  - cbn. discriminate.
Qed.

Lemma flair_labels_count (E : Env) (deadline_ts : option Z) (flairs : list string) :
  forall st w n w',
    flair_labels E deadline_ts flairs st w = (Ok n, w') ->
    (Z.of_nat (List.length (posts_of w')) - n
     = Z.of_nat (List.length (posts_of w)) - inserted_count st)%Z.
Proof.
  induction flairs as [|flair more IH]; intros st w n w'.
  - cbn. intros H. injection H as <- <-. reflexivity.
  - cbn [flair_labels]. unfold bind at 1.
    destruct (deadline_reached_run E deadline_ts w) as (late & t & ->).
    destruct late; [intros H; injection H as <- <-; reflexivity|].
    unfold bind at 1. rewrite ask_run. cbn [db tick]. unfold bind at 1.
    match goal with
    | |- context [flair_scan E deadline_ts ?r ?s ?x] =>
        pose proof (flair_scan_count E deadline_ts r s x) as Hc;
        destruct (flair_scan E deadline_ts r s x) as [[[ex st']|msg|] w2]
    end; [|discriminate..].
    specialize (Hc ex st' w2 eq_refl). unfold posts_of in Hc. cbn [db inserted_count] in Hc.
    cbn [fst snd].
    destruct ex.
    + intros H. apply IH in H. unfold posts_of in *. lia.
    + intros H. apply IH in H. unfold posts_of in *. lia.
    + intros H. injection H as <- <-. unfold posts_of in *. lia.
Qed.

(** X17. The number that [ingest_dd_flair_posts] returns is the number of
    rows it added to [posts]: the table is the one before, followed by
    that many new rows. *)
Theorem ingest_counts_new_posts (E : Env) (deadline_ts : option Z) (w w' : World)
    (n : Z) :
  ingest_dd_flair_posts E deadline_ts w = (Ok n, w') ->
  exists new,
    posts_of w' = posts_of w ++ new /\ Z.of_nat (List.length new) = n.
Proof.
  intros H.
  destruct (ingest_stable E (extends w) (extends_stable E w) deadline_ts w
              (extends_refl w)) as [((new & Hx) & _) _].
  rewrite H in Hx. cbn [snd] in Hx. exists new. split; [exact Hx|].
  unfold ingest_dd_flair_posts, bind in H. rewrite ask_run in H.
  apply flair_labels_count in H. unfold posts_of in H. cbn [db inserted_count] in H.
  unfold posts_of in Hx. rewrite Hx, length_app in H. lia.
Qed.

Lemma ingest_counts_new_posts_witness :
  exists new,
    posts_of (snd (ingest_dd_flair_posts sampleE None new_world))
    = posts_of new_world ++ new
    /\ Z.of_nat (List.length new) = 1%Z.
Proof.
  apply (ingest_counts_new_posts sampleE None new_world
           (snd (ingest_dd_flair_posts sampleE None new_world)) 1).
  vm_compute. reflexivity.
Defined.

(* ------------------------------------------------------------------ *)
(** *** Hub discovery *)

Lemma seeds_refl (w : World) : seeds 0 w w.
Proof.
  repeat split. exists []. rewrite app_nil_r. repeat split; [constructor | cbn; lia].
Qed.

Lemma seeds_same_db (w w' : World) : db w' = db w -> seeds 0 w w'.
Proof.
  intros H. unfold seeds, posts_of, queue_of. rewrite H. repeat split.
  exists []. rewrite app_nil_r. repeat split; [constructor | cbn; lia].
Qed.

Lemma seeds_trans (j k : Z) (x y z : World) :
  seeds j x y -> seeds k y z -> seeds (j + k) x z.
Proof.
  intros (P1 & L1 & a & Ha & Fa & Na) (P2 & L2 & b & Hb & Fb & Nb).
  split; [congruence|]. split; [congruence|].
  exists (a ++ b). split; [now rewrite Hb, Ha, app_assoc|].
  split; [apply Forall_app; now split|]. rewrite length_app. lia.
Qed.

Lemma seed_one (E : Env) (s : Submission) (w : World) :
  seeds 1 w (snd (queue_add E (s_id s) ("https://www.reddit.com" ++ s_permalink s)%string
                    0 1 HUB_REPLY_DEPTH w)).
Proof.
  rewrite queue_add_run. unfold seeds, posts_of, queue_of. cbn [snd db db_posts db_links db_crawl_queue].
  split; [reflexivity|]. split; [reflexivity|].
  unfold insert_queue_row. destruct (has_key _ _).
  - exists []. rewrite app_nil_r. repeat split; [constructor | cbn; lia].
  - eexists. split; [reflexivity|]. split; [|cbn; lia].
    constructor; [|constructor]. unfold hub_row.
    repeat split; first [reflexivity | apply startswith_app].
Qed.

Lemma hub_scan_count (E : Env) (deadline_ts : option Z) (results : listing) :
  forall added w ex added' w',
    hub_scan E deadline_ts results added w = (Ok (ex, added'), w') ->
    (added <= added' <= added + Z.of_nat (listing_size results))%Z
    /\ seeds (added' - added) w w'.
Proof.
  induction results as [|s rest IH|msg]; intros added w ex added' w'.
  - cbn. intros H. injection H as _ <- <-. split; [lia|].
    rewrite Z.sub_diag. apply seeds_refl.
  - cbn [hub_scan]. unfold bind at 1.
    destruct (deadline_reached_run E deadline_ts w) as (late & t & ->).
    destruct late.
    + intros H. injection H as _ <- <-. split; [cbn [listing_size]; lia|].
      rewrite Z.sub_diag. now apply seeds_same_db.
    + rewrite (bind_ok _ _ _ tt (queue_add_ok E _ _ _ _ _ _)).
      intros H. apply IH in H as [Hb Hs]. split; [cbn [listing_size]; lia|].
      replace (added' - added)%Z with (0 + (1 + (added' - (added + 1))))%Z by lia.
      apply (seeds_trans _ _ w (mkWorld (db w) t)); [now apply seeds_same_db|].
      eapply seeds_trans; [apply seed_one | exact Hs].
  - cbn. discriminate.
Qed.

Lemma listing_limit_size (n : nat) (l : listing) :
  (listing_size (listing_limit n l) <= n)%nat.
Proof.
  revert l. induction n as [|n IH]; intros l; [cbn; lia|].
  destruct l as [|s rest|msg]; cbn; [lia | specialize (IH rest); lia | lia].
Qed.

Lemma hub_queries_count (E : Env) (deadline_ts : option Z) (queries : list string) :
  forall added w n w',
    hub_queries E deadline_ts queries added w = (Ok n, w') ->
    (added <= n <= added + 200 * Z.of_nat (List.length queries))%Z
    /\ seeds (n - added) w w'.
Proof.
  induction queries as [|q more IH]; intros added w n w'.
  - cbn. intros H. injection H as <- <-. split; [lia|].
    rewrite Z.sub_diag. apply seeds_refl.
  - cbn [hub_queries]. unfold bind at 1.
    destruct (deadline_reached_run E deadline_ts w) as (late & t & ->).
    destruct late.
    + intros H. injection H as <- <-. split; [cbn [List.length]; lia|].
      rewrite Z.sub_diag. now apply seeds_same_db.
    + unfold bind at 1. rewrite ask_run. cbn [db tick]. unfold bind at 1.
      match goal with
      | |- context [hub_scan E deadline_ts ?r ?a ?x] =>
          pose proof (hub_scan_count E deadline_ts r a x) as Hc;
          pose proof (listing_limit_size 200 (search E t q "relevance")) as Hsz;
          destruct (hub_scan E deadline_ts r a x) as [[[ex a']|msg|] w2]
      end; [|discriminate..].
      destruct (Hc ex a' w2 eq_refl) as [Hb Hs]. cbn [fst snd].
      assert (H0 : seeds (a' - added) w w2).
      { replace (a' - added)%Z with (0 + (a' - added))%Z by lia.
        apply (seeds_trans _ _ w (mkWorld (db w) (S t))); [now apply seeds_same_db|].
        exact Hs. }
      assert (Hfin : forall w3, (n = a' /\ w3 = w2) ->
                (added <= n <= added + 200 * Z.of_nat (List.length (q :: more)))%Z
                /\ seeds (n - added) w w3).
      { intros w3 [-> ->]. split; [cbn [List.length]; lia | exact H0]. }
      assert (Hrec : hub_queries E deadline_ts more a' w2 = (Ok n, w') ->
                (added <= n <= added + 200 * Z.of_nat (List.length (q :: more)))%Z
                /\ seeds (n - added) w w').
      { intros H. apply IH in H as [Hb' Hs']. split; [cbn [List.length]; lia|].
        replace (n - added)%Z with ((a' - added) + (n - a'))%Z by lia.
        now apply (seeds_trans _ _ w w2). }
      destruct ex; try exact Hrec.
      intros H. injection H as <- <-. now apply Hfin.
Qed.

(** X18. The number that [discover_hub_posts] returns counts the search
    results it went through, at most 200 for each of the hub queries.  It
    changes neither [posts] nor [links], and adds at most that many rows
    to the queue, each a queued hub at depth 0 with comment depth
    HUB_REPLY_DEPTH. *)
Theorem discover_hub_posts_spec (E : Env) (deadline_ts : option Z) (w w' : World)
    (n : Z) :
  discover_hub_posts E deadline_ts w = (Ok n, w') ->
  (0 <= n <= 200 * Z.of_nat (List.length HUB_QUERIES))%Z
  /\ posts_of w' = posts_of w
  /\ db_links (db w') = db_links (db w)
  /\ exists added,
       queue_of w' = queue_of w ++ added
       /\ Forall hub_row added
       /\ (Z.of_nat (List.length added) <= n)%Z.
Proof.
  intros H. apply hub_queries_count in H as [Hb Hs].
  rewrite Z.sub_0_r in Hs. split; [lia | exact Hs].
Qed.

Lemma discover_hub_posts_spec_witness :
  (0 <= 7 <= 200 * Z.of_nat (List.length HUB_QUERIES))%Z
  /\ posts_of (snd (discover_hub_posts sampleE None new_world)) = posts_of new_world
  /\ db_links (db (snd (discover_hub_posts sampleE None new_world)))
     = db_links (db new_world)
  /\ exists added,
       queue_of (snd (discover_hub_posts sampleE None new_world))
       = queue_of new_world ++ added
       /\ Forall hub_row added
       /\ (Z.of_nat (List.length added) <= 7)%Z.
Proof.
  apply (discover_hub_posts_spec sampleE None new_world
           (snd (discover_hub_posts sampleE None new_world)) 7).
  vm_compute. reflexivity.
Defined.

(* ================================================================== *)
(** ** A phase that starts after the deadline *)
(* ================================================================== *)

Lemma deadline_late (E : Env) (d : Z) (w : World) :
  (d <= time_time E (tick w))%Z ->
  deadline_reached E (Some d) w = (Ok true, mkWorld (db w) (S (tick w))).
Proof.
  intros H. unfold deadline_reached, bind. rewrite ask_run. cbn [ret].
  now rewrite (proj2 (Z.leb_le _ _) H).
Qed.

Lemma ingest_late (E : Env) (d : Z) (w : World) :
  (d <= time_time E (S (tick w)))%Z ->
  ingest_dd_flair_posts E (Some d) w = (Ok 0%Z, mkWorld (db w) (S (S (tick w)))).
Proof.
  intros H. unfold ingest_dd_flair_posts, bind at 1. rewrite ask_run.
  unfold DD_FLAIRS. cbn [flair_labels]. unfold bind at 1.
  now rewrite deadline_late by exact H.
Qed.

Lemma discover_late (E : Env) (d : Z) (w : World) :
  (d <= time_time E (tick w))%Z ->
  discover_hub_posts E (Some d) w = (Ok 0%Z, mkWorld (db w) (S (tick w))).
Proof.
  intros H. unfold discover_hub_posts, HUB_QUERIES. cbn [hub_queries]. unfold bind at 1.
  now rewrite deadline_late by exact H.
Qed.

Lemma crawl_late (E : Env) (d : Z) (fuel : nat) (w : World) :
  (d <= time_time E (S (tick w)))%Z ->
  crawl_queue (S fuel) E (Some d) w = (Ok (0%Z, 0%Z), mkWorld (db w) (S (S (tick w)))).
Proof.
  intros H. unfold crawl_queue, bind at 1. rewrite ask_run.
  cbn [crawl_loop]. unfold bind at 1.
  now rewrite deadline_late by exact H.
Qed.

(** X19. Deadline safety: when the deadline has passed, each of the three
    phases returns at its first check of the clock, with counts of zero
    and every table as it was. *)
Theorem phases_after_deadline (E : Env) (d : Z) (fuel : nat) (w : World) :
  (forall t, (tick w <= t)%nat -> (d <= time_time E t)%Z) ->
  (exists t, ingest_dd_flair_posts E (Some d) w = (Ok 0%Z, mkWorld (db w) t))
  /\ (exists t, discover_hub_posts E (Some d) w = (Ok 0%Z, mkWorld (db w) t))
  /\ (exists t, crawl_queue (S fuel) E (Some d) w = (Ok (0%Z, 0%Z), mkWorld (db w) t)).
Proof.
  intros H. split; [|split]; eexists.
  - apply ingest_late, H. lia.
  - apply discover_late, H. lia.
  - apply crawl_late, H. lia.
Qed.

Lemma phases_after_deadline_witness :
  (exists t, ingest_dd_flair_posts sampleE (Some 0%Z) three_world
             = (Ok 0%Z, mkWorld (db three_world) t))
  /\ (exists t, discover_hub_posts sampleE (Some 0%Z) three_world
                = (Ok 0%Z, mkWorld (db three_world) t))
  /\ (exists t, crawl_queue 1 sampleE (Some 0%Z) three_world
                = (Ok (0%Z, 0%Z), mkWorld (db three_world) t)).
Proof.
  apply (phases_after_deadline sampleE 0 0 three_world).
  intros t _. unfold sampleE, time_time. lia.
Defined.

(* ================================================================== *)
(** ** The expansion of a hub *)
(* ================================================================== *)

Lemma enqueue_best_links_keys (E : Env) (depth : Z) (links : list string) :
  forall w nu, In nu links ->
    has_key (queue_key nu) (queue_of (snd (enqueue_best_links E depth links w))) = true.
Proof.
  induction links as [|x rest IH]; intros w nu Hin; [destruct Hin|].
  cbn [enqueue_best_links].
  rewrite (bind_ok _ _ _ tt (queue_add_ok E _ _ _ _ _ _)).
  destruct Hin as [<- | Hin]; [|now apply IH].
  eapply extends_has_key; [apply enqueue_best_links_extends|].
  apply queue_add_has_key.
Qed.

Lemma crawl_item_work_hub (E : Env) (it : QItem) (s : Submission)
    (comments : list Comment) (w : World) :
  i_is_hub it = 1%Z -> (i_depth it <= MAX_CRAWL_DEPTH)%Z ->
  reddit_submission E (tick w) (item_sid it) (i_url it) = Got s ->
  s_comments s = Got comments ->
  exists w2,
    has_post (s_id s) (posts_of w2) = true
    /\ crawl_item_work E it w
       = (Ok tt,
          snd (enqueue_best_links E (i_depth it)
                 (sorted_set
                    (flat_map (comment_links E (i_max_comment_depth it)
                                 HUB_MAX_REPLIES_PER_TOP)
                       (firstn HUB_TOP_LEVEL_COMMENTS comments)))
                 w2)).
Proof.
  intros Hh Hd Hf Hc. unfold crawl_item_work.
  unfold bind at 1. unfold bind at 1. rewrite ask_run, Hf. cbn [of_fetched ret].
  unfold bind at 1.
  destruct (store_run E s (i_depth it) (mkWorld (db w) (S (tick w)))) as (w2 & -> & Hp & _).
  exists w2. split; [exact Hp|].
  rewrite Hh, (proj2 (Z.leb_le _ _) Hd). cbn [Z.eqb Pos.eqb andb].
  unfold bind at 1, extract_reddit_links_from_best_comments.
  rewrite Hc. cbn [of_fetched]. unfold bind at 1. cbn [ret].
  match goal with
  | |- ?m w2 = _ =>
      pose proof (enqueue_best_links_ok E (i_depth it)
                    (sorted_set
                       (flat_map (comment_links E (i_max_comment_depth it)
                                    HUB_MAX_REPLIES_PER_TOP)
                          (firstn HUB_TOP_LEVEL_COMMENTS comments))) w2) as Hok
  end.
  destruct (enqueue_best_links E (i_depth it) _ w2) as [r w3]. cbn in Hok. now subst r.
Qed.

(** X20. The expansion of a hub: when the submission of a hub item is
    fetched and its comments can be read, the item is marked [done], the
    submission is in [posts], and every submission URL found in the
    comment bodies that are read has a row in the queue under the key of
    its normalised form. *)
Theorem hub_expansion (E : Env) (it : QItem) (s : Submission) (comments : list Comment)
    (st : CrawlLocals) (w : World) :
  has_key (i_key it) (queue_of w) = true ->
  i_is_hub it = 1%Z -> (i_depth it <= MAX_CRAWL_DEPTH)%Z ->
  reddit_submission E (tick w) (item_sid it) (i_url it) = Got s ->
  s_comments s = Got comments ->
  let w' := snd (crawl_item E it st w) in
  status_of (i_key it) (queue_of w') = Some done
  /\ has_post (s_id s) (posts_of w') = true
  /\ forall body u,
       In body (bodies_read HUB_TOP_LEVEL_COMMENTS (i_max_comment_depth it)
                  HUB_MAX_REPLIES_PER_TOP comments) ->
       In u (extract_urls body) ->
       is_reddit_submission_url (urlparse E) u = true ->
       has_key (queue_key (normalize_reddit_url u)) (queue_of w') = true.
Proof.
  intros Hk Hh Hd Hf Hc. cbv zeta.
  assert (Hco : comments_ok s = true) by (unfold comments_ok; now rewrite Hc).
  split; [exact (proj2 (crawl_item_fetched E it s st w Hk Hf Hco))|].
  destruct (crawl_item_work_hub E it s comments w Hh Hd Hf Hc) as (w2 & Hp & Hw).
  rewrite crawl_item_run, Hw. cbn [snd].
  set (links := sorted_set _) in *.
  set (w3 := snd (enqueue_best_links E (i_depth it) links w2)).
  pose proof (queue_mark_extends E (i_key it) done None w3) as Hx.
  split.
  - apply (extends_has_post w3); [exact Hx|].
    apply (extends_has_post w2); [apply enqueue_best_links_extends | exact Hp].
  - intros body u Hb Hu Hr. apply (extends_has_key w3); [exact Hx|].
    apply enqueue_best_links_keys. unfold links.
    apply sorted_set_In. unfold bodies_read in Hb.
    apply in_flat_map in Hb as (top & Htop & Hb). apply in_flat_map.
    exists top. split; [exact Htop|].
    apply comment_links_In. exists body. split; [exact Hb|].
    apply reddit_links_in_In. now exists u.
Qed.

Lemma hub_expansion_witness :
  status_of (i_key hub_item)
    (queue_of (snd (crawl_item sampleE hub_item (mkCrawlLocals 0 0 0) hub_world)))
  = Some done
  /\ has_post (s_id hub_post)
       (posts_of (snd (crawl_item sampleE hub_item (mkCrawlLocals 0 0 0) hub_world)))
     = true
  /\ forall body u,
       In body (bodies_read HUB_TOP_LEVEL_COMMENTS (i_max_comment_depth hub_item)
                  HUB_MAX_REPLIES_PER_TOP
                  [mkComment "Start at https://www.reddit.com/r/Superstonk/comments/cmt01/a"
                     (Got ["then https://www.reddit.com/r/Superstonk/comments/cmt02/b !"]);
                   mkComment "nothing here" (Failed "replies unavailable")]) ->
       In u (extract_urls body) ->
       is_reddit_submission_url (urlparse sampleE) u = true ->
       has_key (queue_key (normalize_reddit_url u))
         (queue_of (snd (crawl_item sampleE hub_item (mkCrawlLocals 0 0 0) hub_world)))
       = true.
Proof.
  apply (hub_expansion sampleE hub_item hub_post).
  - vm_compute. reflexivity.
  - reflexivity.
  - vm_compute. discriminate.
  - vm_compute. reflexivity.
  - reflexivity.
Defined.

(* ================================================================== *)
(** ** Rows that are done or in error stay as they are *)
(* ================================================================== *)

Lemma same_key_same_row (q : list QueueRow) (a b : QueueRow) :
  keys_unique q = true -> In a q -> In b q -> q_key a = q_key b -> a = b.
Proof.
  intros Hu Ha Hb Hk.
  pose proof (row_of_unique q a Hu Ha) as H1.
  pose proof (row_of_unique q b Hu Hb) as H2.
  rewrite Hk in H1. congruence.
Qed.

Lemma crawl_item_other_row (E : Env) (it : QItem) (st : CrawlLocals) (w : World)
    (r : QueueRow) :
  In r (queue_of w) -> q_key r <> i_key it ->
  In r (queue_of (snd (crawl_item E it st w))).
Proof.
  intros Hin Hk.
  destruct (crawl_item_adds E it st w) as (added & status & err & now & -> & _).
  apply in_map_iff. exists r. split.
  - unfold mark_row. apply String.eqb_neq in Hk. now rewrite Hk.
  - apply in_or_app. now left.
Qed.

Lemma crawl_item_keys_unique (E : Env) (it : QItem) (st : CrawlLocals) (w : World) :
  keys_unique (queue_of w) = true ->
  keys_unique (queue_of (snd (crawl_item E it st w))) = true.
Proof.
  intros Hu.
  destruct (crawl_item_effect E it st w)
    as (q1 & status & err & now & st' & _ & Henq & _ & -> & _).
  unfold keys_unique. rewrite map_map.
  rewrite (map_ext _ q_key) by (intros a; apply mark_row_key).
  exact (enqueued_keys_unique _ _ _ Henq Hu).
Qed.

Lemma crawl_batch_other_row (E : Env) (deadline_ts : option Z) (r : QueueRow)
    (batch : list QItem) :
  forall st w,
    keys_unique (queue_of w) = true -> In r (queue_of w) ->
    (forall it, In it batch -> q_key r <> i_key it) ->
    exists o w',
      crawl_batch E deadline_ts batch st w = (o, w')
      /\ keys_unique (queue_of w') = true
      /\ In r (queue_of w')
      /\ o <> OutOfFuel.
Proof.
  induction batch as [|it rest IH]; intros st w Hu Hin Hk.
  - do 2 eexists. split; [reflexivity|]. split; [exact Hu|].
    split; [exact Hin|discriminate].
  - cbn [crawl_batch]. unfold bind at 1.
    destruct (deadline_reached_run E deadline_ts w) as (late & t & ->).
    destruct late.
    { do 2 eexists. split; [reflexivity|]. split; [exact Hu|].
      split; [exact Hin|discriminate]. }
    pose proof (crawl_item_keys_unique E it st (mkWorld (db w) t) Hu) as Hu1.
    pose proof (crawl_item_other_row E it st (mkWorld (db w) t) r Hin
                  (Hk it (or_introl eq_refl))) as Hin1.
    destruct (crawl_item_effect E it st (mkWorld (db w) t))
      as (_ & _ & _ & _ & st1 & Hrun & _).
    unfold bind at 1. rewrite Hrun.
    set (w1 := snd (crawl_item E it st (mkWorld (db w) t))) in *.
    unfold bind at 1.
    destruct (heartbeat_clock E (cl_heartbeat_at st1) w1) as (hb & t2 & ->).
    apply IH; try assumption. intros it' Hit'. apply Hk. now right.
Qed.

Lemma crawl_loop_settled (E : Env) (deadline_ts : option Z) (r : QueueRow) (fuel : nat) :
  forall st w,
    keys_unique (queue_of w) = true -> In r (queue_of w) -> is_queued r = false ->
    In r (queue_of (snd (crawl_loop fuel E deadline_ts st w))).
Proof.
  induction fuel as [|fuel IH]; intros st w Hu Hin Hq; [exact Hin|].
  cbn [crawl_loop]. unfold bind at 1.
  destruct (deadline_reached_run E deadline_ts w) as (late & t & ->).
  destruct late; [exact Hin|].
  unfold bind at 1. rewrite queue_pop_batch_run.
  change (queue_of (mkWorld (db w) t)) with (queue_of w).
  assert (Hk : forall it, In it (map item_of_row (pop_rows MAX_QUEUE_BATCH (queue_of w))) ->
                          q_key r <> i_key it).
  { intros it Hit Heq. apply in_map_iff in Hit as (r' & <- & Hr').
    apply pop_rows_In in Hr' as [Hr' Hq']. cbn [i_key item_of_row] in Heq.
    assert (r = r') by now apply (same_key_same_row (queue_of w)).
    subst r'. congruence. }
  destruct (map item_of_row (pop_rows MAX_QUEUE_BATCH (queue_of w))) as [|it batch] eqn:Hb;
    [exact Hin|].
  unfold bind at 1.
  destruct (crawl_batch_other_row E deadline_ts r (it :: batch) st (mkWorld (db w) t)
              Hu Hin Hk) as (o & w1 & -> & Hu1 & Hin1 & Hfin).
  destruct o as [[ex st']|msg|]; cbn [fst snd]; try exact Hin1.
  destruct ex; try (now apply IH). exact Hin1.
Qed.

(** X21. [crawl_queue] never touches a row that is [done] or in [error]
    when it starts: with one row per key, such a row is in the queue
    afterwards exactly as it was, whatever the deadline and the budget.
    An item in error is not tried again. *)
Theorem crawl_keeps_settled_rows (fuel : nat) (E : Env) (deadline_ts : option Z)
    (w : World) (r : QueueRow) :
  keys_unique (queue_of w) = true ->
  In r (queue_of w) -> q_status r <> queued ->
  In r (queue_of (snd (crawl_queue fuel E deadline_ts w))).
Proof.
  intros Hu Hin Hs. unfold crawl_queue, bind at 1. rewrite ask_run.
  apply crawl_loop_settled; try assumption.
  unfold is_queued. destruct (q_status r); [congruence | reflexivity..].
Qed.

Lemma crawl_keeps_settled_rows_witness :
  In done_row (queue_of (snd (crawl_queue 10 sampleE None mixed_world))).
Proof.
  apply (crawl_keeps_settled_rows 10 sampleE None mixed_world done_row).
  - vm_compute. reflexivity.
  - left. reflexivity.
  - discriminate.
Defined.

(** X22. A run whose time budget is zero or less, on a clock that does
    not go back: [main] exits with status 0 having fetched nothing.
    [posts] and [links] are as they were; the queue is as it was, but for
    the hubs put back when re-crawling is asked for; and [runs] has one
    more row, ended, with all four counts at zero. *)
Theorem main_without_budget (fuel : nat) (E : Env) (args : Args) (m : Z) (w : World) :
  max_minutes args = Some m -> (m <= 0)%Z ->
  (forall t, (tick w <= t)%nat -> (time_time E (tick w) <= time_time E t)%Z) ->
  has_run (uuid4 E (S (tick w))) (runs_of w) = false ->
  exists w',
    main fuel E args w = (Ok 0%Z, w')
    /\ posts_of w' = posts_of w
    /\ db_links (db w') = db_links (db w)
    /\ queue_of w'
       = (if recrawl_hubs args
          then map (requeue_hub (now_utc_iso E (S (S (S (tick w)))))) (queue_of w)
          else queue_of w)
    /\ exists started ended notes,
         runs_of w'
         = runs_of w ++
           [mkRunRow (uuid4 E (S (tick w))) started (Some ended) notes 0 0 0 0].
Proof.
  intros Hm Hle Hclock Hfresh.
  assert (Hid : main_run_id E args w = uuid4 E (S (tick w))).
  { unfold main_run_id, main_run_tick. now rewrite Hm. }
  rewrite main_unfold by now rewrite Hid.
  assert (Hdl : main_deadline E args w = Some (time_time E (tick w) + m * 60)%Z).
  { unfold main_deadline. now rewrite Hm. }
  rewrite Hdl, Hid.
  assert (Hlate : forall t, (tick w <= t)%nat ->
            (time_time E (tick w) + m * 60 <= time_time E t)%Z).
  { intros t Ht. specialize (Hclock t Ht). lia. }
  unfold main_begun, main_run_id, main_run_tick. rewrite Hm.
  set (d := (time_time E (tick w) + m * 60)%Z) in *.
  unfold try_except, main_try.
  assert (Hstep1 : exists q' t1,
    (t1 >= tick w)%nat
    /\ q' = (if recrawl_hubs args
             then map (requeue_hub (now_utc_iso E (S (S (S (tick w)))))) (queue_of w)
             else queue_of w)
    /\ forall (c : Counters) (rs : list RunRow),
         (if recrawl_hubs args then lift (queue_reset_hubs E) else ret tt)
           (c, mkWorld (mkDB (posts_of w) (db_links (db w)) (queue_of w) rs)
                 (S (S (S (tick w)))))
         = (Ok tt, (c, mkWorld (mkDB (posts_of w) (db_links (db w)) q' rs) t1))).
  { destruct (recrawl_hubs args).
    - exists (map (requeue_hub (now_utc_iso E (S (S (S (tick w)))))) (queue_of w)),
             (S (S (S (S (tick w))))).
      split; [lia|]. split; [reflexivity|].
      intros c rs. rewrite lift_run, queue_reset_hubs_run. reflexivity.
    - exists (queue_of w), (S (S (S (tick w)))).
      split; [lia|]. split; [reflexivity|].
      intros c rs. reflexivity. }
  destruct Hstep1 as (q' & t1 & Ht1 & Hq' & Hstep1).
  unfold bind at 1. rewrite Hstep1.
  unfold bind at 1. rewrite lift_run, ingest_late by (cbn [tick]; apply Hlate; lia).
  cbn [fst snd db tick].
  unfold bind at 1, assign at 1. cbn [fst snd].
  unfold bind at 1, flush_stats at 1, bind at 1, locals. cbn [fst snd].
  rewrite lift_run. unfold update_run_stats, modify, set_runs, set_db.
  cbn [fst snd db tick db_posts db_links db_crawl_queue db_runs
       posts_inserted hubs_queued queue_done errors].
  unfold bind at 1. rewrite lift_run, deadline_late by (cbn [tick]; apply Hlate; lia).
  cbn [fst snd db tick negb].
  unfold bind at 1, ret at 1.
  unfold bind at 1. rewrite lift_run, deadline_late by (cbn [tick]; apply Hlate; lia).
  cbn [fst snd db tick negb].
  unfold bind at 1, ret at 1.
  unfold bind at 1. rewrite lift_run.
  unfold end_run, bind, ask, modify, set_runs, set_db, ret.
  cbn [fst snd db tick db_posts db_links db_crawl_queue db_runs].
  eexists. split; [reflexivity|].
  unfold posts_of, queue_of, runs_of.
  cbn [db db_posts db_links db_crawl_queue db_runs].
  split; [reflexivity|]. split; [reflexivity|]. split; [exact Hq'|].
  rewrite !map_app, stats_row_absent, end_row_absent by exact Hfresh.
  cbn [map]. unfold stats_row, end_row. cbn [r_run_id].
  rewrite String.eqb_refl. cbn [r_run_id]. rewrite String.eqb_refl.
  do 3 eexists. reflexivity.
Qed.

Lemma main_without_budget_witness :
  exists w',
    main 10 sampleE budget_args hub_world = (Ok 0%Z, w')
    /\ posts_of w' = posts_of hub_world
    /\ db_links (db w') = db_links (db hub_world)
    /\ queue_of w'
       = (if recrawl_hubs budget_args
          then map (requeue_hub (now_utc_iso sampleE (S (S (S (tick hub_world))))))
                 (queue_of hub_world)
          else queue_of hub_world)
    /\ exists started ended notes,
         runs_of w'
         = runs_of hub_world ++
           [mkRunRow (uuid4 sampleE (S (tick hub_world))) started (Some ended) notes
              0 0 0 0].
Proof.
  apply (main_without_budget 10 sampleE budget_args 0 hub_world).
  - reflexivity.
  - lia.
  - intros t Ht. unfold sampleE, time_time. lia.
  - vm_compute. reflexivity.
Defined.

(* ================================================================== *)
(** ** The crawl drains the queue *)
(* ================================================================== *)

Lemma crawl_batch_no_deadline (E : Env) (batch : list QItem) :
  forall st w ex st' w',
    crawl_batch E None batch st w = (Ok (ex, st'), w') -> ex = Exhausted.
Proof.
  induction batch as [|it rest IH]; intros st w ex st' w'.
  - cbn. intros H. now injection H as <- _ _.
  - cbn [crawl_batch]. unfold bind at 1. rewrite deadline_none.
    unfold bind at 1.
    destruct (crawl_item_effect E it st w) as (_ & _ & _ & _ & st1 & -> & _).
    unfold bind at 1.
    destruct (heartbeat_clock E (cl_heartbeat_at st1) (snd (crawl_item E it st w)))
      as (hb & t2 & ->).
    apply IH.
Qed.

Lemma pop_rows_nil (n : nat) (q : list QueueRow) :
  pop_rows (S n) q = [] -> filter is_queued q = [].
Proof.
  unfold pop_rows. intros H.
  destruct (filter is_queued q) as [|r l] eqn:Hf; [reflexivity|].
  assert (Hin : In r (order_by_added (r :: l))) by (apply order_by_added_In; now left).
  destruct (order_by_added (r :: l)) as [|x l']; [destruct Hin | discriminate H].
Qed.

Lemma crawl_loop_drains (E : Env) :
  forall (w : World) (st : CrawlLocals),
    queue_inv (queue_of w) ->
    exists fuel0 r w',
      (forall fuel, (fuel0 <= fuel)%nat -> crawl_loop fuel E None st w = (Ok r, w'))
      /\ filter is_queued (queue_of w') = [].
Proof.
  assert (H : forall m, Acc smaller m ->
            forall w st, measure (queue_of w) = m -> queue_inv (queue_of w) ->
              exists fuel0 r w',
                (forall fuel, (fuel0 <= fuel)%nat ->
                   crawl_loop fuel E None st w = (Ok r, w'))
                /\ filter is_queued (queue_of w') = []).
  { induction 1 as [m _ IH]. intros w st Hm Hinv.
    destruct (map item_of_row (pop_rows MAX_QUEUE_BATCH (queue_of w)))
      as [|it rest] eqn:Hpop.
    { exists 1%nat, (cl_done st, cl_errors st), w. split.
      - intros [|fuel] Hf; [lia|].
        cbn [crawl_loop]. unfold bind at 1. rewrite deadline_none.
        unfold bind at 1. rewrite queue_pop_batch_run, Hpop. reflexivity.
      - apply map_eq_nil in Hpop. now apply (pop_rows_nil 49). }
    destruct (crawl_batch_decreases E None (it :: rest) st w Hinv)
      as (ex & st' & w1 & Hrun & Hex & Hinv1 & Hsm).
    { intros it' Hin. rewrite <- Hpop in Hin.
      apply (pop_queued_items _ _ _ (proj2 Hinv) Hin). }
    { rewrite <- Hpop. apply pop_batch_keys, Hinv. }
    pose proof (crawl_batch_no_deadline E _ _ _ _ _ _ Hrun) as ->.
    destruct (IH (measure (queue_of w1))) with (w := w1) (st := st')
      as (fuel0 & r & w' & Hloop & Hnone).
    - rewrite <- Hm. apply Hsm; [reflexivity|discriminate].
    - reflexivity.
    - exact Hinv1.
    - exists (S fuel0), r, w'. split; [|exact Hnone].
      intros [|fuel] Hf; [lia|].
      cbn [crawl_loop]. unfold bind at 1. rewrite deadline_none.
      unfold bind at 1. rewrite queue_pop_batch_run, Hpop.
      unfold bind at 1. rewrite Hrun. cbn [fst snd].
      apply Hloop. lia. }
  intros w st Hinv. apply (H (measure (queue_of w))); [apply smaller_wf|reflexivity|exact Hinv].
Qed.

(** X23. Without a deadline the crawl ends with nothing left to do: from
    a queue with depths within the bound and one row per key,
    [crawl_queue] returns after finitely many batches, and no row of the
    queue is [queued] when it does. *)
Theorem crawl_drains_queue (E : Env) (w : World) :
  queue_inv (queue_of w) ->
  exists fuel0 r w',
    (forall fuel, (fuel0 <= fuel)%nat -> crawl_queue fuel E None w = (Ok r, w'))
    /\ forall row, In row (queue_of w') -> q_status row <> queued.
Proof.
  intros Hinv.
  destruct (crawl_loop_drains E (mkWorld (db w) (S (tick w)))
              (mkCrawlLocals 0 0 (time_time E (tick w))) Hinv)
    as (fuel0 & r & w' & H & Hnone).
  exists fuel0, r, w'. split.
  - intros fuel Hf. unfold crawl_queue. unfold bind at 1. rewrite ask_run. now apply H.
  - intros row Hin Hq.
    assert (Hf : In row (filter is_queued (queue_of w'))).
    { apply filter_In. split; [exact Hin|]. unfold is_queued. now rewrite Hq. }
    rewrite Hnone in Hf. destruct Hf.
Qed.

Lemma crawl_drains_queue_witness :
  exists fuel0 r w',
    (forall fuel, (fuel0 <= fuel)%nat ->
       crawl_queue fuel sampleE None hub_world = (Ok r, w'))
    /\ forall row, In row (queue_of w') -> q_status row <> queued.
Proof.
  apply (crawl_drains_queue sampleE hub_world).
  split; vm_compute; reflexivity.
Defined.

(* ------------------------------------------------------------------ *)
(** *** A new key *)

Lemma row_of_app (key : string) (q added : list QueueRow) :
  row_of key (q ++ added)
  = match row_of key q with
    | Some r => Some r
    | None => row_of key added
    end.
Proof.
  unfold row_of. induction q as [|x q IH]; [reflexivity|].
  cbn [app find]. destruct (String.eqb (q_key x) key); [reflexivity | exact IH].
Qed.

Lemma row_of_absent (key : string) (q : list QueueRow) :
  has_key key q = false -> row_of key q = None.
Proof.
  intros Hk. destruct (row_of key q) as [r|] eqn:Hr; [|reflexivity].
  assert (has_key key q = true) by (apply row_of_has_key; now exists r).
  congruence.
Qed.

(** X24. [queue_add] with a key that is not in the queue adds one row at
    the end, with the url, depth and flags given, status [queued], no
    error text and the two time stamps; looking the key up afterwards
    gives that row, and every other key gives what it gave before. *)
Theorem queue_add_new_key (E : Env) (key url : string) (depth is_hub mcd : Z)
    (w : World) :
  has_key key (queue_of w) = false ->
  let row := mkQueueRow key url depth queued None is_hub mcd
               (now_utc_iso E (tick w)) (now_utc_iso E (S (tick w))) in
  let w' := snd (queue_add E key url depth is_hub mcd w) in
  queue_of w' = queue_of w ++ [row]
  /\ row_of key (queue_of w') = Some row
  /\ (forall key', key' <> key -> row_of key' (queue_of w') = row_of key' (queue_of w))
  /\ posts_of w' = posts_of w
  /\ db_links (db w') = db_links (db w)
  /\ runs_of w' = runs_of w.
Proof.
  intros Hk. cbv zeta.
  rewrite queue_add_queue, insert_queue_row_absent by exact Hk.
  split; [reflexivity|]. split; [|split; [|split; [|split]]].
  - rewrite row_of_app, (row_of_absent key _ Hk).
    unfold row_of. cbn. now rewrite String.eqb_refl.
  - intros key' Hne. rewrite row_of_app.
    destruct (row_of key' (queue_of w)); [reflexivity|].
    unfold row_of. cbn. apply not_eq_sym in Hne. apply String.eqb_neq in Hne.
    now rewrite Hne.
  - apply queue_add_same_posts.
  - now rewrite queue_add_run.
  - now rewrite queue_add_run.
Qed.

Lemma queue_add_new_key_witness :
  queue_of (snd (queue_add sampleE "new01" "https://redd.it/new01" 1 0 0 three_world))
  = queue_of three_world ++
    [mkQueueRow "new01" "https://redd.it/new01" 1 queued None 0 0
       (now_utc_iso sampleE (tick three_world))
       (now_utc_iso sampleE (S (tick three_world)))]
  /\ row_of "new01"
       (queue_of (snd (queue_add sampleE "new01" "https://redd.it/new01" 1 0 0
                         three_world)))
     = Some (mkQueueRow "new01" "https://redd.it/new01" 1 queued None 0 0
               (now_utc_iso sampleE (tick three_world))
               (now_utc_iso sampleE (S (tick three_world))))
  /\ (forall key', key' <> "new01" ->
        row_of key'
          (queue_of (snd (queue_add sampleE "new01" "https://redd.it/new01" 1 0 0
                            three_world)))
        = row_of key' (queue_of three_world))
  /\ posts_of (snd (queue_add sampleE "new01" "https://redd.it/new01" 1 0 0 three_world))
     = posts_of three_world
  /\ db_links (db (snd (queue_add sampleE "new01" "https://redd.it/new01" 1 0 0
                          three_world)))
     = db_links (db three_world)
  /\ runs_of (snd (queue_add sampleE "new01" "https://redd.it/new01" 1 0 0 three_world))
     = runs_of three_world.
Proof.
  apply (queue_add_new_key sampleE "new01" "https://redd.it/new01" 1 0 0 three_world).
  vm_compute. reflexivity.
Defined.
